(** * BCH Stratum Inspector: a shallow embedding of [bch_stratum_inspector.py]

    The Python module is embedded function by function.  Python values are
    modelled as follows:

    - [int]    : [Z] (unbounded);
    - [bytes]  : [list byte], one constructor of [Init.Byte.byte] per octet;
    - [str]    : [string] for the hex and address strings the module shuffles
                 (ASCII only), and [list Z] (code points) for decoded text;
    - exceptions: the left summand of [result]; a function that can raise
      returns [result A], one that cannot returns [A].

    Part I holds the definitions, Part II the proofs. *)

From Stdlib Require Import ZArith List String Ascii Bool Lia Btauto.
From coqutil Require Import Byte Word.LittleEndianList.
Import ListNotations.

Local Open Scope Z_scope.
Local Open Scope list_scope.
Set Warnings "-register-all".

(* ================================================================== *)
(** * Part I.  Definitions                                             *)
(* ================================================================== *)

(** ** The fragment of the Python runtime the module relies on *)

Module Py.

(** Exceptions the embedded code can raise.  [LoopBudget] is not a Python
    exception: it marks a [while] loop of the model running out of its
    iteration budget, and is shown unreachable where it matters. *)
Inductive exn : Type :=
| IndexError
| ValueError
| StructError
| UnicodeDecodeError
| TypeError
| LoopBudget.

Definition result (A : Type) : Type := (exn + A)%type.

Definition ok {A : Type} (a : A) : result A := inr a.
Definition raise {A : Type} (e : exn) : result A := inl e.

Definition bind {A B : Type} (m : result A) (k : A -> result B) : result B :=
  match m with
  | inl e => inl e
  | inr a => k a
  end.

Definition exn_eqb (a b : exn) : bool :=
  match a, b with
  | IndexError, IndexError | ValueError, ValueError
  | StructError, StructError | UnicodeDecodeError, UnicodeDecodeError
  | TypeError, TypeError | LoopBudget, LoopBudget => true
  | _, _ => false
  end.

(** [try: m  except e: h] *)
Definition try_except {A : Type} (m : result A) (e : exn) (h : result A) : result A :=
  match m with
  | inl e' => if exn_eqb e e' then h else inl e'
  | inr a => inr a
  end.

Definition bytes : Type := list byte.

(** [len(x)] *)
Definition len {A : Type} (l : list A) : Z := Z.of_nat (List.length l).

(** Slice bounds are clamped the way [PySlice_AdjustIndices] does for a
    step of 1: a negative bound counts from the end, and every bound is
    brought back into [0, len]. *)
Definition adjust (n i : Z) : Z :=
  if i <? 0 then Z.max 0 (i + n) else Z.min i n.

(** [l[lo:hi]] *)
Definition slice {A : Type} (l : list A) (lo hi : Z) : list A :=
  let a := adjust (len l) lo in
  let b := adjust (len l) hi in
  firstn (Z.to_nat (b - a)) (skipn (Z.to_nat a) l).

(** [l[lo:]] *)
Definition slice_from {A : Type} (l : list A) (lo : Z) : list A :=
  skipn (Z.to_nat (adjust (len l) lo)) l.

(** [l[:hi]] *)
Definition slice_to {A : Type} (l : list A) (hi : Z) : list A :=
  firstn (Z.to_nat (adjust (len l) hi)) l.

(** [l[i]]: a negative index counts from the end; out of range raises. *)
Definition index {A : Type} (l : list A) (i : Z) : result A :=
  let j := if i <? 0 then i + len l else i in
  if (j <? 0) || (len l <=? j) then raise IndexError
  else match nth_error l (Z.to_nat j) with
       | Some a => ok a
       | None => raise IndexError
       end.

(** [a << n] and [a >> n]: a negative shift count raises [ValueError]. *)
Definition lshift (a n : Z) : result Z :=
  if n <? 0 then raise ValueError else ok (Z.shiftl a n).

Definition rshift (a n : Z) : result Z :=
  if n <? 0 then raise ValueError else ok (Z.shiftr a n).

(** [range(start, stop, step)] for a non-zero step. *)
Definition range3 (start stop step : Z) : list Z :=
  let n := if 0 <? step then (stop - start + step - 1) / step
           else (start - stop - step - 1) / (- step) in
  map (fun k => start + Z.of_nat k * step) (seq 0 (Z.to_nat n)).

(** [range(n)] *)
Definition range (n : Z) : list Z := range3 0 n 1.

(** [int.from_bytes(b, 'little')] and [int.from_bytes(b, 'big')] *)
Definition int_from_bytes_little (b : bytes) : Z := le_combine b.
Definition int_from_bytes_big (b : bytes) : Z := le_combine (rev b).

(** [struct.unpack('<H' | '<I' | '<Q', b)[0]]: an unsigned little-endian
    integer of [n] bytes; a buffer of another size raises [struct.error]. *)
Definition unpack_unsigned (n : nat) (b : bytes) : result Z :=
  if Nat.eqb (List.length b) n then ok (le_combine b) else raise StructError.

(** [struct.unpack('<i', b)[0]]: two's complement on 32 bits. *)
Definition unpack_i32 (b : bytes) : result Z :=
  bind (unpack_unsigned 4 b)
       (fun u => ok (if u <? 2 ^ 31 then u else u - 2 ^ 32)).

(** *** Strings *)

Definition str_len (s : string) : Z := Z.of_nat (String.length s).

(** [s[lo:hi]] on a string. *)
Definition str_slice (s : string) (lo hi : Z) : string :=
  let a := adjust (str_len s) lo in
  let b := adjust (str_len s) hi in
  substring (Z.to_nat a) (Z.to_nat (b - a)) s.

(** [''.join(parts)] *)
Definition join (parts : list string) : string :=
  fold_right String.append EmptyString parts.

(** [s * n] *)
Definition str_repeat (s : string) (n : Z) : string :=
  join (repeat s (Z.to_nat n)).

(** [s[i]] on a string (non-negative or negative index). *)
Definition str_index (s : string) (i : Z) : result ascii :=
  let j := if i <? 0 then i + str_len s else i in
  if (j <? 0) || (str_len s <=? j) then raise IndexError
  else match String.get (Z.to_nat j) s with
       | Some c => ok c
       | None => raise IndexError
       end.

(** *** Hexadecimal *)

Definition hex_digits : string := "0123456789abcdef".

Definition hex_digit (n : Z) : ascii :=
  match String.get (Z.to_nat n) hex_digits with
  | Some c => c
  | None => "0"%char
  end.

(** Value of a hexadecimal digit, either case. *)
Definition hex_value (c : ascii) : option Z :=
  let n := Z.of_N (N_of_ascii c) in
  if (48 <=? n) && (n <=? 57) then Some (n - 48)
  else if (97 <=? n) && (n <=? 102) then Some (n - 87)
  else if (65 <=? n) && (n <=? 70) then Some (n - 55)
  else None.

(** ASCII whitespace as [Py_ISSPACE] sees it. *)
Definition is_space (c : ascii) : bool :=
  let n := Z.of_N (N_of_ascii c) in
  ((9 <=? n) && (n <=? 13)) || (n =? 32).

(** [b.hex()] *)
Fixpoint hex (b : bytes) : string :=
  match b with
  | [] => EmptyString
  | x :: r =>
      String (hex_digit (Z.shiftr (byte.unsigned x) 4))
        (String (hex_digit (Z.land (byte.unsigned x) 15)) (hex r))
  end.

(** [bytes.fromhex(s)]: whitespace is skipped between octets, each octet is
    two hexadecimal digits, anything else raises [ValueError]. *)
Fixpoint fromhex (s : string) : result bytes :=
  match s with
  | EmptyString => ok []
  | String c s' =>
      if is_space c then fromhex s'
      else match hex_value c with
           | None => raise ValueError
           | Some hi =>
               match s' with
               | EmptyString => raise ValueError
               | String d s'' =>
                   match hex_value d with
                   | None => raise ValueError
                   | Some lo =>
                       bind (fromhex s'')
                            (fun r => ok (byte.of_Z (16 * hi + lo) :: r))
                   end
               end
           end
  end.

(** [int(s, 16)] for a string of hexadecimal digits.  The wider literal
    syntax of [int] (sign, [0x] prefix, underscores, surrounding blanks) is
    left out: every statement below is about digit strings. *)
Fixpoint int16_digits (acc : Z) (s : string) : result Z :=
  match s with
  | EmptyString => ok acc
  | String c s' =>
      match hex_value c with
      | None => raise ValueError
      | Some d => int16_digits (16 * acc + d) s'
      end
  end.

Definition int16 (s : string) : result Z :=
  match s with
  | EmptyString => raise ValueError
  | _ => int16_digits 0 s
  end.

End Py.

Export Py.

Notation "x <- m ;; k" := (Py.bind m (fun x => k))
  (at level 61, m at next level, right associativity).


(** Monadic map: a list comprehension whose body can raise. *)
Fixpoint mapM {A B : Type} (f : A -> result B) (l : list A) : result (list B) :=
  match l with
  | [] => ok []
  | a :: l' => b <- f a ;; r <- mapM f l' ;; ok (b :: r)
  end.

(** [ord(c)] *)
Definition ord (c : ascii) : Z := Z.of_N (N_of_ascii c).

(** ** Address encoding: CashAddr *)

Module CashAddr.

Definition _CASHADDR_CHARSET : string := "qpzry9x8gf2tvdw0s3jn54khce6mua7l".

(** One turn of the [for d in values] loop of [_cashaddr_polymod]. *)
Definition polymod_step (c d : Z) : Z :=
  let c0 := Z.shiftr c 35 in
  let c := Z.lxor (Z.shiftl (Z.land c 0x07ffffffff) 5) d in
  let c := if Z.land c0 0x01 =? 0 then c else Z.lxor c 0x98f2bc8e61 in
  let c := if Z.land c0 0x02 =? 0 then c else Z.lxor c 0x79b76d99e2 in
  let c := if Z.land c0 0x04 =? 0 then c else Z.lxor c 0xf33e5fb3c4 in
  let c := if Z.land c0 0x08 =? 0 then c else Z.lxor c 0xae2eabe2a8 in
  let c := if Z.land c0 0x10 =? 0 then c else Z.lxor c 0x1e4f43e470 in
  c.

Definition _cashaddr_polymod (values : list Z) : Z :=
  Z.lxor (fold_left polymod_step values 1) 1.

Definition _cashaddr_hrp_expand (prefix : string) : list Z :=
  map (fun c => Z.land (ord c) 0x1f) (list_ascii_of_string prefix) ++ [0].

(** The inner [while bits >= to_bits] loop of [_convert_bits]; [fuel] bounds
    its iterations. *)
Fixpoint convert_while (fuel : nat) (acc bits to_bits maxv : Z) (ret : list Z)
  : result (Z * list Z) :=
  if bits >=? to_bits then
    match fuel with
    | O => raise LoopBudget
    | S fuel' =>
        let bits := bits - to_bits in
        v <- rshift acc bits ;;
        convert_while fuel' acc bits to_bits maxv (ret ++ [Z.land v maxv])
    end
  else ok (bits, ret).

(** The outer [for value in data] loop of [_convert_bits]. *)
Fixpoint convert_for (data : list Z) (from_bits to_bits maxv acc bits : Z)
  (ret : list Z) : result (Z * Z * list Z) :=
  match data with
  | [] => ok (acc, bits, ret)
  | value :: data' =>
      a <- lshift acc from_bits ;;
      let acc := Z.lor a value in
      let bits := bits + from_bits in
      st <- convert_while (Z.to_nat bits) acc bits to_bits maxv ret ;;
      convert_for data' from_bits to_bits maxv acc (fst st) (snd st)
  end.

Definition _convert_bits (data : list Z) (from_bits to_bits : Z) (pad : bool)
  : result (list Z) :=
  one <- lshift 1 to_bits ;;
  let maxv := one - 1 in
  st <- convert_for data from_bits to_bits maxv 0 0 [] ;;
  let '(acc, bits, ret) := st in
  if pad && negb (bits =? 0) then
    v <- lshift acc (to_bits - bits) ;;
    ok (ret ++ [Z.land v maxv])
  else ok ret.

Definition hash160_to_cashaddr (hash160 : bytes) (script_type : string)
  : result string :=
  let prefix := "bitcoincash"%string in
  let version_byte := if String.eqb script_type "P2PKH" then 0x00 else 0x08 in
  payload <- _convert_bits (version_byte :: map byte.unsigned hash160) 8 5 true ;;
  let values := _cashaddr_hrp_expand prefix ++ payload ++ repeat 0 8 in
  let checksum :=
    map (fun i => Z.land (Z.shiftr (_cashaddr_polymod values) (5 * (7 - i))) 0x1f)
        (range 8) in
  chars <- mapM (str_index _CASHADDR_CHARSET) (payload ++ checksum) ;;
  ok (prefix ++ ":" ++ string_of_list_ascii chars)%string.

End CashAddr.

(** ** Address encoding: legacy Base58Check, and the script classifier

    [hashlib]'s digests are not code of the module: they are parameters. *)

Module Legacy.

Definition _BASE58_ALPHABET : string :=
  "123456789ABCDEFGHJKLMNPQRSTUVWXYZabcdefghijkmnopqrstuvwxyz".

(** [while n > 0: n, r = divmod(n, 58); result = ALPHABET[r] + result] *)
Fixpoint base58_while (fuel : nat) (n : Z) (result : string) : Py.result string :=
  if n >? 0 then
    match fuel with
    | O => raise LoopBudget
    | S fuel' =>
        c <- str_index _BASE58_ALPHABET (n mod 58) ;;
        base58_while fuel' (n / 58) (String c result)
    end
  else ok result.

(** [for byte in data: if byte == 0: result = '1' + result  else: break] *)
Fixpoint leading_ones (data : bytes) (result : string) : string :=
  match data with
  | [] => result
  | b :: data' =>
      if byte.unsigned b =? 0 then leading_ones data' (String "1" result)
      else result
  end.

Section WithDigests.
Variable sha256 : bytes -> bytes.

Definition _base58check_encode (payload : bytes) : result string :=
  let checksum := slice_to (sha256 (sha256 payload)) 4 in
  let data := payload ++ checksum in
  let n := int_from_bytes_big data in
  result <- base58_while (Z.to_nat (Z.log2 n + 1)) n EmptyString ;;
  ok (leading_ones data result).

Definition hash160_to_legacy (hash160 : bytes) (script_type : string)
  : result string :=
  let version := if String.eqb script_type "P2PKH" then [Byte.x00] else [Byte.x05] in
  _base58check_encode (version ++ hash160).

End WithDigests.
End Legacy.

Module Script.

Record address : Type := { cashaddr : string; legacy : string }.

Definition bytes_eqb (a b : bytes) : bool :=
  if list_eq_dec Byte.byte_eq_dec a b then true else false.

(** [a and b] where evaluating [b] can raise. *)
Definition and_then (a : bool) (b : result bool) : result bool :=
  if a then b else ok false.

Section WithDigests.
Variable sha256 : bytes -> bytes.
Variable ripemd160 : bytes -> bytes.

Definition addresses (h160 : bytes) (script_type : string) : result address :=
  c <- CashAddr.hash160_to_cashaddr h160 script_type ;;
  l <- Legacy.hash160_to_legacy sha256 h160 script_type ;;
  ok {| cashaddr := c; legacy := l |}.

Definition parse_script_pubkey (script : bytes)
  : result (string * option address * string) :=
  let unknown := ok ("UNKNOWN"%string, None, hex script) in
  match script with
  | [] => ok ("EMPTY"%string, None, EmptyString)
  | _ =>
  if (len script =? 25)
     && bytes_eqb (slice_to script 3) [Byte.x76; Byte.xa9; Byte.x14]
     && bytes_eqb (slice_from script 23) [Byte.x88; Byte.xac]
  then
    let h160 := slice script 3 23 in
    a <- addresses h160 "P2PKH" ;;
    ok ("P2PKH"%string, Some a, hex h160)
  else
  is_p2sh <- and_then ((len script =? 23)
                       && bytes_eqb (slice_to script 2) [Byte.xa9; Byte.x14])
                      (b <- index script 22 ;; ok (byte.unsigned b =? 0x87)) ;;
  if is_p2sh then
    let h160 := slice script 2 22 in
    a <- addresses h160 "P2SH" ;;
    ok ("P2SH"%string, Some a, hex h160)
  else
  first <- index script 0 ;;
  if byte.unsigned first =? 0x6a then
    ok ("OP_RETURN"%string, None, hex (slice_from script 1))
  else
  last <- index script (-1) ;;
  if (byte.unsigned last =? 0xac) && ((len script =? 35) || (len script =? 67)) then
    pk_len <- index script 0 ;;
    if byte.unsigned pk_len =? len script - 2 then
      let pubkey := slice script 1 (-1) in
      let h160 := ripemd160 (sha256 pubkey) in
      a <- addresses h160 "P2PKH" ;;
      ok ("P2PK"%string, Some a, hex pubkey)
    else unknown
  else unknown
  end.

End WithDigests.
End Script.

(** ** The raw transaction parser *)

Module CoinbaseTxParser.

Record TxInput : Type := {
  prev_hash : string;
  prev_index : Z;
  scriptSig : bytes;
  sequence : Z;
}.

Record TxOutput : Type := {
  value : Z;
  scriptPubKey : bytes;
}.

Record Tx : Type := {
  version : Z;
  inputs : list TxInput;
  outputs : list TxOutput;
  locktime : Z;
}.

(** The parser object: its buffer and its cursor. *)
Record parser : Type := {
  _data : bytes;
  _pos : Z;
}.

(** A method of the parser: it may raise, and otherwise returns a value and
    the parser with its cursor moved. *)
Definition M (A : Type) : Type := parser -> result (A * parser).

Definition retM {A : Type} (a : A) : M A := fun self => ok (a, self).

Definition bindM {A B : Type} (m : M A) (k : A -> M B) : M B :=
  fun self =>
    match m self with
    | inl e => inl e
    | inr (a, self') => k a self'
    end.

(** A call that only looks at its argument ([struct.unpack]). *)
Definition liftM {A : Type} (r : result A) : M A :=
  fun self =>
    match r with
    | inl e => inl e
    | inr a => ok (a, self)
    end.

Notation "x <~ m ;; k" := (bindM m (fun x => k))
  (at level 61, m at next level, right associativity).

(** [CoinbaseTxParser(hex_str)] *)
Definition __init__ (hex_str : string) : result parser :=
  d <- fromhex hex_str ;; ok {| _data := d; _pos := 0 |}.

(** [_read]: the slice is taken as Python takes it (short, or empty, past
    the end of the buffer) and the cursor moves by [n] whatever was there. *)
Definition _read (n : Z) : M bytes :=
  fun self =>
    let chunk := slice (_data self) (_pos self) (_pos self + n) in
    ok (chunk, {| _data := _data self; _pos := _pos self + n |}).

Definition _u32 : M Z := b <~ _read 4 ;; liftM (unpack_unsigned 4 b).
Definition _i32 : M Z := b <~ _read 4 ;; liftM (unpack_i32 b).
Definition _u64 : M Z := b <~ _read 8 ;; liftM (unpack_unsigned 8 b).

Definition _varint : M Z :=
  fun self =>
    b <- index (_data self) (_pos self) ;;
    let n := byte.unsigned b in
    let self := {| _data := _data self; _pos := _pos self + 1 |} in
    if n <? 0xfd then ok (n, self)
    else if n =? 0xfd then (b <~ _read 2 ;; liftM (unpack_unsigned 2 b)) self
    else if n =? 0xfe then (b <~ _read 4 ;; liftM (unpack_unsigned 4 b)) self
    else (b <~ _read 8 ;; liftM (unpack_unsigned 8 b)) self.

(** Body of the first [for] loop of [parse]. *)
Definition parse_input : M TxInput :=
  h <~ _read 32 ;;
  let prev_hash := hex h in
  prev_index <~ _u32 ;;
  script_len <~ _varint ;;
  script_sig <~ _read script_len ;;
  sequence <~ _u32 ;;
  retM {| prev_hash := prev_hash; prev_index := prev_index;
          scriptSig := script_sig; sequence := sequence |}.

(** Body of the second [for] loop of [parse]. *)
Definition parse_output : M TxOutput :=
  value <~ _u64 ;;
  script_len <~ _varint ;;
  script_pubkey <~ _read script_len ;;
  retM {| value := value; scriptPubKey := script_pubkey |}.

(** [for _ in range(count): acc.append(body())] *)
Fixpoint loop {A : Type} (body : M A) (count : nat) (acc : list A) : M (list A) :=
  match count with
  | O => retM acc
  | S count' => a <~ body ;; loop body count' (acc ++ [a])
  end.

(** [parse], as a method: the record and the parser where it stopped. *)
Definition parse_method : M Tx :=
  version <~ _i32 ;;
  in_count <~ _varint ;;
  inputs <~ loop parse_input (Z.to_nat in_count) [] ;;
  out_count <~ _varint ;;
  outputs <~ loop parse_output (Z.to_nat out_count) [] ;;
  locktime <~ _u32 ;;
  retM {| version := version; inputs := inputs; outputs := outputs;
          locktime := locktime |}.

(** [CoinbaseTxParser(data.hex()).parse()] on a buffer. *)
Definition parse (data : bytes) : result Tx :=
  r <- parse_method {| _data := data; _pos := 0 |} ;; ok (fst r).

(** Cursor of the parser when [parse] returns. *)
Definition consumed (data : bytes) : result Z :=
  r <- parse_method {| _data := data; _pos := 0 |} ;; ok (_pos (snd r)).

End CoinbaseTxParser.

(** ** Re-serialization

    Modelled from the spec: the module has no serializer; the round-trip
    property of the spec needs one.  It writes the fields in the order the
    spec gives for the decoder (32-bit version, varint input count, for each
    input the 32-byte previous transaction id, 32-bit previous index,
    varint-prefixed unlock script and 32-bit sequence, varint output count,
    for each output the 64-bit value and varint-prefixed script, 32-bit
    locktime), little-endian, with the varint of the spec: one byte for
    0..252, then byte 253, 254 or 255 followed by 16, 32 or 64 bits. *)

Module TxSerializer.
Import CoinbaseTxParser.

Definition varint (n : Z) : bytes :=
  if n <? 0xfd then [byte.of_Z n]
  else if n <=? 0xffff then Byte.xfd :: le_split 2 n
  else if n <=? 0xffffffff then Byte.xfe :: le_split 4 n
  else Byte.xff :: le_split 8 n.

Definition serialize_input (i : TxInput) : result bytes :=
  h <- fromhex (prev_hash i) ;;
  ok (h ++ le_split 4 (prev_index i)
        ++ varint (len (scriptSig i)) ++ scriptSig i
        ++ le_split 4 (sequence i)).

Definition serialize_output (o : TxOutput) : bytes :=
  le_split 8 (value o) ++ varint (len (scriptPubKey o)) ++ scriptPubKey o.

Definition serialize (tx : Tx) : result bytes :=
  ins <- mapM serialize_input (inputs tx) ;;
  ok (le_split 4 (version tx)
        ++ varint (len (inputs tx)) ++ List.concat ins
        ++ varint (len (outputs tx)) ++ List.concat (map serialize_output (outputs tx))
        ++ le_split 4 (locktime tx)).

(** A record whose every field fits the width it is written on: what a
    transaction record is, as the data model of the spec types it. *)
Definition fits (bits n : Z) : bool := (0 <=? n) && (n <? 2 ^ bits).

Definition is_txid (s : string) : bool :=
  match fromhex s with
  | inr h => Nat.eqb (List.length h) 32 && String.eqb (hex h) s
  | inl _ => false
  end.

Definition input_in_range (i : TxInput) : bool :=
  is_txid (prev_hash i) && fits 32 (prev_index i)
  && fits 64 (len (scriptSig i)) && fits 32 (sequence i).

Definition output_in_range (o : TxOutput) : bool :=
  fits 64 (value o) && fits 64 (len (scriptPubKey o)).

Definition tx_in_range (tx : Tx) : bool :=
  (- 2 ^ 31 <=? version tx) && (version tx <? 2 ^ 31)
  && fits 64 (len (inputs tx)) && forallb input_in_range (inputs tx)
  && fits 64 (len (outputs tx)) && forallb output_in_range (outputs tx)
  && fits 32 (locktime tx).

End TxSerializer.

(** ** Coinbase field decoders

    Decoded text is a list of code points.  The UTF-8 and Latin-1 codecs
    are written out.  [str.isprintable] and the whitespace test of
    [str.strip] are written out on ASCII and read from the interpreter's
    Unicode tables, two parameters, above it. *)

Module Coinbase.

Definition text : Type := list Z.

Definition is_cont (y : Z) : bool := (0x80 <=? y) && (y <=? 0xBF).

(** [raw.decode('utf-8')]: the strict codec (no overlong form, no
    surrogate, nothing above U+10FFFF). *)
Fixpoint decode_utf8 (b : bytes) : result text :=
  match b with
  | [] => ok []
  | b0 :: r0 =>
      let x := byte.unsigned b0 in
      if x <? 0x80 then t <- decode_utf8 r0 ;; ok (x :: t)
      else
        match r0 with
        | [] => raise UnicodeDecodeError
        | b1 :: r1 =>
            let y := byte.unsigned b1 in
            if (0xC2 <=? x) && (x <=? 0xDF) then
              if is_cont y then
                t <- decode_utf8 r1 ;; ok ((x - 0xC0) * 64 + (y - 0x80) :: t)
              else raise UnicodeDecodeError
            else
              match r1 with
              | [] => raise UnicodeDecodeError
              | b2 :: r2 =>
                  let z := byte.unsigned b2 in
                  if (0xE0 <=? x) && (x <=? 0xEF) then
                    if is_cont y && is_cont z
                       && (negb (x =? 0xE0) || (0xA0 <=? y))
                       && (negb (x =? 0xED) || (y <=? 0x9F))
                    then
                      t <- decode_utf8 r2 ;;
                      ok ((x - 0xE0) * 4096 + (y - 0x80) * 64 + (z - 0x80) :: t)
                    else raise UnicodeDecodeError
                  else
                    match r2 with
                    | [] => raise UnicodeDecodeError
                    | b3 :: r3 =>
                        let w := byte.unsigned b3 in
                        if (0xF0 <=? x) && (x <=? 0xF4)
                           && is_cont y && is_cont z && is_cont w
                           && (negb (x =? 0xF0) || (0x90 <=? y))
                           && (negb (x =? 0xF4) || (y <=? 0x8F))
                        then
                          t <- decode_utf8 r3 ;;
                          ok ((x - 0xF0) * 262144 + (y - 0x80) * 4096
                              + (z - 0x80) * 64 + (w - 0x80) :: t)
                        else raise UnicodeDecodeError
                    end
              end
        end
  end.

(** [raw.decode('latin-1')] *)
Definition decode_latin1 (b : bytes) : text := map byte.unsigned b.

(** [parse_block_height] *)
Definition parse_block_height (script_sig : bytes) : result (option Z) :=
  if len script_sig <? 2 then ok None
  else
    b <- index script_sig 0 ;;
    let h_len := byte.unsigned b in
    if (1 <=? h_len) && (h_len <=? 8) && (len script_sig >? h_len) then
      ok (Some (int_from_bytes_little (slice script_sig 1 (1 + h_len))))
    else ok None.

Section WithUnicodeTables.
Variable ucd_printable : Z -> bool.
Variable ucd_space : Z -> bool.

(** [c.isprintable()] *)
Definition isprintable (c : Z) : bool :=
  if c <? 128 then (32 <=? c) && (c <=? 126) else ucd_printable c.

(** [c.isspace()], the test [str.strip()] uses. *)
Definition isspace (c : Z) : bool :=
  if c <? 128 then ((9 <=? c) && (c <=? 13)) || ((28 <=? c) && (c <=? 32))
  else ucd_space c.

Fixpoint lstrip (t : text) : text :=
  match t with
  | [] => []
  | c :: t' => if isspace c then lstrip t' else t
  end.

(** [t.strip()] *)
Definition strip (t : text) : text := rev (lstrip (rev (lstrip t))).

(** [''.join(c for c in text if c.isprintable() or c == ' ').strip()] *)
Definition clean (t : text) : text :=
  strip (filter (fun c => isprintable c || (c =? 32)) t).

(** [parse_coinbase_tag] *)
Definition parse_coinbase_tag (script_sig : bytes) : result (text * bytes) :=
  if len script_sig <? 2 then ok ([], [])
  else
    b <- index script_sig 0 ;;
    let h_len := byte.unsigned b in
    let raw := slice_from script_sig (1 + h_len) in
    match raw with
    | [] => ok ([], [])
    | _ =>
        t <- try_except (decode_utf8 raw) UnicodeDecodeError (ok (decode_latin1 raw)) ;;
        ok (clean t, raw)
    end.

End WithUnicodeTables.
End Coinbase.

(** ** Stratum helpers, the difficulty codec and the session's polling loop *)

Module Stratum.

(** [stratum_prevhash_to_blockchain] *)
Definition stratum_prevhash_to_blockchain (prevhash_hex : string) : string :=
  if negb (str_len prevhash_hex =? 64) then prevhash_hex
  else
    let internal :=
      join (map (fun i =>
                   join (map (fun j => str_slice prevhash_hex (i + j) (i + j + 2))
                             (range3 6 (-1) (-2))))
                (range3 0 64 8)) in
    join (map (fun j => str_slice internal j (j + 2)) (range3 62 (-1) (-2))).

Definition _DIFF1_TARGET : Z :=
  0x00000000FFFF0000000000000000000000000000000000000000000000000000.

(** What [nbits_to_difficulty] returns: [('N/A', 0.0)], or the formatted
    quotient [_DIFF1_TARGET / target], a float, kept as the target it is
    computed from. *)
Inductive difficulty : Type :=
| NotApplicable
| Quotient (target : Z).

(** [nbits_to_difficulty] *)
Definition nbits_to_difficulty (nbits_hex : string) : result difficulty :=
  nbits <- int16 nbits_hex ;;
  let exp := Z.shiftr nbits 24 in
  let coeff := Z.land nbits 0x007fffff in
  let coeff := if Z.land nbits 0x00800000 =? 0 then coeff else - coeff in
  p <- lshift 1 (8 * (exp - 3)) ;;
  let target := coeff * p in
  if target <=? 0 then ok NotApplicable else ok (Quotient target).

(** *** [query_pool]: assembling the coinbase *)

(** [cb1 + extranonce1 + ('00' * extranonce2_size) + cb2] *)
Definition coinbase_hex (cb1 extranonce1 : string) (extranonce2_size : Z)
  (cb2 : string) : string :=
  (cb1 ++ extranonce1 ++ str_repeat "00" extranonce2_size ++ cb2)%string.

(** [CoinbaseTxParser(coinbase_hex).parse()] *)
Definition decode_coinbase (cb1 extranonce1 : string) (extranonce2_size : Z)
  (cb2 : string) : result CoinbaseTxParser.Tx :=
  p <- CoinbaseTxParser.__init__ (coinbase_hex cb1 extranonce1 extranonce2_size cb2) ;;
  r <- CoinbaseTxParser.parse_method p ;;
  ok (fst r).

(** *** [query_pool]: waiting for [mining.notify] *)

(** JSON values as the loop meets them. *)
Inductive json : Type :=
| JNull
| JBool (b : bool)
| JInt (n : Z)
| JStr (s : string)
| JList (l : list json).

(** A received message: a JSON object, seen through the keys the loop
    reads with [r.get]; [None] is an absent key. *)
Record frame : Type := {
  get_method : option json;
  get_id : option json;
  get_result : option json;
  get_error : option json;
  get_params : option json;
}.

Definition is_str (j : json) (s : string) : bool :=
  match j with
  | JStr t => String.eqb t s
  | _ => false
  end.

(** [r.get(key) == n] *)
Definition is_int (j : option json) (n : Z) : bool :=
  match j with
  | Some (JInt k) => k =? n
  | _ => false
  end.

(** [r.get(key) is True] *)
Definition is_True (j : option json) : bool :=
  match j with
  | Some (JBool true) => true
  | _ => false
  end.

(** [x[0]] on a JSON value. *)
Definition first_item (x : json) : result json :=
  match x with
  | JList l => index l 0
  | JStr s => c <- str_index s 0 ;; ok (JStr (String c EmptyString))
  | _ => raise TypeError
  end.

(** The loop's variables. *)
Record poll_state : Type := {
  notify : option frame;
  pool_diff : json;
  auth_rejected : bool;
}.

Definition poll_init : poll_state :=
  {| notify := None; pool_diff := JNull; auth_rejected := false |}.

(** Body of [for r in responses]. *)
Definition handle (st : poll_state) (r : frame) : result poll_state :=
  let m := match get_method r with Some j => j | None => JStr EmptyString end in
  if is_str m "mining.notify" then
    ok {| notify := Some r; pool_diff := pool_diff st;
          auth_rejected := auth_rejected st |}
  else if is_str m "mining.set_difficulty" then
    d <- first_item (match get_params r with Some p => p | None => JList [JNull] end) ;;
    ok {| notify := notify st; pool_diff := d; auth_rejected := auth_rejected st |}
  else if is_int (get_id r) 2 then
    if is_True (get_result r) then ok st
    else ok {| notify := notify st; pool_diff := pool_diff st;
               auth_rejected := true |}
  else ok st.

Fixpoint handle_all (st : poll_state) (responses : list frame) : result poll_state :=
  match responses with
  | [] => ok st
  | r :: responses' => st' <- handle st r ;; handle_all st' responses'
  end.

Definition is_some {A : Type} (o : option A) : bool :=
  match o with Some _ => true | None => false end.

(** [for attempt in range(attempts)]: [script] lists what the successive
    calls of [_stratum_recv] return, nothing once it is exhausted. *)
Fixpoint poll (attempts : nat) (script : list (list frame)) (st : poll_state)
  : result poll_state :=
  match attempts with
  | O => ok st
  | S attempts' =>
      let responses := hd [] script in
      st' <- handle_all st responses ;;
      if is_some (notify st') || auth_rejected st' then ok st'
      else poll attempts' (tl script) st'
  end.

(** How the session leaves the waiting phase. *)
Inductive session : Type :=
| Failed_rejected
| Failed_timeout
| JobReceived (job : frame) (diff : json).

Definition after_poll (st : poll_state) : session :=
  if auth_rejected st && negb (is_some (notify st)) then Failed_rejected
  else match notify st with
       | None => Failed_timeout
       | Some n => JobReceived n (pool_diff st)
       end.

Definition await_notify (script : list (list frame)) : result session :=
  st <- poll 15 script poll_init ;; ok (after_poll st).

End Stratum.

(** ** The CashAddr checksum, as the specification words it

    These definitions follow the specification's sentences, not the code;
    Part II proves that the code computes them. *)

Module CashAddrSpec.

(** The five fixed 40-bit generator constants. *)
Definition generators : list Z :=
  [0x98f2bc8e61; 0x79b76d99e2; 0xf33e5fb3c4; 0xae2eabe2a8; 0x1e4f43e470].

(** Fold in the generators selected by bits [i], [i+1], ... of [top]. *)
Fixpoint fold_generators (top i : Z) (gens : list Z) (c : Z) : Z :=
  match gens with
  | [] => c
  | g :: gens' =>
      fold_generators top (i + 1) gens' (if Z.testbit top i then Z.lxor c g else c)
  end.

(** One step of the linear-feedback computation on a 40-bit state: the top
    5 bits leave the state and select generators, the low 35 bits move up
    by 5 and take the new digit. *)
Definition lfsr_step (state d : Z) : Z :=
  let top := state / 2 ^ 35 in
  let low := state mod 2 ^ 35 in
  fold_generators top 0 generators (Z.lxor (low * 2 ^ 5) d).

Definition checksum_polymod (values : list Z) : Z :=
  Z.lxor (fold_left lfsr_step values 1) 1.

(** The [i]-th 5-bit window of a 40-bit value, window 0 the most significant. *)
Definition window (r i : Z) : Z := (r / 2 ^ (5 * (7 - i))) mod 2 ^ 5.

Definition checksum_digits (r : Z) : list Z :=
  map (window r) [0; 1; 2; 3; 4; 5; 6; 7].

(** Value of a digit string in base 32, most significant digit first. *)
Definition base32_value (digits : list Z) : Z :=
  fold_left (fun acc d => acc * 32 + d) digits 0.

(** [prefix], [':'], the payload digits, then the checksum digits, each
    digit through the 32-character alphabet. *)
Definition checksummed_address (prefix : string) (payload : list Z)
  : result string :=
  let r := checksum_polymod
             (CashAddr._cashaddr_hrp_expand prefix ++ payload ++ repeat 0 8) in
  chars <- mapM (str_index CashAddr._CASHADDR_CHARSET)
                (payload ++ checksum_digits r) ;;
  ok (prefix ++ ":" ++ string_of_list_ascii chars)%string.

Definition five_bit (d : Z) : Prop := 0 <= d < 32.

End CashAddrSpec.

(** ** The script classifier, as the specification words it

    The rules in priority order; the first rule that matches gives the
    type. *)

Module ClassifierSpec.

Definition starts_with (p s : bytes) : bool :=
  Script.bytes_eqb (firstn (List.length p) s) p.

Definition byte_at (s : bytes) (i : nat) (v : Z) : bool :=
  match nth_error s i with
  | Some b => byte.unsigned b =? v
  | None => false
  end.

Definition ends_with (p s : bytes) : bool :=
  Script.bytes_eqb (skipn (List.length s - List.length p) s) p.

Definition has_length (s : bytes) (n : nat) : bool := Nat.eqb (List.length s) n.

Definition rules : list (string * (bytes -> bool)) :=
  [ ("EMPTY"%string, fun s => has_length s 0);
    ("P2PKH"%string, fun s => has_length s 25
                        && starts_with [Byte.x76; Byte.xa9; Byte.x14] s
                        && ends_with [Byte.x88; Byte.xac] s);
    ("P2SH"%string, fun s => has_length s 23
                        && starts_with [Byte.xa9; Byte.x14] s
                        && byte_at s 22 0x87);
    ("OP_RETURN"%string, fun s => byte_at s 0 0x6a);
    ("P2PK"%string, fun s => (has_length s 35 || has_length s 67)
                        && byte_at s (List.length s - 1) 0xac
                        && byte_at s 0 (len s - 2)) ].

Fixpoint first_match (rs : list (string * (bytes -> bool))) (s : bytes) : string :=
  match rs with
  | [] => "UNKNOWN"%string
  | (name, matches) :: rs' => if matches s then name else first_match rs' s
  end.

Definition classify (s : bytes) : string := first_match rules s.

End ClassifierSpec.

(** ** Byte order of the previous-block hash, in words *)

Module PrevHashSpec.

(** The eight 8-character groups of a 64-character string. *)
Definition words (s : string) : list string :=
  map (fun i => substring (8 * i) 8 s) (seq 0 8).

(** The groups in reverse order, each group as it was. *)
Definition reverse_words (s : string) : string := join (rev (words s)).

(** The two-character octets of a string. *)
Definition octets (s : string) : list string :=
  map (fun i => substring (2 * i) 2 s) (seq 0 (String.length s / 2)).

(** Every octet in reverse order: the fully byte-reversed hex string. *)
Definition reverse_octets (s : string) : string := join (rev (octets s)).

End PrevHashSpec.

(** ** The waiting phase, by receive batch *)

Module SessionSpec.
Import Stratum.

Definition method_of (r : frame) : json :=
  match get_method r with Some j => j | None => JStr EmptyString end.

(** A job notification. *)
Definition is_notify (r : frame) : bool := is_str (method_of r) "mining.notify".

(** An authorize response that is not a success. *)
Definition is_rejection (r : frame) : bool :=
  negb (is_str (method_of r) "mining.notify")
  && negb (is_str (method_of r) "mining.set_difficulty")
  && is_int (get_id r) 2 && negb (is_True (get_result r)).

(** The last job notification of a batch. *)
Definition last_notify (batch : list frame) : option frame :=
  List.find is_notify (rev batch).

(** A batch that ends the wait. *)
Definition decisive (batch : list frame) : bool :=
  existsb is_notify batch || existsb is_rejection batch.

(** The first decisive batch among the first [attempts] of [script]. *)
Fixpoint first_decisive (attempts : nat) (script : list (list frame))
  : option (list frame) :=
  match attempts with
  | O => None
  | S attempts' =>
      if decisive (hd [] script) then Some (hd [] script)
      else first_decisive attempts' (tl script)
  end.

End SessionSpec.

(** ** The tag's text, as the specification words it *)

Module CoinbaseSpec.

(** UTF-8 when the bytes are UTF-8, one character per byte otherwise. *)
Definition decoded (raw : bytes) : Coinbase.text :=
  match Coinbase.decode_utf8 raw with
  | inr t => t
  | inl _ => Coinbase.decode_latin1 raw
  end.

End CoinbaseSpec.

(** ** Properties of parser methods used in Part II *)

Module ParserInvariants.
Import CoinbaseTxParser.

Definition at_ (d : bytes) (p : Z) : parser := {| _data := d; _pos := p |}.

(** A method is well behaved when, started at a non-negative cursor, it
    leaves the buffer alone, never moves the cursor back, and, having
    stopped inside the buffer, returns the same on any longer buffer. *)
Definition well_behaved {A : Type} (m : M A) : Prop :=
  forall d p a self',
    0 <= p -> m (at_ d p) = inr (a, self') ->
    _data self' = d
    /\ p <= _pos self'
    /\ (_pos self' <= len d ->
        forall e, m (at_ (d ++ e) p) = inr (a, at_ (d ++ e) (_pos self'))).

(** A method that cannot return with the cursor past the end. *)
Definition bounded {A : Type} (m : M A) : Prop :=
  forall d p a self',
    0 <= p -> m (at_ d p) = inr (a, self') -> _pos self' <= len d.

(** A method that raises nothing but [struct.error] and [IndexError]. *)
Definition truncation_errors {A : Type} (m : M A) : Prop :=
  forall self e, m self = inl e -> e = StructError \/ e = IndexError.

(** A method that, with its cursor on the encoding [enc], returns [a] and
    leaves the cursor just after it. *)
Definition reads {A : Type} (m : M A) (enc : bytes) (a : A) : Prop :=
  forall pre post,
    m (at_ (pre ++ enc ++ post) (len pre))
    = inr (a, at_ (pre ++ enc ++ post) (len pre + len enc)).

End ParserInvariants.

(** ** Fixtures

    Concrete inputs the examples of Part II run the code on. *)

Definition height_fixture : bytes := [Byte.x03; Byte.x22; Byte.x0c; Byte.x0a].

Definition hash160_fixture : bytes :=
  [Byte.x76; Byte.xa0; Byte.x40; Byte.x53; Byte.xbd; Byte.xa0; Byte.xa8;
   Byte.x8b; Byte.xda; Byte.x51; Byte.x77; Byte.xb8; Byte.x6a; Byte.x15;
   Byte.xc3; Byte.xb2; Byte.x9f; Byte.x55; Byte.x98; Byte.x73].

Definition wire_fixture : string :=
  "000102030405060708090a0b0c0d0e0f101112131415161718191a1b1c1d1e1f".

Definition reject_frame : Stratum.frame :=
  {| Stratum.get_method := None;
     Stratum.get_id := Some (Stratum.JInt 2);
     Stratum.get_result := Some (Stratum.JBool false);
     Stratum.get_error := Some (Stratum.JStr "unauthorized worker");
     Stratum.get_params := None |}.

Definition notify_frame : Stratum.frame :=
  {| Stratum.get_method := Some (Stratum.JStr "mining.notify");
     Stratum.get_id := Some Stratum.JNull;
     Stratum.get_result := None;
     Stratum.get_error := None;
     Stratum.get_params := Some (Stratum.JList [Stratum.JStr "job1"]) |}.

Definition tx_fixture : CoinbaseTxParser.Tx :=
  {| CoinbaseTxParser.version := 1;
     CoinbaseTxParser.inputs :=
       [ {| CoinbaseTxParser.prev_hash :=
              "0000000000000000000000000000000000000000000000000000000000000000";
            CoinbaseTxParser.prev_index := 0xffffffff;
            CoinbaseTxParser.scriptSig := height_fixture ++ repeat Byte.x2f 249;
            CoinbaseTxParser.sequence := 0xffffffff |} ];
     CoinbaseTxParser.outputs :=
       [ {| CoinbaseTxParser.value := 312500000;
            CoinbaseTxParser.scriptPubKey :=
              [Byte.x76; Byte.xa9; Byte.x14] ++ hash160_fixture ++ [Byte.x88; Byte.xac] |};
         {| CoinbaseTxParser.value := 0;
            CoinbaseTxParser.scriptPubKey := Byte.x6a :: repeat Byte.x00 251 |};
         {| CoinbaseTxParser.value := 0; CoinbaseTxParser.scriptPubKey := [] |} ];
     CoinbaseTxParser.locktime := 0 |}.


(** An empty transaction written with an over-long input count
    ([fd 00 00]) and followed by two stray bytes. *)
Definition loose_tx_bytes : bytes :=
  [Byte.x01; Byte.x00; Byte.x00; Byte.x00;
   Byte.xfd; Byte.x00; Byte.x00;
   Byte.x00;
   Byte.x00; Byte.x00; Byte.x00; Byte.x00;
   Byte.xde; Byte.xad].

Definition empty_tx : CoinbaseTxParser.Tx :=
  {| CoinbaseTxParser.version := 1; CoinbaseTxParser.inputs := [];
     CoinbaseTxParser.outputs := []; CoinbaseTxParser.locktime := 0 |}.

Definition difficulty_frame : Stratum.frame :=
  {| Stratum.get_method := Some (Stratum.JStr "mining.set_difficulty");
     Stratum.get_id := Some Stratum.JNull;
     Stratum.get_result := None;
     Stratum.get_error := None;
     Stratum.get_params := Some (Stratum.JList [Stratum.JInt 512]) |}.

Definition subscribed_frame : Stratum.frame :=
  {| Stratum.get_method := None;
     Stratum.get_id := Some (Stratum.JInt 1);
     Stratum.get_result :=
       Some (Stratum.JList [Stratum.JList []; Stratum.JStr "f000000a"; Stratum.JInt 4]);
     Stratum.get_error := Some Stratum.JNull;
     Stratum.get_params := None |}.

(** A difficulty announcement with an empty parameter list. *)
Definition bad_difficulty_frame : Stratum.frame :=
  {| Stratum.get_method := Some (Stratum.JStr "mining.set_difficulty");
     Stratum.get_id := Some Stratum.JNull;
     Stratum.get_result := None;
     Stratum.get_error := None;
     Stratum.get_params := Some (Stratum.JList []) |}.

(** ** Proof automation *)

(** Case analysis on a hexadecimal digit [0 <= n < 16]. *)
Ltac nibble_cases n :=
  repeat match goal with
         | H : 0 <= n < _ |- _ =>
             destruct (Z.eq_dec n 0) as [-> | ?]; [reflexivity |];
             destruct (Z.eq_dec n 1) as [-> | ?]; [reflexivity |];
             destruct (Z.eq_dec n 2) as [-> | ?]; [reflexivity |];
             destruct (Z.eq_dec n 3) as [-> | ?]; [reflexivity |];
             destruct (Z.eq_dec n 4) as [-> | ?]; [reflexivity |];
             destruct (Z.eq_dec n 5) as [-> | ?]; [reflexivity |];
             destruct (Z.eq_dec n 6) as [-> | ?]; [reflexivity |];
             destruct (Z.eq_dec n 7) as [-> | ?]; [reflexivity |];
             destruct (Z.eq_dec n 8) as [-> | ?]; [reflexivity |];
             destruct (Z.eq_dec n 9) as [-> | ?]; [reflexivity |];
             destruct (Z.eq_dec n 10) as [-> | ?]; [reflexivity |];
             destruct (Z.eq_dec n 11) as [-> | ?]; [reflexivity |];
             destruct (Z.eq_dec n 12) as [-> | ?]; [reflexivity |];
             destruct (Z.eq_dec n 13) as [-> | ?]; [reflexivity |];
             destruct (Z.eq_dec n 14) as [-> | ?]; [reflexivity |];
             destruct (Z.eq_dec n 15) as [-> | ?]; [reflexivity |];
             exfalso; lia
         end.


(** ** Further definitions used by the properties of Part II *)

Module ChecksumAlgebra.

(** A generator, or nothing, by a bit. *)
Definition sel (b : bool) (g : Z) : Z := if b then g else 0.

(** The state of the checksum after the digits [values], before the final
    exclusive or of [_cashaddr_polymod]. *)
Definition run (c : Z) (values : list Z) : Z :=
  fold_left CashAddr.polymod_step values c.

End ChecksumAlgebra.

Module RepackSpec.

(** The number a digit string denotes in base [2^w], most significant
    digit first. *)
Definition value (w : Z) (digits : list Z) : Z :=
  fold_left (fun acc d => acc * 2 ^ w + d) digits 0.

(** The same, continuing from [acc]. *)
Definition value_from (w acc : Z) (digits : list Z) : Z :=
  fold_left (fun acc d => acc * 2 ^ w + d) digits acc.

End RepackSpec.

Module ParserPost.
Import CoinbaseTxParser ParserInvariants.

(** What a method returns satisfies [Q] whenever it stopped inside the
    buffer. *)
Definition returns {A : Type} (m : M A) (Q : A -> Prop) : Prop :=
  forall d p a self',
    0 <= p -> m (at_ d p) = inr (a, self') -> _pos self' <= len d -> Q a.

(** A method that, having stopped inside the buffer, has moved its cursor
    by [size a] at least for the value [a] it returns. *)
Definition costs {A : Type} (m : M A) (size : A -> Z) : Prop :=
  forall d p a self',
    0 <= p -> m (at_ d p) = inr (a, self') -> _pos self' <= len d ->
    p + size a <= _pos self'.

Definition total {A : Type} (size : A -> Z) (l : list A) : Z :=
  fold_right (fun a acc => size a + acc) 0 l.

(** The least number of bytes a record stands for: 4 of version, 1 for
    each count, for each input 32 of hash, 4 of index, 1 of script length,
    the script and 4 of sequence, for each output 8 of value, 1 of script
    length and the script, 4 of locktime. *)
Definition input_size (i : TxInput) : Z := 41 + len (scriptSig i).
Definition output_size (o : TxOutput) : Z := 9 + len (scriptPubKey o).
Definition tx_size (tx : Tx) : Z :=
  10 + total input_size (inputs tx) + total output_size (outputs tx).

End ParserPost.

Module SessionTrace.
Import Stratum SessionSpec.

(** A difficulty announcement. *)
Definition is_set_difficulty (r : frame) : bool :=
  is_str (method_of r) "mining.set_difficulty".

(** [r.get('params', [None])[0]] *)
Definition announced (r : frame) : result json :=
  first_item (match get_params r with Some p => p | None => JList [JNull] end).

(** The messages the loop handles: those of the batches up to the first
    decisive one among the first [attempts], in order. *)
Fixpoint seen (attempts : nat) (script : list (list frame)) : list frame :=
  match attempts with
  | O => []
  | S attempts' =>
      hd [] script
      ++ (if decisive (hd [] script) then [] else seen attempts' (tl script))
  end.

End SessionTrace.

(** ** [_stratum_recv]: newline-delimited messages off a socket

    The socket is the environment: a script lists what the successive
    calls of [sock.recv] do.  [json.loads] is a parameter; it returns a
    value, raises [JSONDecodeError], which the function catches, or raises
    something else (a [UnicodeDecodeError] on bytes that are not UTF-8, a
    [RecursionError]; never an [OSError]), which it does not.  The
    time-outs set on the socket act on the environment alone, and printing
    is left out. *)

Module Recv.

(** What one call of [sock.recv(8192)] does: it returns bytes (none when
    the peer has closed), or raises [socket.timeout], or raises another
    [OSError]. *)
Inductive event : Type :=
| Chunk (data : bytes)
| Timeout
| NetworkError.

Inductive loaded (J : Type) : Type :=
| Parsed (j : J)
| NotJson
| Fails (e : exn).
Arguments Parsed {J} j.
Arguments NotJson {J}.
Arguments Fails {J} e.

Definition is_newline (b : byte) : bool := byte.unsigned b =? 10.

(** [buf.split(b'\n', 1)] when [b'\n' in buf], [None] when it is not. *)
Fixpoint split_newline (buf : bytes) : option (bytes * bytes) :=
  match buf with
  | [] => None
  | b :: r =>
      if is_newline b then Some ([], r)
      else match split_newline r with
           | Some (line, rest) => Some (b :: line, rest)
           | None => None
           end
  end.

(** White space as [bytes.strip] sees it. *)
Definition byte_is_space (b : byte) : bool :=
  let n := byte.unsigned b in ((9 <=? n) && (n <=? 13)) || (n =? 32).

Fixpoint blstrip (l : bytes) : bytes :=
  match l with
  | [] => []
  | b :: l' => if byte_is_space b then blstrip l' else l
  end.

(** [line.strip()] *)
Definition bstrip (l : bytes) : bytes := rev (blstrip (rev (blstrip l))).

Section WithJson.
Context {J : Type}.
Variable loads : bytes -> loaded J.

(** The body of [while b'\n' in buf], after the split. *)
Definition deliver (line : bytes) (results : list J) : result (list J) :=
  match bstrip line with
  | [] => ok results
  | stripped =>
      match loads stripped with
      | Parsed j => ok (results ++ [j])
      | NotJson => ok results
      | Fails e => raise e
      end
  end.

(** [while b'\n' in buf: ...]; [fuel] bounds its iterations. *)
Fixpoint drain (fuel : nat) (buf : bytes) (results : list J)
  : result (bytes * list J) :=
  match split_newline buf with
  | None => ok (buf, results)
  | Some (line, buf') =>
      match fuel with
      | O => raise LoopBudget
      | S fuel' =>
          results' <- deliver line results ;;
          drain fuel' buf' results'
      end
  end.

(** [while True: ...]: one turn per call of [sock.recv]; a script that is
    exhausted is a socket on which nothing more arrives, the call times
    out. *)
Fixpoint recv_loop (script : list event) (buf : bytes) (results : list J)
  : result (list J) :=
  match script with
  | [] => ok results
  | Timeout :: _ => ok results
  | NetworkError :: _ => ok results
  | Chunk [] :: _ => ok results
  | Chunk data :: script' =>
      let buf := buf ++ data in
      st <- drain (List.length buf) buf results ;;
      recv_loop script' (fst st) (snd st)
  end.

Definition _stratum_recv (script : list event) : result (list J) :=
  recv_loop script [] [].

(** The inner loop read one byte at a time, [cur] being the line under
    way: what [drain] computes, without the budget. *)
Fixpoint scan (cur buf : bytes) (results : list J) : result (bytes * list J) :=
  match buf with
  | [] => ok (cur, results)
  | b :: r =>
      if is_newline b then results' <- deliver cur results ;; scan [] r results'
      else scan (cur ++ [b]) r results
  end.

End WithJson.

(** The messages of a list of lines: the parsed value of each line that
    is not blank and is JSON. *)
Definition messages {J : Type} (loads : bytes -> loaded J) (lines : list bytes)
  : list J :=
  flat_map (fun line =>
              match bstrip line with
              | [] => []
              | stripped => match loads stripped with
                            | Parsed j => [j]
                            | _ => []
                            end
              end) lines.

(** The bytes of a list of lines, each followed by a newline. *)
Definition wire (lines : list bytes) : bytes :=
  flat_map (fun line => line ++ [Byte.x0a]) lines.

(** The bytes a script delivers before the loop stops. *)
Fixpoint delivered (script : list event) : bytes :=
  match script with
  | Chunk (b :: data) :: script' => (b :: data) ++ delivered script'
  | _ => []
  end.

End Recv.

(** ** [query_pool]: the subscribe phase

    JSON values are those of [Stratum.json]: null, booleans, integers,
    strings and arrays. *)

Module Subscribe.
Import Stratum.

(** [bool(r.get(key))] *)
Definition truthy (j : option json) : bool :=
  match j with
  | None => false
  | Some JNull => false
  | Some (JBool b) => b
  | Some (JInt n) => negb (n =? 0)
  | Some (JStr s) => negb (String.eqb s EmptyString)
  | Some (JList l) => match l with [] => false | _ => true end
  end.

(** [r.get('id') == 1]: [True] equals 1. *)
Definition is_one (j : option json) : bool :=
  match j with
  | Some (JInt k) => k =? 1
  | Some (JBool b) => b
  | _ => false
  end.

(** [x[i]] on a JSON value. *)
Definition item (x : option json) (i : Z) : result json :=
  match x with
  | Some (JList l) => index l i
  | Some (JStr s) => c <- str_index s i ;; ok (JStr (String c EmptyString))
  | _ => raise TypeError
  end.

(** The two variables of the loop; [JNull] is [None]. *)
Record sub_state : Type := {
  extranonce1 : json;
  extranonce2_size : json;
}.

(** [for r in responses]: [None] when the loop returned [False]. *)
Fixpoint subscribe_loop (responses : list frame) (st : sub_state)
  : result (option sub_state) :=
  match responses with
  | [] => ok (Some st)
  | r :: responses' =>
      if is_one (get_id r) then
        if truthy (get_result r) then
          e1 <- item (get_result r) 1 ;;
          e2 <- item (get_result r) 2 ;;
          subscribe_loop responses' {| extranonce1 := e1; extranonce2_size := e2 |}
        else if truthy (get_error r) then ok None
        else subscribe_loop responses' st
      else subscribe_loop responses' st
  end.

Inductive subscription : Type :=
| SubscribeFailed
| NoValidResponse
| Subscribed (extranonce1 extranonce2_size : json).

Definition subscribe (responses : list frame) : result subscription :=
  r <- subscribe_loop responses {| extranonce1 := JNull; extranonce2_size := JNull |} ;;
  match r with
  | None => ok SubscribeFailed
  | Some st =>
      match extranonce1 st with
      | JNull => ok NoValidResponse
      | e1 => ok (Subscribed e1 (extranonce2_size st))
      end
  end.

(** A response to the subscribe request that carries a result. *)
Definition is_success (r : frame) : bool :=
  is_one (get_id r) && truthy (get_result r).

(** A response to the subscribe request that carries an error and no
    result. *)
Definition is_failure (r : frame) : bool :=
  is_one (get_id r) && negb (truthy (get_result r)) && truthy (get_error r).

End Subscribe.

(** Reading an alphabet backwards: the position of a character. *)
Module Alphabet.

Fixpoint position (c : ascii) (s : string) : Z :=
  match s with
  | EmptyString => 0
  | String x s' => if Ascii.eqb c x then 0 else 1 + position c s'
  end.

(** The number a string denotes in base 58, most significant character
    first, continuing from [acc]. *)
Fixpoint value58 (acc : Z) (s : string) : Z :=
  match s with
  | EmptyString => acc
  | String c s' => value58 (acc * 58 + position c Legacy._BASE58_ALPHABET) s'
  end.

(** [k] times the character [1]. *)
Fixpoint ones (k : nat) : string :=
  match k with
  | O => EmptyString
  | S k' => String "1" (ones k')
  end.

(** The leading zero bytes of a byte string. *)
Fixpoint leading_zeros (data : bytes) : nat :=
  match data with
  | [] => O
  | b :: data' => if byte.unsigned b =? 0 then S (leading_zeros data') else O
  end.

End Alphabet.

(* ================================================================== *)
(** * Part II.  Proofs                                                 *)
(* ================================================================== *)

(** ** Facts about the runtime fragment *)

Section PyFacts.

Lemma bind_ok {A B : Type} (m : result A) (k : A -> result B) (b : B) :
  Py.bind m k = inr b -> exists a, m = inr a /\ k a = inr b.
Proof.
  destruct m as [e | a]; simpl; intros H; [discriminate | eauto].
Qed.

Lemma len_nonneg {A : Type} (l : list A) : 0 <= len l.
Proof. unfold len. lia. Qed.

Lemma len_app {A : Type} (l1 l2 : list A) : len (l1 ++ l2) = len l1 + len l2.
Proof. unfold len. rewrite length_app. lia. Qed.

Lemma len_cons {A : Type} (a : A) (l : list A) : len (a :: l) = 1 + len l.
Proof. unfold len. simpl List.length. lia. Qed.

Lemma adjust_in_range (n i : Z) : 0 <= i <= n -> adjust n i = i.
Proof.
  intros H. unfold adjust.
  destruct (Z.ltb_spec i 0); lia.
Qed.

Lemma adjust_past_end (n i : Z) : 0 <= n <= i -> adjust n i = n.
Proof.
  intros H. unfold adjust.
  destruct (Z.ltb_spec i 0); lia.
Qed.

Lemma adjust_bounds (n i : Z) : 0 <= n -> 0 <= adjust n i <= n.
Proof.
  intros H. unfold adjust.
  destruct (Z.ltb_spec i 0); lia.
Qed.

(** Reading [c] out of the middle of a buffer. *)
Lemma slice_middle {A : Type} (pre c post : list A) :
  slice (pre ++ c ++ post) (len pre) (len pre + len c) = c.
Proof.
  unfold slice.
  pose proof (len_nonneg pre). pose proof (len_nonneg c). pose proof (len_nonneg post).
  rewrite !adjust_in_range by (rewrite !len_app; lia).
  replace (len pre + len c - len pre) with (len c) by lia.
  unfold len. rewrite !Nat2Z.id.
  rewrite skipn_app, skipn_all, Nat.sub_diag. simpl.
  rewrite firstn_app, firstn_all, Nat.sub_diag. simpl.
  apply app_nil_r.
Qed.

Lemma length_slice {A : Type} (l : list A) (lo hi : Z) :
  0 <= lo -> lo <= hi ->
  Z.of_nat (List.length (slice l lo hi)) = Z.min hi (len l) - Z.min lo (len l).
Proof.
  intros Hlo Hhi. unfold slice.
  pose proof (len_nonneg l) as Hl.
  unfold adjust.
  destruct (Z.ltb_spec lo 0); [lia|]. destruct (Z.ltb_spec hi 0); [lia|].
  rewrite length_firstn, length_skipn. unfold len in *. lia.
Qed.

(** A slice of full length lies inside the buffer. *)
Lemma slice_full_length {A : Type} (l : list A) (pos n : Z) :
  0 <= pos -> 0 < n -> Z.of_nat (List.length (slice l pos (pos + n))) = n ->
  pos + n <= len l.
Proof.
  intros Hp Hn H. rewrite length_slice in H by lia. lia.
Qed.

Lemma slice_app_inside {A : Type} (l e : list A) (lo hi : Z) :
  0 <= lo -> lo <= hi -> hi <= len l -> slice (l ++ e) lo hi = slice l lo hi.
Proof.
  intros Hlo Hhi Hin. unfold slice.
  pose proof (len_nonneg e).
  rewrite !adjust_in_range by (rewrite ?len_app; lia).
  rewrite skipn_app, firstn_app, length_skipn.
  unfold len in *.
  replace (Z.to_nat (hi - lo) - (List.length l - Z.to_nat lo))%nat with 0%nat by lia.
  simpl. apply app_nil_r.
Qed.

Lemma index_app_inside {A : Type} (l e : list A) (i : Z) :
  0 <= i < len l -> index (l ++ e) i = index l i.
Proof.
  intros H. unfold index.
  pose proof (len_nonneg e).
  destruct (Z.ltb_spec i 0); [lia|].
  rewrite len_app.
  destruct (Z.ltb_spec i 0); [lia|].
  destruct (Z.leb_spec (len l + len e) i); [lia|].
  destruct (Z.leb_spec (len l) i); [lia|]. simpl.
  rewrite nth_error_app1 by (unfold len in *; lia). reflexivity.
Qed.

Lemma index_ok_inv {A : Type} (l : list A) (i : Z) (a : A) :
  0 <= i -> index l i = inr a -> i < len l.
Proof.
  intros Hi. unfold index.
  destruct (Z.ltb_spec i 0); [lia|].
  destruct (Z.ltb_spec i 0); [lia|].
  destruct (Z.leb_spec (len l) i); simpl; [discriminate | lia].
Qed.

Lemma index_middle {A : Type} (pre post : list A) (a : A) :
  index (pre ++ a :: post) (len pre) = inr a.
Proof.
  unfold index. pose proof (len_nonneg pre). pose proof (len_nonneg post).
  destruct (Z.ltb_spec (len pre) 0); [lia|].
  rewrite len_app, len_cons.
  destruct (Z.ltb_spec (len pre) 0); [lia|].
  destruct (Z.leb_spec (len pre + (1 + len post)) (len pre)); [lia|]. simpl.
  unfold len. rewrite Nat2Z.id, nth_error_app2, Nat.sub_diag by lia. reflexivity.
Qed.

End PyFacts.

(** ** Hexadecimal strings *)

Section HexFacts.

Lemma hex_value_digit (n : Z) : 0 <= n < 16 -> hex_value (hex_digit n) = Some n.
Proof. intros H. nibble_cases n. Qed.

Lemma hex_digit_not_space (n : Z) : 0 <= n < 16 -> is_space (hex_digit n) = false.
Proof. intros H. nibble_cases n. Qed.

Lemma byte_unsigned_range (x : byte) : 0 <= byte.unsigned x < 256.
Proof. apply byte.unsigned_range. Qed.

Lemma byte_nibbles (x : byte) :
  0 <= Z.shiftr (byte.unsigned x) 4 < 16
  /\ 0 <= Z.land (byte.unsigned x) 15 < 16
  /\ byte.of_Z (16 * Z.shiftr (byte.unsigned x) 4 + Z.land (byte.unsigned x) 15) = x.
Proof.
  pose proof (byte_unsigned_range x) as Hx.
  rewrite Z.shiftr_div_pow2 by lia.
  change 15 with (Z.ones 4). rewrite Z.land_ones by lia.
  change (2 ^ 4) with 16.
  repeat split; try (Z.div_mod_to_equations; lia).
  rewrite <- Z.div_mod by lia. apply byte.of_Z_unsigned.
Qed.

Lemma bind_ok_id {A : Type} (m : result A) : Py.bind m (fun a => ok a) = m.
Proof. destruct m; reflexivity. Qed.

(** Decoding what [hex] wrote, whatever follows. *)
Lemma fromhex_hex_app (b : bytes) (s : string) :
  fromhex (hex b ++ s) = Py.bind (fromhex s) (fun r => ok (b ++ r)).
Proof.
  induction b as [| x b IH].
  - cbn [hex String.append app]. symmetry. apply bind_ok_id.
  - destruct (byte_nibbles x) as (Hhi & Hlo & Hx).
    cbn [hex String.append fromhex].
    rewrite hex_digit_not_space, !hex_value_digit by assumption.
    rewrite IH, Hx. destruct (fromhex s); reflexivity.
Qed.

Lemma append_empty_r (s : string) : (s ++ "")%string = s.
Proof. induction s as [| c s IH]; cbn; [reflexivity | now rewrite IH]. Qed.

Lemma fromhex_hex (b : bytes) : fromhex (hex b) = inr b.
Proof.
  rewrite <- (append_empty_r (hex b)), fromhex_hex_app.
  cbn. now rewrite app_nil_r.
Qed.

Lemma length_hex (b : bytes) : String.length (hex b) = (2 * List.length b)%nat.
Proof. induction b as [| x b IH]; cbn [hex String.length List.length]; lia. Qed.

(** [bytes.fromhex] distributes over concatenation of strings that decode. *)
Lemma fromhex_app_bounded (n : nat) :
  forall a b x, (String.length a <= n)%nat -> fromhex a = inr x ->
    fromhex (a ++ b) = Py.bind (fromhex b) (fun y => ok (x ++ y)).
Proof.
  induction n as [| n IH]; intros a b x Hn Ha.
  - destruct a; [| cbn in Hn; lia]. cbn in Ha. injection Ha as <-.
    cbn [String.append app]. symmetry. apply bind_ok_id.
  - destruct a as [| c a]; [apply (IH EmptyString); [cbn; lia | exact Ha]|].
    cbn [String.length] in Hn. cbn [String.append fromhex] in *.
    destruct (is_space c); [apply IH; [lia | exact Ha]|].
    destruct (hex_value c) as [hi |]; [| discriminate].
    destruct a as [| d a]; [discriminate|].
    cbn [String.length] in Hn. cbn [String.append].
    destruct (hex_value d) as [lo |]; [| discriminate].
    destruct (fromhex a) as [e | r] eqn:Er; [discriminate|].
    cbn [Py.bind] in Ha. injection Ha as <-.
    rewrite (IH a b r) by (lia || exact Er).
    destruct (fromhex b); reflexivity.
Qed.

Lemma fromhex_app (a b : string) (x y : bytes) :
  fromhex a = inr x -> fromhex b = inr y -> fromhex (a ++ b) = inr (x ++ y).
Proof.
  intros Ha Hb.
  rewrite (@fromhex_app_bounded (String.length a) a b x (le_n _) Ha), Hb.
  reflexivity.
Qed.

Lemma fromhex_zeros (n : nat) :
  fromhex (join (repeat "00"%string n)) = inr (repeat Byte.x00 n).
Proof.
  induction n as [| n IH]; [reflexivity|].
  cbn [repeat join fold_right]. fold (join (repeat "00"%string n)).
  cbn [String.append fromhex].
  change (is_space "0") with false. change (hex_value "0") with (Some 0).
  cbv beta iota. rewrite IH. reflexivity.
Qed.

End HexFacts.

(** ** The CashAddr checksum *)

Section CashAddrFacts.
Import CashAddr CashAddrSpec.

(** [if c0 & 2^i:] tests bit [i]. *)
Lemma land_pow2_is_testbit (a i : Z) :
  0 <= i -> (Z.land a (2 ^ i) =? 0) = negb (Z.testbit a i).
Proof.
  intros Hi.
  destruct (Z.testbit a i) eqn:Hb; simpl.
  - apply Z.eqb_neq. intros H0.
    apply (f_equal (fun x => Z.testbit x i)) in H0.
    rewrite Z.land_spec, Hb, Z.pow2_bits_true, Z.bits_0 in H0 by lia.
    discriminate.
  - apply Z.eqb_eq. apply Z.bits_inj'. intros n Hn.
    rewrite Z.land_spec, Z.bits_0, Z.pow2_bits_eqb by lia.
    destruct (Z.eqb_spec i n); subst; rewrite ?Hb; auto using andb_false_r.
Qed.

Lemma land_bit_test (a i k : Z) :
  k = 2 ^ i -> 0 <= i -> (Z.land a k =? 0) = negb (Z.testbit a i).
Proof. intros ->. apply land_pow2_is_testbit. Qed.

(** The code's loop body is the specification's step. *)
Lemma polymod_step_is_lfsr_step (c d : Z) : polymod_step c d = lfsr_step c d.
Proof.
  unfold polymod_step, lfsr_step, generators. cbv zeta.
  rewrite (land_bit_test _ 0 0x01 eq_refl), (land_bit_test _ 1 0x02 eq_refl),
    (land_bit_test _ 2 0x04 eq_refl), (land_bit_test _ 3 0x08 eq_refl),
    (land_bit_test _ 4 0x10 eq_refl) by lia.
  change 0x07ffffffff with (Z.ones 35).
  rewrite Z.land_ones, Z.shiftl_mul_pow2, Z.shiftr_div_pow2 by lia.
  cbn [fold_generators].
  change (0 + 1) with 1. change (1 + 1) with 2. change (2 + 1) with 3.
  change (3 + 1) with 4.
  generalize (Z.testbit (c / 2 ^ 35) 0), (Z.testbit (c / 2 ^ 35) 1),
    (Z.testbit (c / 2 ^ 35) 2), (Z.testbit (c / 2 ^ 35) 3),
    (Z.testbit (c / 2 ^ 35) 4).
  intros [] [] [] [] []; reflexivity.
Qed.

Lemma fold_left_ext_eq {A B : Type} (f g : A -> B -> A) (l : list B) (a : A) :
  (forall x y, f x y = g x y) -> fold_left f l a = fold_left g l a.
Proof.
  intros H. revert a. induction l as [| b l IH]; intros a; simpl; [reflexivity|].
  rewrite H. apply IH.
Qed.

Lemma polymod_is_checksum_polymod (values : list Z) :
  _cashaddr_polymod values = checksum_polymod values.
Proof.
  unfold _cashaddr_polymod, checksum_polymod. f_equal.
  apply fold_left_ext_eq, polymod_step_is_lfsr_step.
Qed.

(** Exclusive or stays within [n] bits. *)
Lemma lxor_fits (n a b : Z) :
  0 <= n -> 0 <= a < 2 ^ n -> 0 <= b < 2 ^ n -> 0 <= Z.lxor a b < 2 ^ n.
Proof.
  intros Hn Ha Hb.
  assert (H0 : 0 <= Z.lxor a b) by (apply Z.lxor_nonneg; lia).
  split; [exact H0|].
  destruct (Z.eq_dec (Z.lxor a b) 0) as [E | E]; [lia|].
  destruct (Z.eq_dec n 0) as [-> | En].
  { change (2 ^ 0) with 1 in *. replace a with 0 in E by lia.
    replace b with 0 in E by lia. contradiction. }
  assert (La : Z.log2 a < n).
  { destruct (Z.eq_dec a 0) as [-> | Ea]; [simpl; lia|]. apply Z.log2_lt_pow2; lia. }
  assert (Lb : Z.log2 b < n).
  { destruct (Z.eq_dec b 0) as [-> | Eb]; [simpl; lia|]. apply Z.log2_lt_pow2; lia. }
  apply Z.log2_lt_pow2; [lia|].
  apply Z.le_lt_trans with (Z.max (Z.log2 a) (Z.log2 b)); [apply Z.log2_lxor; lia | lia].
Qed.

Lemma fold_generators_fits (gens : list Z) (top i c : Z) :
  Forall (fun g => 0 <= g < 2 ^ 40) gens -> 0 <= c < 2 ^ 40 ->
  0 <= fold_generators top i gens c < 2 ^ 40.
Proof.
  intros Hg. revert i c.
  induction Hg as [| g gens Hg0 _ IH]; intros i c Hc; simpl; [exact Hc|].
  apply IH. destruct (Z.testbit top i); [apply lxor_fits; lia | exact Hc].
Qed.

Lemma lfsr_step_fits (c d : Z) : 0 <= d < 2 ^ 40 -> 0 <= lfsr_step c d < 2 ^ 40.
Proof.
  intros Hd. unfold lfsr_step.
  apply fold_generators_fits.
  - unfold generators. repeat constructor; lia.
  - apply lxor_fits; [lia | | exact Hd].
    pose proof (Z.mod_pos_bound c (2 ^ 35) eq_refl). lia.
Qed.

Lemma polymod_fits (values : list Z) :
  Forall five_bit values -> 0 <= _cashaddr_polymod values < 2 ^ 40.
Proof.
  intros Hv. rewrite polymod_is_checksum_polymod. unfold checksum_polymod.
  apply lxor_fits; [lia | | lia].
  assert (G : forall c, 0 <= c < 2 ^ 40 -> 0 <= fold_left lfsr_step values c < 2 ^ 40).
  { induction Hv as [| d l Hd _ IH]; intros c Hc; simpl; [exact Hc|].
    apply IH, lfsr_step_fits. unfold five_bit in Hd. lia. }
  apply G. lia.
Qed.

(** The comprehension that extracts the checksum is the list of windows. *)
Lemma checksum_comprehension (r : Z) :
  map (fun i => Z.land (Z.shiftr r (5 * (7 - i))) 0x1f) (range 8) = checksum_digits r.
Proof.
  unfold checksum_digits.
  change (range 8) with [0; 1; 2; 3; 4; 5; 6; 7].
  apply map_ext_in. intros i Hi. unfold window.
  change 0x1f with (Z.ones 5).
  assert (0 <= i <= 7) by (cbn [In] in Hi; lia).
  rewrite Z.land_ones, Z.shiftr_div_pow2 by lia.
  reflexivity.
Qed.

(** The eight windows are the base-32 digits of a 40-bit value. *)
Lemma checksum_digits_value (r : Z) :
  0 <= r < 2 ^ 40 -> base32_value (checksum_digits r) = r.
Proof.
  intros Hr. unfold base32_value, checksum_digits, window. simpl.
  change (2 ^ 35) with 34359738368. change (2 ^ 30) with 1073741824.
  change (2 ^ 25) with 33554432. change (2 ^ 20) with 1048576.
  change (2 ^ 15) with 32768. change (2 ^ 10) with 1024.
  change (2 ^ 5) with 32. change (2 ^ 0) with 1. change (2 ^ 40) with 1099511627776 in Hr.
  Z.div_mod_to_equations. lia.
Qed.

Lemma checksum_digits_five_bit (r : Z) : Forall five_bit (checksum_digits r).
Proof.
  unfold checksum_digits, window, five_bit. simpl.
  repeat constructor; apply Z.mod_pos_bound; reflexivity.
Qed.

(** *** Re-packing never fails and yields in-range digits *)

Definition digits_fit (w : Z) (l : list Z) : Prop := Forall (fun d => 0 <= d < 2 ^ w) l.

Lemma land_ones_fits (v w : Z) : 0 <= w -> 0 <= Z.land v (Z.ones w) < 2 ^ w.
Proof.
  intros Hw. rewrite Z.land_ones by lia. apply Z.mod_pos_bound.
  apply Z.pow_pos_nonneg; lia.
Qed.

Lemma convert_while_ok (to_bits : Z) (fuel : nat) :
  0 < to_bits ->
  forall acc bits ret,
    0 <= bits -> (Z.to_nat bits <= fuel)%nat -> digits_fit to_bits ret ->
    exists bits' ret',
      convert_while fuel acc bits to_bits (Z.ones to_bits) ret = inr (bits', ret')
      /\ 0 <= bits' < to_bits /\ digits_fit to_bits ret'.
Proof.
  intros Hto. induction fuel as [| fuel IH]; intros acc bits ret Hb Hf Hr.
  - assert (bits = 0) by lia. subst bits. simpl.
    destruct (Z.geb_spec 0 to_bits); [lia|]. exists 0, ret. repeat split; auto; lia.
  - simpl. destruct (Z.geb_spec bits to_bits) as [Hge | Hlt].
    + unfold rshift. destruct (Z.ltb_spec (bits - to_bits) 0); [lia|].
      simpl. apply IH; [lia | lia |].
      apply Forall_app. split; [exact Hr|].
      constructor; [apply land_ones_fits; lia | constructor].
    + exists bits, ret. repeat split; auto; lia.
Qed.

Lemma convert_for_ok (from_bits to_bits : Z) (data : list Z) :
  0 <= from_bits -> 0 < to_bits ->
  forall acc bits ret,
    0 <= bits < to_bits -> digits_fit to_bits ret ->
    exists acc' bits' ret',
      convert_for data from_bits to_bits (Z.ones to_bits) acc bits ret
      = inr (acc', bits', ret')
      /\ 0 <= bits' < to_bits /\ digits_fit to_bits ret'.
Proof.
  intros Hfrom Hto. induction data as [| v data IH]; intros acc bits ret Hb Hr.
  - simpl. exists acc, bits, ret. auto.
  - simpl. unfold lshift. destruct (Z.ltb_spec from_bits 0); [lia|]. simpl.
    destruct (@convert_while_ok to_bits (Z.to_nat (bits + from_bits)) Hto
                (Z.lor (Z.shiftl acc from_bits) v) (bits + from_bits) ret)
      as (bits' & ret' & E & Hb' & Hr'); [lia | lia | exact Hr |].
    rewrite E. simpl. apply IH; assumption.
Qed.

Lemma convert_bits_ok (from_bits to_bits : Z) (data : list Z) :
  0 <= from_bits -> 0 < to_bits ->
  exists payload,
    _convert_bits data from_bits to_bits true = inr payload
    /\ digits_fit to_bits payload.
Proof.
  intros Hfrom Hto. unfold _convert_bits, lshift.
  destruct (Z.ltb_spec to_bits 0); [lia|]. simpl.
  replace (Z.shiftl 1 to_bits - 1) with (Z.ones to_bits)
    by (rewrite Z.ones_equiv, Z.shiftl_1_l; lia).
  destruct (@convert_for_ok from_bits to_bits data Hfrom Hto 0 0 [])
    as (acc & bits & ret & E & Hb & Hr); [lia | constructor |].
  rewrite E. simpl.
  destruct (Z.eqb_spec bits 0); simpl.
  - exists ret. auto.
  - destruct (Z.ltb_spec (to_bits - bits) 0); [lia|]. simpl.
    eexists. split; [reflexivity|].
    apply Forall_app. split; [exact Hr|].
    constructor; [apply land_ones_fits; lia | constructor].
Qed.

(** *** Looking digits up in an alphabet *)

Lemma get_in_range (s : string) (n : nat) :
  (n < String.length s)%nat -> exists c, String.get n s = Some c.
Proof.
  revert n. induction s as [| a s IH]; intros n Hn; simpl in Hn; [lia|].
  destruct n as [| n]; simpl; [eauto | apply IH; lia].
Qed.

Lemma str_index_in_range (s : string) (i : Z) :
  0 <= i < str_len s -> exists c, str_index s i = inr c.
Proof.
  intros Hi. unfold str_index.
  destruct (Z.ltb_spec i 0); [lia|].
  destruct (Z.ltb_spec i 0); [lia|].
  destruct (Z.leb_spec (str_len s) i); [lia|]. simpl.
  destruct (@get_in_range s (Z.to_nat i)) as [c Hc]; [unfold str_len in *; lia|].
  rewrite Hc. eauto.
Qed.

Lemma mapM_ok {A B : Type} (f : A -> result B) (l : list A) :
  Forall (fun a => exists b, f a = inr b) l -> exists r, mapM f l = inr r.
Proof.
  induction 1 as [| a l [b Hb] _ [r Hr]]; simpl; [eauto|].
  rewrite Hb. simpl. rewrite Hr. simpl. eauto.
Qed.

Lemma charset_total (digits : list Z) :
  Forall five_bit digits ->
  exists chars, mapM (str_index _CASHADDR_CHARSET) digits = inr chars.
Proof.
  intros H. apply mapM_ok.
  eapply Forall_impl; [| exact H].
  intros d Hd. apply str_index_in_range. unfold five_bit in Hd.
  change (str_len _CASHADDR_CHARSET) with 32. lia.
Qed.

End CashAddrFacts.

(** ** Legacy addresses and the script classifier *)

Section ScriptFacts.
Import CashAddr CashAddrSpec Legacy Script.

Variable sha256 : bytes -> bytes.
Variable ripemd160 : bytes -> bytes.

Lemma hrp_expand_five_bit (prefix : string) :
  Forall five_bit (_cashaddr_hrp_expand prefix).
Proof.
  unfold _cashaddr_hrp_expand. apply Forall_app. split.
  - apply Forall_map, Forall_forall. intros c _. unfold five_bit.
    change 0x1f with (Z.ones 5). apply (@land_ones_fits (ord c) 5). lia.
  - repeat constructor; unfold five_bit; lia.
Qed.

Lemma repeat_zero_five_bit (n : nat) : Forall five_bit (repeat 0 n).
Proof. induction n; simpl; constructor; auto. unfold five_bit. lia. Qed.

(** [hash160_to_cashaddr] never raises, and computes the specification's
    address of the re-packed payload. *)
Lemma hash160_to_cashaddr_spec (hash160 : bytes) (script_type : string) :
  exists payload address,
    _convert_bits ((if String.eqb script_type "P2PKH" then 0x00 else 0x08)
                     :: map byte.unsigned hash160) 8 5 true = inr payload
    /\ Forall five_bit payload
    /\ hash160_to_cashaddr hash160 script_type = inr address
    /\ checksummed_address "bitcoincash" payload = inr address.
Proof.
  destruct (@convert_bits_ok 8 5
              ((if String.eqb script_type "P2PKH" then 0x00 else 0x08)
                 :: map byte.unsigned hash160))
    as (payload & E & Hp); [lia | lia |].
  assert (Hp5 : Forall five_bit payload) by exact Hp.
  unfold hash160_to_cashaddr, checksummed_address.
  rewrite E. cbn [Py.bind].
  rewrite checksum_comprehension, polymod_is_checksum_polymod.
  destruct (@charset_total (payload
              ++ checksum_digits (checksum_polymod
                   (_cashaddr_hrp_expand "bitcoincash" ++ payload ++ repeat 0 8))))
    as [chars Hc].
  { apply Forall_app. split; [exact Hp5 | apply checksum_digits_five_bit]. }
  exists payload. eexists. split; [reflexivity|]. split; [exact Hp5|].
  rewrite Hc. cbn [Py.bind]. split; reflexivity.
Qed.

Lemma base58_while_ok (fuel : nat) :
  forall n result, 0 <= n < 2 ^ Z.of_nat fuel ->
    exists s, base58_while fuel n result = inr s.
Proof.
  induction fuel as [| fuel IH]; intros n result Hn.
  - change (2 ^ Z.of_nat 0) with 1 in Hn. assert (n = 0) by lia. subst. simpl. eauto.
  - simpl base58_while. destruct (Z.gtb_spec n 0) as [Hpos | Hz]; [| eauto].
    destruct (@str_index_in_range _BASE58_ALPHABET (n mod 58)) as [c Hc].
    { change (str_len _BASE58_ALPHABET) with 58. apply Z.mod_pos_bound. lia. }
    rewrite Hc. cbn [Py.bind]. apply IH.
    rewrite Nat2Z.inj_succ, Z.pow_succ_r in Hn by lia.
    split; [apply Z.div_pos; lia|].
    apply Z.div_lt_upper_bound; lia.
Qed.

Lemma base58check_encode_total (payload : bytes) :
  exists s, _base58check_encode sha256 payload = inr s.
Proof.
  unfold _base58check_encode.
  set (data := payload ++ slice_to (sha256 (sha256 payload)) 4).
  set (n := int_from_bytes_big data).
  assert (Hn : 0 <= n) by (unfold n, int_from_bytes_big; apply le_combine_bound).
  destruct (@base58_while_ok (Z.to_nat (Z.log2 n + 1)) n EmptyString) as [s Hs].
  { split; [exact Hn|]. pose proof (Z.log2_nonneg n).
    rewrite Z2Nat.id by lia.
    destruct (Z.eq_dec n 0) as [-> | Hne]; [simpl; lia|].
    apply Z.log2_spec. lia. }
  rewrite Hs. cbn [Py.bind]. eauto.
Qed.

Lemma addresses_total (h160 : bytes) (script_type : string) :
  exists a, addresses sha256 h160 script_type = inr a.
Proof.
  unfold addresses, hash160_to_legacy.
  destruct (hash160_to_cashaddr_spec h160 script_type) as (p & c & _ & _ & Hc & _).
  rewrite Hc. cbn [Py.bind].
  destruct (base58check_encode_total
              ((if String.eqb script_type "P2PKH" then [Byte.x00] else [Byte.x05]) ++ h160))
    as [l Hl].
  rewrite Hl. cbn [Py.bind]. eauto.
Qed.

(** *** Python's indexing and slicing in terms of list functions *)

Lemma slice_to_firstn {A : Type} (l : list A) (k : Z) :
  0 <= k -> slice_to l k = firstn (Z.to_nat k) l.
Proof.
  intros Hk. unfold slice_to, adjust. destruct (Z.ltb_spec k 0); [lia|].
  destruct (Z.le_gt_cases k (len l)).
  - rewrite Z.min_l by lia. reflexivity.
  - rewrite Z.min_r by lia. unfold len in *.
    rewrite Nat2Z.id, firstn_all, firstn_all2 by lia. reflexivity.
Qed.

Lemma slice_from_skipn {A : Type} (l : list A) (k : Z) :
  0 <= k -> slice_from l k = skipn (Z.to_nat k) l.
Proof.
  intros Hk. unfold slice_from, adjust. destruct (Z.ltb_spec k 0); [lia|].
  destruct (Z.le_gt_cases k (len l)).
  - rewrite Z.min_l by lia. reflexivity.
  - rewrite Z.min_r by lia. unfold len in *.
    rewrite Nat2Z.id, skipn_all, skipn_all2 by lia. reflexivity.
Qed.

Lemma index_nth_error {A : Type} (l : list A) (i : Z) :
  0 <= i ->
  index l i = match nth_error l (Z.to_nat i) with
              | Some a => inr a
              | None => inl IndexError
              end.
Proof.
  intros Hi. unfold index. destruct (Z.ltb_spec i 0); [lia|].
  destruct (Z.ltb_spec i 0); [lia|].
  destruct (Z.leb_spec (len l) i) as [Hout | Hin]; simpl.
  - destruct (nth_error l (Z.to_nat i)) eqn:E; [| reflexivity].
    assert (nth_error l (Z.to_nat i) <> None) as Hn by congruence.
    apply nth_error_Some in Hn. unfold len in *. lia.
  - destruct (nth_error l (Z.to_nat i)); reflexivity.
Qed.

Lemma index_last {A : Type} (l : list A) :
  l <> [] ->
  index l (-1) = match nth_error l (List.length l - 1) with
                 | Some a => inr a
                 | None => inl IndexError
                 end.
Proof.
  intros Hne. unfold index.
  assert (0 < len l) by (destruct l; [contradiction | rewrite len_cons; pose proof (len_nonneg l); lia]).
  destruct (Z.ltb_spec (-1) 0); [| lia].
  destruct (Z.ltb_spec (-1 + len l) 0); [lia|].
  destruct (Z.leb_spec (len l) (-1 + len l)); [lia|]. cbn [orb].
  replace (Z.to_nat (-1 + len l)) with (List.length l - 1)%nat by (unfold len in *; lia).
  destruct (nth_error l (List.length l - 1)); reflexivity.
Qed.

Lemma len_eqb_length {A : Type} (l : list A) (n : nat) :
  (len l =? Z.of_nat n) = Nat.eqb (List.length l) n.
Proof.
  unfold len. destruct (Nat.eqb_spec (List.length l) n) as [-> | Hne].
  - apply Z.eqb_refl.
  - apply Z.eqb_neq. lia.
Qed.

Lemma nth_error_ends {A : Type} (l : list A) :
  l <> [] ->
  exists first last,
    nth_error l 0 = Some first /\ nth_error l (List.length l - 1) = Some last.
Proof.
  intros Hne. destruct l as [| a l]; [contradiction|].
  exists a. destruct (nth_error (a :: l) (List.length (a :: l) - 1)) eqn:E; [eauto|].
  apply nth_error_None in E. simpl in E. lia.
Qed.

(** *** The classifier follows the rule list *)


Lemma classifier_first_match (script : bytes) :
  exists a x,
    parse_script_pubkey sha256 ripemd160 script
    = inr (ClassifierSpec.classify script, a, x).
Proof.
  destruct script as [| b0 rest] eqn:Es; [do 2 eexists; reflexivity|].
  assert (Hne : script <> []) by (subst; discriminate).
  assert (Hlen : List.length script <> 0%nat) by (subst; discriminate).
  unfold parse_script_pubkey. cbv beta iota zeta. rewrite <- Es.
  set (s := script) in *.
  unfold ClassifierSpec.classify, ClassifierSpec.rules, ClassifierSpec.first_match.
  unfold ClassifierSpec.starts_with, ClassifierSpec.ends_with, ClassifierSpec.byte_at,
    ClassifierSpec.has_length.
  rewrite !slice_to_firstn, !slice_from_skipn by lia.
  rewrite (index_nth_error s 22), (index_nth_error s 0), (@index_last _ s Hne) by lia.
  rewrite <- (len_eqb_length s 25), <- (len_eqb_length s 23), <- (len_eqb_length s 35),
    <- (len_eqb_length s 67).
  destruct (Nat.eqb_spec (List.length s) 0) as [? | _]; [contradiction|].
  change (Z.to_nat 0) with 0%nat. change (Z.to_nat 1) with 1%nat.
  change (Z.to_nat 2) with 2%nat. change (Z.to_nat 3) with 3%nat.
  change (Z.to_nat 22) with 22%nat. change (Z.to_nat 23) with 23%nat.
  change (Z.of_nat 25) with 25. change (Z.of_nat 23) with 23.
  change (Z.of_nat 35) with 35. change (Z.of_nat 67) with 67.
  cbn [List.length].
  destruct (@nth_error_ends _ s Hne) as (first & last & Hf & Hl). rewrite Hf, Hl.
  cbn [Py.bind].
  (* rule 2: P2PKH *)
  destruct (Z.eqb_spec (len s) 25) as [L25 | L25]; cbn [andb].
  { replace (List.length s - 2)%nat with 23%nat by (unfold len in L25; lia).
    destruct (bytes_eqb (firstn 3 s) [Byte.x76; Byte.xa9; Byte.x14]
              && bytes_eqb (skipn 23 s) [Byte.x88; Byte.xac]).
    - destruct (addresses_total (slice s 3 23) "P2PKH") as [a Ha].
      rewrite Ha. cbn [Py.bind]. do 2 eexists; reflexivity.
    - destruct (Z.eqb_spec (len s) 23); [lia|]. cbn [andb and_then Py.bind].
      destruct (byte.unsigned first =? 106); [do 2 eexists; reflexivity|].
      destruct (Z.eqb_spec (len s) 35); [lia|].
      destruct (Z.eqb_spec (len s) 67); [lia|].
      rewrite andb_false_r. cbn [orb andb]. do 2 eexists; reflexivity. }
  (* rule 3: P2SH *)
  destruct (Z.eqb_spec (len s) 23) as [L23 | L23]; cbn [andb and_then].
  { destruct (nth_error s 22) as [b22 |] eqn:E22.
    2:{ apply nth_error_None in E22. unfold len in L23. lia. }
    destruct (bytes_eqb (firstn 2 s) [Byte.xa9; Byte.x14]); cbn [Py.bind andb].
    - destruct (byte.unsigned b22 =? 135).
      + destruct (addresses_total (slice s 2 22) "P2SH") as [a Ha].
        rewrite Ha. cbn [Py.bind]. do 2 eexists; reflexivity.
      + destruct (byte.unsigned first =? 106); [do 2 eexists; reflexivity|].
        destruct (Z.eqb_spec (len s) 35); [lia|].
        destruct (Z.eqb_spec (len s) 67); [lia|].
        rewrite andb_false_r. cbn [orb andb]. do 2 eexists; reflexivity.
    - destruct (byte.unsigned first =? 106); [do 2 eexists; reflexivity|].
      destruct (Z.eqb_spec (len s) 35); [lia|].
      destruct (Z.eqb_spec (len s) 67); [lia|].
      rewrite andb_false_r. cbn [orb andb]. do 2 eexists; reflexivity. }
  cbn [Py.bind].
  (* rule 4: OP_RETURN *)
  destruct (byte.unsigned first =? 106); [do 2 eexists; reflexivity|].
  (* rule 5: P2PK *)
  rewrite (andb_comm (byte.unsigned last =? 172)).
  destruct ((len s =? 35) || (len s =? 67)); cbn [andb]; [| do 2 eexists; reflexivity].
  destruct (byte.unsigned last =? 172); [| do 2 eexists; reflexivity].
  destruct (byte.unsigned first =? len s - 2); [| do 2 eexists; reflexivity].
  destruct (addresses_total (ripemd160 (sha256 (slice s 1 (-1)))) "P2PKH") as [a Ha].
  rewrite Ha. cbn [Py.bind]. do 2 eexists; reflexivity.
Qed.

End ScriptFacts.

(** ** Stratum helpers *)

Section StratumFacts.
Import Stratum.

Lemma join_repeat_zero_length (n : nat) : List.length (repeat Byte.x00 n) = n.
Proof. apply repeat_length. Qed.

(** [int(s, 16)] on eight hexadecimal digits is a 32-bit value. *)
Lemma int16_digits_bound (s : string) :
  forall acc n, 0 <= acc -> int16_digits acc s = inr n ->
    acc * 16 ^ Z.of_nat (String.length s) <= n
    < (acc + 1) * 16 ^ Z.of_nat (String.length s).
Proof.
  induction s as [| c s IH]; intros acc n Hacc H.
  - cbn in H. injection H as <-. cbn [String.length]. change (16 ^ Z.of_nat 0) with 1. lia.
  - cbn [int16_digits] in H. destruct (hex_value c) as [d |] eqn:Ed; [| discriminate].
    assert (Hd : 0 <= d < 16).
    { unfold hex_value in Ed.
      repeat match type of Ed with
             | (if ?b then _ else _) = _ => destruct b eqn:?
             end; inversion Ed; subst; lia. }
    apply IH in H; [| lia].
    cbn [String.length]. rewrite Nat2Z.inj_succ, Z.pow_succ_r by lia.
    assert (0 < 16 ^ Z.of_nat (String.length s)) by (apply Z.pow_pos_nonneg; lia).
    nia.
Qed.

(** What [nbits_to_difficulty] does on a parsed compact target. *)
Lemma nbits_to_difficulty_cases (nbits_hex : string) (nbits : Z) :
  int16 nbits_hex = inr nbits ->
  nbits_to_difficulty nbits_hex
  = if Z.shiftr nbits 24 <? 3 then inl ValueError
    else
      let c := Z.land nbits 0x007fffff in
      let c := if Z.land nbits 0x00800000 =? 0 then c else - c in
      let target := c * 2 ^ (8 * (Z.shiftr nbits 24 - 3)) in
      inr (if target <=? 0 then NotApplicable else Quotient target).
Proof.
  intros H. unfold nbits_to_difficulty. rewrite H. cbn [Py.bind]. cbv zeta.
  unfold lshift.
  destruct (Z.ltb_spec (Z.shiftr nbits 24) 3) as [Hlow | Hhigh].
  - destruct (Z.ltb_spec (8 * (Z.shiftr nbits 24 - 3)) 0); [reflexivity | lia].
  - destruct (Z.ltb_spec (8 * (Z.shiftr nbits 24 - 3)) 0); [lia|].
    rewrite Z.shiftl_1_l. unfold ok. cbn [Py.bind].
    destruct (_ <=? 0); reflexivity.
Qed.

End StratumFacts.

(** ** The waiting phase of the session *)

Section SessionFacts.
Import Stratum SessionSpec.

(** What one message does to the loop's variables. *)
Lemma handle_effect (st st' : poll_state) (r : frame) :
  handle st r = inr st' ->
  notify st' = (if is_notify r then Some r else notify st)
  /\ auth_rejected st' = auth_rejected st || is_rejection r.
Proof.
  unfold handle, is_notify, is_rejection. fold (method_of r).
  destruct (is_str (method_of r) "mining.notify").
  { intros H. injection H as <-. cbn. now rewrite orb_false_r. }
  destruct (is_str (method_of r) "mining.set_difficulty").
  { intros H. apply bind_ok in H. destruct H as (d & _ & H).
    injection H as <-. cbn. now rewrite orb_false_r. }
  destruct (is_int (get_id r) 2).
  - destruct (is_True (get_result r)); intros H; injection H as <-; cbn.
    + now rewrite orb_false_r.
    + now rewrite orb_true_r.
  - intros H. injection H as <-. cbn. now rewrite orb_false_r.
Qed.

Lemma last_notify_cons (r : frame) (batch : list frame) :
  last_notify (r :: batch)
  = match last_notify batch with
    | Some j => Some j
    | None => if is_notify r then Some r else None
    end.
Proof.
  unfold last_notify. cbn [rev].
  induction (rev batch) as [| x l IH]; cbn [app find]; [reflexivity|].
  destruct (is_notify x); [reflexivity | exact IH].
Qed.

Lemma last_notify_some (batch : list frame) :
  is_some (last_notify batch) = existsb is_notify batch.
Proof.
  induction batch as [| r batch IH]; [reflexivity|].
  rewrite last_notify_cons. cbn [existsb]. rewrite <- IH.
  destruct (last_notify batch); cbn; [now rewrite orb_true_r|].
  destruct (is_notify r); reflexivity.
Qed.

(** What one batch does to the loop's variables. *)
Lemma handle_all_effect (batch : list frame) :
  forall st st', handle_all st batch = inr st' ->
    notify st' = match last_notify batch with
                 | Some j => Some j
                 | None => notify st
                 end
    /\ auth_rejected st' = auth_rejected st || existsb is_rejection batch.
Proof.
  induction batch as [| r batch IH]; intros st st' H.
  - cbn in H. injection H as <-. cbn. now rewrite orb_false_r.
  - cbn [handle_all] in H. apply bind_ok in H. destruct H as (st1 & H1 & H).
    apply handle_effect in H1. destruct H1 as [Hn Ha].
    apply IH in H. destruct H as [Hn' Ha'].
    rewrite last_notify_cons, Hn', Ha', Hn, Ha. cbn [existsb].
    split; [| now rewrite orb_assoc].
    destruct (last_notify batch); [reflexivity|].
    destruct (is_notify r); reflexivity.
Qed.

Lemma first_decisive_is_decisive (attempts : nat) :
  forall script batch,
    first_decisive attempts script = Some batch -> decisive batch = true.
Proof.
  induction attempts as [| n IH]; intros script batch H; [discriminate|].
  cbn [first_decisive] in H.
  destruct (decisive (hd [] script)) eqn:E.
  - injection H as <-. exact E.
  - eapply IH, H.
Qed.

(** The loop stops on the first decisive batch and keeps what that batch
    left in its variables. *)
Lemma poll_by_batch (attempts : nat) :
  forall script st0 st,
    notify st0 = None -> auth_rejected st0 = false ->
    poll attempts script st0 = inr st ->
    match first_decisive attempts script with
    | None => notify st = None /\ auth_rejected st = false
    | Some batch =>
        notify st = last_notify batch
        /\ auth_rejected st = existsb is_rejection batch
    end.
Proof.
  induction attempts as [| n IH]; intros script st0 st Hn0 Ha0 H.
  - cbn in H. injection H as <-. cbn. auto.
  - cbn [poll first_decisive] in *.
    apply bind_ok in H. destruct H as (st1 & H1 & H).
    apply handle_all_effect in H1. destruct H1 as [Hn1 Ha1].
    rewrite Hn0 in Hn1. rewrite Ha0 in Ha1. cbn [orb] in Ha1.
    assert (Hn1' : notify st1 = last_notify (hd [] script))
      by (rewrite Hn1; destruct (last_notify (hd [] script)); reflexivity).
    unfold decisive. rewrite <- last_notify_some, <- Hn1', <- Ha1.
    destruct (is_some (notify st1) || auth_rejected st1) eqn:E.
    + injection H as <-. auto.
    + apply orb_false_iff in E. destruct E as [En Ea].
      apply (IH (tl script) st1 st); [| exact Ea | exact H].
      destruct (notify st1); [discriminate En | reflexivity].
Qed.

End SessionFacts.

(** ** The waiting phase: the messages the loop handles *)

Section SessionSupport.
Import Stratum SessionSpec SessionTrace.

Lemma find_app {A : Type} (f : A -> bool) (a b : list A) :
  find f (a ++ b) = match find f a with Some x => Some x | None => find f b end.
Proof.
  induction a as [| x a IH]; [reflexivity|].
  cbn [app find]. destruct (f x); [reflexivity | exact IH].
Qed.

Lemma handle_all_app (a b : list frame) :
  forall st, handle_all st (a ++ b) = (st' <- handle_all st a ;; handle_all st' b).
Proof.
  induction a as [| r a IH]; intros st; [reflexivity|].
  cbn [app handle_all]. destruct (handle st r) as [e | st1]; [reflexivity|].
  cbn [Py.bind]. apply IH.
Qed.

(** The loop handles the messages of [seen], one after the other. *)
Lemma poll_seen (attempts : nat) :
  forall script st0,
    notify st0 = None -> auth_rejected st0 = false ->
    poll attempts script st0 = handle_all st0 (seen attempts script).
Proof.
  induction attempts as [| n IH]; intros script st0 Hn0 Ha0; [reflexivity|].
  cbn [poll seen]. rewrite handle_all_app.
  destruct (handle_all st0 (hd [] script)) as [e | st1] eqn:H1; [reflexivity|].
  cbn [Py.bind].
  apply handle_all_effect in H1. destruct H1 as [Hn1 Ha1].
  rewrite Hn0 in Hn1. rewrite Ha0 in Ha1. cbn [orb] in Ha1.
  assert (Hn1' : notify st1 = last_notify (hd [] script))
    by (rewrite Hn1; destruct (last_notify (hd [] script)); reflexivity).
  unfold decisive. rewrite <- last_notify_some, <- Hn1', <- Ha1.
  destruct (is_some (notify st1) || auth_rejected st1) eqn:E; [reflexivity|].
  apply orb_false_iff in E. destruct E as [En Ea].
  apply IH; [| exact Ea]. destruct (notify st1); [discriminate En | reflexivity].
Qed.

Lemma notify_is_not_set_difficulty (r : frame) :
  is_notify r = true -> is_set_difficulty r = false.
Proof.
  unfold is_notify, is_set_difficulty. destruct (method_of r); try discriminate.
  cbn [is_str]. intros H. apply String.eqb_eq in H. subst. reflexivity.
Qed.

(** What one message does to the difficulty kept by the loop. *)
Lemma handle_difficulty (st : poll_state) (r : frame) :
  handle st r
  = if is_set_difficulty r
    then d <- announced r ;;
         ok {| notify := notify st; pool_diff := d; auth_rejected := auth_rejected st |}
    else ok {| notify := if is_notify r then Some r else notify st;
               pool_diff := pool_diff st;
               auth_rejected := auth_rejected st || is_rejection r |}.
Proof.
  unfold handle, is_notify, is_rejection, announced.
  fold (method_of r). cbv zeta. fold (is_set_difficulty r).
  destruct (is_str (method_of r) "mining.notify") eqn:En.
  { rewrite (notify_is_not_set_difficulty r En). cbn. now rewrite orb_false_r. }
  destruct (is_set_difficulty r); [reflexivity|]. cbn [negb andb].
  destruct st as [n d a]. cbn.
  destruct (is_int (get_id r) 2); cbn.
  - destruct (is_True (get_result r)); cbn; [now rewrite orb_false_r | now rewrite orb_true_r].
  - now rewrite orb_false_r.
Qed.

Lemma first_item_raises (x : json) (e : exn) :
  first_item x = inl e -> e = IndexError \/ e = TypeError.
Proof.
  destruct x as [| b | n | s | l]; cbn [first_item]; unfold raise;
    try (intros H; injection H as <-; right; reflexivity).
  - unfold str_index.
    destruct ((_ <? 0) || (_ <=? _)); [intros H; injection H as <-; left; reflexivity|].
    destruct (get _ s); cbn; [discriminate | intros H; injection H as <-; left; reflexivity].
  - unfold index.
    destruct ((_ <? 0) || (_ <=? _)); [intros H; injection H as <-; left; reflexivity|].
    destruct (nth_error l _); cbn; [discriminate | intros H; injection H as <-; left; reflexivity].
Qed.

(** The difficulty after a run of messages is the last one announced. *)
Lemma handle_all_difficulty (l : list frame) :
  forall st st', handle_all st l = inr st' ->
    match find is_set_difficulty (rev l) with
    | Some r => announced r = inr (pool_diff st')
    | None => pool_diff st' = pool_diff st
    end.
Proof.
  induction l as [| r l IH]; intros st st' H.
  - cbn in H. injection H as <-. reflexivity.
  - cbn [handle_all] in H. apply bind_ok in H. destruct H as (st1 & H1 & H).
    apply IH in H. cbn [rev]. rewrite find_app.
    destruct (find is_set_difficulty (rev l)); [exact H|].
    cbn [find]. rewrite handle_difficulty in H1.
    destruct (is_set_difficulty r).
    + apply bind_ok in H1. destruct H1 as (d & Hd & H1). injection H1 as <-.
      cbn [pool_diff] in H. rewrite H. exact Hd.
    + injection H1 as <-. exact H.
Qed.

(** A run of messages is handled without error exactly when each
    difficulty announcement in it has a first parameter. *)
Lemma handle_all_ok_iff (l : list frame) :
  forall st,
    (exists st', handle_all st l = inr st')
    <-> Forall (fun r => is_set_difficulty r = true -> exists d, announced r = inr d) l.
Proof.
  induction l as [| r l IH]; intros st.
  - split; [constructor | intros _; eexists; reflexivity].
  - cbn [handle_all]. rewrite handle_difficulty. split.
    + intros (st' & H). apply bind_ok in H. destruct H as (st1 & H1 & H).
      constructor; [| apply (IH st1); eauto].
      intros Hs. rewrite Hs in H1. apply bind_ok in H1.
      destruct H1 as (d & Hd & _). eauto.
    + intros HF. inversion HF as [| ? ? Hr Hl]; subst.
      destruct (is_set_difficulty r).
      * destruct (Hr eq_refl) as (d & Hd). rewrite Hd. cbn [Py.bind].
        apply IH. exact Hl.
      * cbn [Py.bind]. apply IH. exact Hl.
Qed.

Lemma handle_all_raises (l : list frame) :
  forall st e, handle_all st l = inl e -> e = IndexError \/ e = TypeError.
Proof.
  induction l as [| r l IH]; intros st e H; [discriminate|].
  cbn [handle_all] in H. rewrite handle_difficulty in H.
  destruct (is_set_difficulty r).
  - destruct (announced r) as [e' | d] eqn:Hd.
    + cbn in H. injection H as <-. apply (first_item_raises _ _ Hd).
    + cbn [Py.bind] in H. apply (IH _ _ H).
  - cbn [Py.bind] in H. apply (IH _ _ H).
Qed.

(** When a run of messages raises, the exception is that of a difficulty
    announcement in it that has no first parameter. *)
Lemma handle_all_raises_at (l : list frame) :
  forall st e, handle_all st l = inl e ->
    Exists (fun r => is_set_difficulty r = true /\ announced r = inl e) l.
Proof.
  induction l as [| r l IH]; intros st e H; [discriminate|].
  cbn [handle_all] in H. rewrite handle_difficulty in H.
  destruct (is_set_difficulty r) eqn:Es.
  - destruct (announced r) as [e' | d] eqn:Hd.
    + cbn in H. injection H as <-. apply Exists_cons_hd. split; [exact Es | exact Hd].
    + cbn [Py.bind] in H. apply Exists_cons_tl. apply (IH _ _ H).
  - cbn [Py.bind] in H. apply Exists_cons_tl. apply (IH _ _ H).
Qed.

End SessionSupport.

(** ** Coinbase field decoders *)

Section CoinbaseFacts.
Import Coinbase CoinbaseSpec.

Variable ucd_printable : Z -> bool.
Variable ucd_space : Z -> bool.

(** The UTF-8 codec raises nothing but [UnicodeDecodeError]. *)
Lemma decode_utf8_raises_bounded (n : nat) :
  forall b e, (List.length b <= n)%nat -> decode_utf8 b = inl e ->
    e = UnicodeDecodeError.
Proof.
  induction n as [| n IH]; intros b e Hn H.
  - destruct b; [discriminate H | cbn in Hn; lia].
  - destruct b as [| b0 r0]; [discriminate H|].
    cbn [decode_utf8 List.length] in *.
    repeat match type of H with
           | (if ?c then _ else _) = inl _ => destruct c
           | match ?l with [] => _ | _ :: _ => _ end = inl _ =>
               destruct l; cbn [List.length] in Hn
           | Py.bind (decode_utf8 ?r) _ = inl _ =>
               let E := fresh "E" in
               destruct (decode_utf8 r) eqn:E;
               [apply IH in E; [| lia]; cbn [Py.bind] in H | cbn [Py.bind] in H]
           end;
      try discriminate H; try (injection H as <-; first [reflexivity | assumption]).
Qed.

Lemma decode_utf8_raises (b : bytes) (e : exn) :
  decode_utf8 b = inl e -> e = UnicodeDecodeError.
Proof. apply (decode_utf8_raises_bounded (List.length b)). lia. Qed.

(** [try: raw.decode('utf-8')  except UnicodeDecodeError: raw.decode('latin-1')] *)
Lemma decode_with_fallback (raw : bytes) :
  try_except (decode_utf8 raw) UnicodeDecodeError (ok (decode_latin1 raw))
  = inr (decoded raw).
Proof.
  unfold decoded, try_except.
  destruct (decode_utf8 raw) as [e | t] eqn:E; [| reflexivity].
  apply decode_utf8_raises in E. subst e. reflexivity.
Qed.

Lemma index_head {A : Type} (a : A) (l : list A) : index (a :: l) 0 = inr a.
Proof. apply (index_middle [] l a). Qed.

Lemma slice_after_head {A : Type} (a : A) (l : list A) (u : Z) :
  0 <= u <= len l -> slice (a :: l) 1 (1 + u) = firstn (Z.to_nat u) l.
Proof.
  intros Hu. unfold slice. rewrite len_cons.
  rewrite !adjust_in_range by lia.
  replace (1 + u - 1) with u by lia. reflexivity.
Qed.

Lemma slice_from_after_head {A : Type} (a : A) (l : list A) (u : Z) :
  0 <= u -> slice_from (a :: l) (1 + u) = skipn (Z.to_nat u) l.
Proof.
  intros Hu. rewrite slice_from_skipn by lia.
  replace (Z.to_nat (1 + u)) with (S (Z.to_nat u)) by lia. reflexivity.
Qed.

(** [parse_block_height], case by case. *)
Lemma parse_block_height_cases (b : byte) (rest : bytes) :
  parse_block_height (b :: rest)
  = inr (if (1 <=? byte.unsigned b) && (byte.unsigned b <=? 8)
            && (byte.unsigned b <=? len rest)
         then Some (int_from_bytes_little (firstn (Z.to_nat (byte.unsigned b)) rest))
         else None).
Proof.
  pose proof (byte_unsigned_range b) as Hb. pose proof (len_nonneg rest) as Hr.
  unfold parse_block_height. rewrite len_cons, index_head. cbn [Py.bind].
  destruct (Z.ltb_spec (1 + len rest) 2) as [Hshort | Hlong].
  - destruct (Z.leb_spec 1 (byte.unsigned b)); cbn [andb]; [| reflexivity].
    destruct (Z.leb_spec (byte.unsigned b) (len rest)); [lia|].
    rewrite andb_false_r. reflexivity.
  - destruct (Z.leb_spec 1 (byte.unsigned b)); cbn [andb]; [| reflexivity].
    destruct (Z.leb_spec (byte.unsigned b) 8); cbn [andb]; [| reflexivity].
    destruct (Z.gtb_spec (1 + len rest) (byte.unsigned b));
      destruct (Z.leb_spec (byte.unsigned b) (len rest)); try lia; [| reflexivity].
    rewrite slice_after_head by lia. reflexivity.
Qed.

(** [parse_coinbase_tag] on a script of two bytes or more. *)
Lemma parse_coinbase_tag_cases (b b1 : byte) (rest : bytes) :
  let raw := skipn (Z.to_nat (byte.unsigned b)) (b1 :: rest) in
  parse_coinbase_tag ucd_printable ucd_space (b :: b1 :: rest)
  = inr (clean ucd_printable ucd_space (decoded raw), raw).
Proof.
  intros raw. pose proof (byte_unsigned_range b) as Hb.
  pose proof (len_nonneg rest) as Hr.
  unfold parse_coinbase_tag. rewrite !len_cons, index_head. cbn [Py.bind].
  destruct (Z.ltb_spec (1 + (1 + len rest)) 2); [lia|].
  rewrite slice_from_after_head by lia. fold raw.
  destruct raw as [| r0 raw'] eqn:Eraw; [reflexivity|].
  rewrite decode_with_fallback. reflexivity.
Qed.

Lemma filter_all {A : Type} (f : A -> bool) (l : list A) :
  forallb f l = true -> filter f l = l.
Proof.
  induction l as [| a l IH]; cbn; [reflexivity|].
  intros H. apply andb_true_iff in H. destruct H as [Ha Hl].
  rewrite Ha, IH by exact Hl. reflexivity.
Qed.

(** Cleaning leaves a printable text without blanks at its ends alone. *)
Lemma clean_printable (t : text) :
  forallb (isprintable ucd_printable) t = true ->
  strip ucd_space t = t ->
  clean ucd_printable ucd_space t = t.
Proof.
  intros Hp Hs. unfold clean. rewrite filter_all; [exact Hs|].
  rewrite forallb_forall in *. intros c Hc. rewrite (Hp c Hc). reflexivity.
Qed.

End CoinbaseFacts.

(** ** The transaction parser *)

Section ParserFacts.
Import CoinbaseTxParser ParserInvariants.

Lemma bindM_ok {A B : Type} (m : M A) (k : A -> M B) (self : parser) (b : B)
  (self'' : parser) :
  bindM m k self = inr (b, self'') ->
  exists a self', m self = inr (a, self') /\ k a self' = inr (b, self'').
Proof.
  unfold bindM. destruct (m self) as [e | [a self']]; [discriminate | eauto].
Qed.

Lemma parser_eta (self : parser) : self = at_ (_data self) (_pos self).
Proof. destruct self; reflexivity. Qed.

(** *** Well-behaved methods *)

Lemma well_behaved_ret {A : Type} (a : A) : well_behaved (retM a).
Proof.
  intros d p a' self' Hp H. injection H as <- <-. cbn [at_ _data _pos].
  split; [reflexivity|]. split; [lia|]. intros _ e. reflexivity.
Qed.

Lemma well_behaved_lift {A : Type} (r : result A) : well_behaved (liftM r).
Proof.
  intros d p a self' Hp H. unfold liftM in *.
  destruct r as [e | a']; [discriminate|]. injection H as <- <-. cbn [at_ _data _pos].
  split; [reflexivity|]. split; [lia|]. intros _ e. reflexivity.
Qed.

Lemma well_behaved_read (n : Z) : 0 <= n -> well_behaved (_read n).
Proof.
  intros Hn d p a self' Hp H. unfold _read in *. cbn in H. injection H as <- <-.
  cbn [_data _pos at_]. split; [reflexivity|]. split; [lia|].
  intros Hin e. rewrite slice_app_inside by lia. reflexivity.
Qed.

Lemma well_behaved_bind {A B : Type} (Q : A -> Prop) (m : M A) (k : A -> M B) :
  well_behaved m ->
  (forall self a self', m self = inr (a, self') -> Q a) ->
  (forall a, Q a -> well_behaved (k a)) ->
  well_behaved (bindM m k).
Proof.
  intros Hm HQ Hk d p b self'' Hp H.
  apply bindM_ok in H. destruct H as (a & self' & H1 & H2).
  pose proof (HQ _ _ _ H1) as Ha.
  destruct (Hm d p a self' Hp H1) as (Hd & Hle & Hext).
  rewrite (parser_eta self'), Hd in H2.
  destruct (Hk a Ha d (_pos self') b self'' ltac:(lia) H2) as (Hd' & Hle' & Hext').
  split; [exact Hd'|]. split; [lia|].
  intros Hin e. unfold bindM.
  rewrite (Hext ltac:(lia) e). apply Hext'. exact Hin.
Qed.

Lemma well_behaved_bind' {A B : Type} (m : M A) (k : A -> M B) :
  well_behaved m -> (forall a, well_behaved (k a)) -> well_behaved (bindM m k).
Proof.
  intros Hm Hk. apply (well_behaved_bind (fun _ => True)); auto.
Qed.

Lemma well_behaved_fixed (n : Z) (unpack : bytes -> result Z) :
  0 <= n -> well_behaved (b <~ _read n ;; liftM (unpack b)).
Proof.
  intros Hn. apply well_behaved_bind'; [apply well_behaved_read, Hn|].
  intros b. apply well_behaved_lift.
Qed.

Lemma well_behaved_u32 : well_behaved _u32.
Proof. apply well_behaved_fixed. lia. Qed.

Lemma well_behaved_i32 : well_behaved _i32.
Proof. apply well_behaved_fixed. lia. Qed.

Lemma well_behaved_u64 : well_behaved _u64.
Proof. apply well_behaved_fixed. lia. Qed.

Lemma varint_unfold (self : parser) :
  _varint self
  = match index (_data self) (_pos self) with
    | inl e => inl e
    | inr b =>
        let n := byte.unsigned b in
        let self1 := at_ (_data self) (_pos self + 1) in
        if n <? 0xfd then inr (n, self1)
        else if n =? 0xfd then (b <~ _read 2 ;; liftM (unpack_unsigned 2 b)) self1
        else if n =? 0xfe then (b <~ _read 4 ;; liftM (unpack_unsigned 4 b)) self1
        else (b <~ _read 8 ;; liftM (unpack_unsigned 8 b)) self1
    end.
Proof. unfold _varint. destruct (index (_data self) (_pos self)); reflexivity. Qed.

Lemma well_behaved_varint : well_behaved _varint.
Proof.
  intros d p a self' Hp H. rewrite varint_unfold in H. cbn [at_ _data _pos] in H.
  destruct (index d p) as [e | b] eqn:Eb; [discriminate|].
  pose proof (@index_ok_inv _ d p b Hp Eb) as Hin. cbv zeta in H.
  assert (Hidx : forall e, index (d ++ e) p = inr b).
  { intros e. rewrite index_app_inside by lia. exact Eb. }
  assert (Hrest : forall n unpack,
             0 <= n ->
             (b0 <~ _read n ;; liftM (unpack b0)) (at_ d (p + 1)) = inr (a, self') ->
             _data self' = d /\ p <= _pos self'
             /\ (_pos self' <= len d -> forall e,
                    (b0 <~ _read n ;; liftM (unpack b0)) (at_ (d ++ e) (p + 1))
                    = inr (a, at_ (d ++ e) (_pos self')))).
  { intros n unpack Hn Hr.
    destruct (@well_behaved_fixed n unpack Hn d (p + 1) a self' ltac:(lia) Hr)
      as (Hd & Hle & Hext).
    split; [exact Hd|]. split; [lia | exact Hext]. }
  destruct (byte.unsigned b <? 0xfd) eqn:E1.
  { injection H as <- <-. cbn [at_ _data _pos]. split; [reflexivity|]. split; [lia|].
    intros _ e. rewrite varint_unfold. cbn [at_ _data _pos]. rewrite Hidx.
    cbv zeta. rewrite E1. reflexivity. }
  destruct (byte.unsigned b =? 0xfd) eqn:E2.
  { destruct (Hrest 2 (unpack_unsigned 2) ltac:(lia) H) as (Hd & Hle & Hext).
    split; [exact Hd|]. split; [exact Hle|].
    intros Hi e. rewrite varint_unfold. cbn [at_ _data _pos]. rewrite Hidx.
    cbv zeta. rewrite E1, E2. apply Hext, Hi. }
  destruct (byte.unsigned b =? 0xfe) eqn:E3.
  { destruct (Hrest 4 (unpack_unsigned 4) ltac:(lia) H) as (Hd & Hle & Hext).
    split; [exact Hd|]. split; [exact Hle|].
    intros Hi e. rewrite varint_unfold. cbn [at_ _data _pos]. rewrite Hidx.
    cbv zeta. rewrite E1, E2, E3. apply Hext, Hi. }
  destruct (Hrest 8 (unpack_unsigned 8) ltac:(lia) H) as (Hd & Hle & Hext).
  split; [exact Hd|]. split; [exact Hle|].
  intros Hi e. rewrite varint_unfold. cbn [at_ _data _pos]. rewrite Hidx.
  cbv zeta. rewrite E1, E2, E3. apply Hext, Hi.
Qed.

(** A variable-length integer is never negative. *)
Lemma varint_nonneg (self : parser) (n : Z) (self' : parser) :
  _varint self = inr (n, self') -> 0 <= n.
Proof.
  rewrite varint_unfold.
  destruct (index (_data self) (_pos self)) as [e | b]; [discriminate|]. cbv zeta.
  assert (Hfixed : forall k s, (b0 <~ _read k ;; liftM (unpack_unsigned (Z.to_nat k) b0)) s
                               = inr (n, self') -> 0 <= n).
  { intros k s H. apply bindM_ok in H. destruct H as (c & s1 & _ & H).
    unfold liftM, unpack_unsigned in H.
    destruct (Nat.eqb (List.length c) (Z.to_nat k)); [| discriminate].
    injection H as <- _. apply le_combine_bound. }
  pose proof (byte_unsigned_range b).
  destruct (byte.unsigned b <? 0xfd).
  { intros H'. injection H' as <- _. lia. }
  destruct (byte.unsigned b =? 0xfd); [apply (Hfixed 2)|].
  destruct (byte.unsigned b =? 0xfe); [apply (Hfixed 4) | apply (Hfixed 8)].
Qed.

Lemma well_behaved_loop {A : Type} (body : M A) :
  well_behaved body -> forall count acc, well_behaved (loop body count acc).
Proof.
  intros Hb. induction count as [| count IH]; intros acc; cbn [loop].
  - apply well_behaved_ret.
  - apply well_behaved_bind'; [exact Hb|]. intros a. apply IH.
Qed.

Lemma well_behaved_var_read {B : Type} (k : bytes -> M B) :
  (forall s, well_behaved (k s)) ->
  well_behaved (script_len <~ _varint ;; script <~ _read script_len ;; k script).
Proof.
  intros Hk. apply (well_behaved_bind (fun n => 0 <= n)).
  - apply well_behaved_varint.
  - intros self a self'. apply varint_nonneg.
  - intros n Hn. apply well_behaved_bind'; [apply well_behaved_read, Hn | exact Hk].
Qed.

Lemma well_behaved_parse_input : well_behaved parse_input.
Proof.
  unfold parse_input.
  apply well_behaved_bind'; [apply well_behaved_read; lia|]. intros h. cbv zeta.
  apply well_behaved_bind'; [apply well_behaved_u32|]. intros prev_index.
  apply well_behaved_var_read. intros script.
  apply well_behaved_bind'; [apply well_behaved_u32|]. intros sequence.
  apply well_behaved_ret.
Qed.

Lemma well_behaved_parse_output : well_behaved parse_output.
Proof.
  unfold parse_output.
  apply well_behaved_bind'; [apply well_behaved_u64|]. intros value.
  apply well_behaved_var_read. intros script. apply well_behaved_ret.
Qed.

Lemma well_behaved_parse_method : well_behaved parse_method.
Proof.
  unfold parse_method.
  apply well_behaved_bind'; [apply well_behaved_i32|]. intros version.
  apply well_behaved_bind'; [apply well_behaved_varint|]. intros in_count.
  apply well_behaved_bind'; [apply well_behaved_loop, well_behaved_parse_input|].
  intros inputs.
  apply well_behaved_bind'; [apply well_behaved_varint|]. intros out_count.
  apply well_behaved_bind'; [apply well_behaved_loop, well_behaved_parse_output|].
  intros outputs.
  apply well_behaved_bind'; [apply well_behaved_u32|]. intros locktime.
  apply well_behaved_ret.
Qed.

(** *** Methods that cannot return past the end of the buffer *)

Lemma bounded_fixed (n : nat) :
  (0 < n)%nat ->
  bounded (b <~ _read (Z.of_nat n) ;; liftM (unpack_unsigned n b)).
Proof.
  intros Hn d p a self' Hp H.
  apply bindM_ok in H. destruct H as (c & s1 & H1 & H2).
  unfold _read in H1. cbn [at_ _data _pos] in H1. injection H1 as <- <-.
  unfold liftM, unpack_unsigned in H2.
  destruct (Nat.eqb_spec (List.length (slice d p (p + Z.of_nat n))) n) as [El | ?];
    [| discriminate].
  injection H2 as _ <-. cbn [_pos].
  apply slice_full_length; lia.
Qed.

Lemma bounded_u32 : bounded _u32.
Proof. apply (@bounded_fixed 4). lia. Qed.

Lemma bounded_bind_ret {A B : Type} (m : M A) (f : A -> B) :
  bounded m -> bounded (a <~ m ;; retM (f a)).
Proof.
  intros Hm d p b self' Hp H.
  apply bindM_ok in H. destruct H as (a & s1 & H1 & H2).
  injection H2 as _ <-. eapply Hm; eassumption.
Qed.

Lemma bounded_bind {A B : Type} (m : M A) (k : A -> M B) :
  well_behaved m -> (forall a, bounded (k a)) -> bounded (bindM m k).
Proof.
  intros Hm Hk d p b self'' Hp H.
  apply bindM_ok in H. destruct H as (a & s1 & H1 & H2).
  destruct (Hm d p a s1 Hp H1) as (Hd & Hle & _).
  rewrite (parser_eta s1), Hd in H2.
  apply (Hk a d (_pos s1) b self''); [lia | exact H2].
Qed.

Lemma bounded_parse_method : bounded parse_method.
Proof.
  unfold parse_method.
  apply bounded_bind; [apply well_behaved_i32|]. intros version.
  apply bounded_bind; [apply well_behaved_varint|]. intros in_count.
  apply bounded_bind; [apply well_behaved_loop, well_behaved_parse_input|].
  intros inputs.
  apply bounded_bind; [apply well_behaved_varint|]. intros out_count.
  apply bounded_bind; [apply well_behaved_loop, well_behaved_parse_output|].
  intros outputs.
  apply (@bounded_bind_ret _ _ _u32
           (fun locktime => {| version := version; inputs := inputs;
                               outputs := outputs; locktime := locktime |})).
  apply bounded_u32.
Qed.

(** *** The exceptions of the parser *)

Lemma truncation_errors_ret {A : Type} (a : A) : truncation_errors (retM a).
Proof. intros self e H. discriminate H. Qed.

Lemma truncation_errors_bind {A B : Type} (m : M A) (k : A -> M B) :
  truncation_errors m -> (forall a, truncation_errors (k a)) ->
  truncation_errors (bindM m k).
Proof.
  intros Hm Hk self e H. unfold bindM in H.
  destruct (m self) as [e' | [a s1]] eqn:E.
  - injection H as <-. eapply Hm, E.
  - eapply Hk, H.
Qed.

Lemma truncation_errors_fixed (n : Z) (k : nat) :
  truncation_errors (b <~ _read n ;; liftM (unpack_unsigned k b)).
Proof.
  apply truncation_errors_bind; [intros self e H; discriminate H|].
  intros b self e H. unfold liftM, unpack_unsigned in H.
  destruct (Nat.eqb (List.length b) k); [discriminate H|].
  injection H as <-. left. reflexivity.
Qed.

Lemma truncation_errors_i32 : truncation_errors _i32.
Proof.
  apply truncation_errors_bind; [intros self e H; discriminate H|].
  intros b self e H. unfold liftM, unpack_i32, unpack_unsigned in H.
  destruct (Nat.eqb (List.length b) 4); [discriminate H|].
  injection H as <-. left. reflexivity.
Qed.

Lemma truncation_errors_varint : truncation_errors _varint.
Proof.
  intros self e H. rewrite varint_unfold in H.
  destruct (index (_data self) (_pos self)) as [e' | b] eqn:Eb.
  - injection H as <-. right. unfold index in Eb.
    destruct (_ || _); [injection Eb as <-; reflexivity|].
    destruct (nth_error _ _); [discriminate Eb | injection Eb as <-; reflexivity].
  - cbv zeta in H.
    destruct (byte.unsigned b <? 0xfd); [discriminate H|].
    destruct (byte.unsigned b =? 0xfd); [eapply truncation_errors_fixed, H|].
    destruct (byte.unsigned b =? 0xfe); eapply truncation_errors_fixed, H.
Qed.

Lemma truncation_errors_read (n : Z) : truncation_errors (_read n).
Proof. intros self e H. discriminate H. Qed.

Lemma truncation_errors_loop {A : Type} (body : M A) :
  truncation_errors body -> forall count acc, truncation_errors (loop body count acc).
Proof.
  intros Hb. induction count as [| count IH]; intros acc; cbn [loop].
  - apply truncation_errors_ret.
  - apply truncation_errors_bind; [exact Hb|]. intros a. apply IH.
Qed.

Lemma truncation_errors_parse_method : truncation_errors parse_method.
Proof.
  unfold parse_method, parse_input, parse_output.
  repeat first
    [ apply truncation_errors_ret
    | apply truncation_errors_varint
    | apply truncation_errors_i32
    | apply truncation_errors_fixed
    | apply truncation_errors_read
    | apply truncation_errors_loop
    | apply truncation_errors_bind
    | intro ].
Qed.

(** *** The entry points *)

Lemma parse_ok_inv (data : bytes) (tx : Tx) :
  parse data = inr tx ->
  exists self', parse_method (at_ data 0) = inr (tx, self')
                /\ consumed data = inr (_pos self').
Proof.
  unfold parse, consumed. fold (at_ data 0).
  destruct (parse_method (at_ data 0)) as [e | [tx' self']]; [discriminate|].
  intros H. injection H as <-. eauto.
Qed.

Lemma parse_raises (data : bytes) (e : exn) :
  parse data = inl e -> e = StructError \/ e = IndexError.
Proof.
  unfold parse. fold (at_ data 0).
  destruct (parse_method (at_ data 0)) as [e' | r] eqn:E; [| discriminate].
  intros H. injection H as <-. eapply truncation_errors_parse_method, E.
Qed.

(** The cursor ends inside the buffer. *)
Lemma parse_within_buffer (data : bytes) (tx : Tx) (self' : parser) :
  parse_method (at_ data 0) = inr (tx, self') -> 0 <= _pos self' <= len data.
Proof.
  intros H. split.
  - apply (well_behaved_parse_method data 0 tx self'); [lia | exact H].
  - apply (bounded_parse_method data 0 tx self'); [lia | exact H].
Qed.

(** Bytes after the transaction are not looked at. *)
Lemma parse_ignores_trailing_bytes (data more : bytes) (tx : Tx) :
  parse data = inr tx -> parse (data ++ more) = inr tx.
Proof.
  intros H. apply parse_ok_inv in H. destruct H as (self' & H & _).
  pose proof (@parse_within_buffer data tx self' H) as Hb.
  destruct (well_behaved_parse_method data 0 tx self' ltac:(lia) H) as (_ & _ & Hext).
  unfold parse. fold (at_ (data ++ more) 0). rewrite (Hext ltac:(lia) more).
  reflexivity.
Qed.

(** A buffer cut inside the bytes of a transaction does not parse. *)
Lemma parse_truncated (data : bytes) (tx : Tx) (self' : parser) (k : nat) :
  parse_method (at_ data 0) = inr (tx, self') ->
  Z.of_nat k < _pos self' ->
  exists e, parse (firstn k data) = inl e.
Proof.
  intros H Hk.
  destruct (parse (firstn k data)) as [e | tx2] eqn:E; [eauto|]. exfalso.
  apply parse_ok_inv in E. destruct E as (s2 & H2 & _).
  pose proof (@parse_within_buffer (firstn k data) tx2 s2 H2) as Hb2.
  destruct (well_behaved_parse_method (firstn k data) 0 tx2 s2 ltac:(lia) H2)
    as (_ & _ & Hext).
  specialize (Hext ltac:(lia) (skipn k data)).
  rewrite firstn_skipn, H in Hext. injection Hext as _ Hp.
  assert (len (firstn k data) <= Z.of_nat k)
    by (unfold len; rewrite length_firstn; lia).
  rewrite Hp in Hk. cbn [at_ _pos] in Hk. lia.
Qed.

End ParserFacts.

(** ** Parsing what the serializer wrote *)

Section RoundTripFacts.
Import CoinbaseTxParser ParserInvariants TxSerializer.

Lemma reads_ret {A : Type} (a : A) : reads (retM a) [] a.
Proof.
  intros pre post. unfold retM, ok. change (len (@nil byte)) with 0.
  rewrite Z.add_0_r. reflexivity.
Qed.

Lemma reads_bind {A B : Type} (m : M A) (k : A -> M B) (e1 e2 : bytes) (a : A) (b : B) :
  reads m e1 a -> reads (k a) e2 b -> reads (bindM m k) (e1 ++ e2) b.
Proof.
  intros Hm Hk pre post. unfold bindM.
  rewrite <- (app_assoc e1 e2 post), Hm.
  rewrite (app_assoc pre e1 (e2 ++ post)), <- len_app, Hk.
  rewrite !len_app, <- !app_assoc, Z.add_assoc. reflexivity.
Qed.

(** A method followed by a pure step. *)
Lemma reads_map {A B : Type} (m : M A) (f : A -> B) (enc : bytes) (a : A) :
  reads m enc a -> reads (x <~ m ;; retM (f x)) enc (f a).
Proof.
  intros Hm. rewrite <- (app_nil_r enc).
  apply (@reads_bind _ _ m (fun x => retM (f x)) enc [] a (f a) Hm). apply reads_ret.
Qed.

Lemma reads_fixed (n : Z) (unpack : bytes -> result Z) (enc : bytes) (v : Z) :
  len enc = n -> unpack enc = inr v ->
  reads (b <~ _read n ;; liftM (unpack b)) enc v.
Proof.
  intros Hn Hu pre post. unfold bindM, _read, ok. cbn [at_ _data _pos].
  rewrite <- Hn, slice_middle. unfold liftM. rewrite Hu. reflexivity.
Qed.

Lemma le_split_len (n : nat) (v : Z) : len (le_split n v) = Z.of_nat n.
Proof. unfold len. now rewrite length_le_split. Qed.

Lemma unpack_le_split (n : nat) (v : Z) :
  0 <= v < 2 ^ (8 * Z.of_nat n) -> unpack_unsigned n (le_split n v) = inr v.
Proof.
  intros Hv. unfold unpack_unsigned.
  rewrite length_le_split, Nat.eqb_refl, le_combine_split.
  rewrite Z.mod_small by (rewrite Z.mul_comm; exact Hv). reflexivity.
Qed.

Lemma reads_unsigned (n : nat) (v : Z) :
  0 <= v < 2 ^ (8 * Z.of_nat n) ->
  reads (b <~ _read (Z.of_nat n) ;; liftM (unpack_unsigned n b)) (le_split n v) v.
Proof.
  intros Hv. apply reads_fixed; [apply le_split_len | apply unpack_le_split, Hv].
Qed.

Lemma reads_u32 (v : Z) : fits 32 v = true -> reads _u32 (le_split 4 v) v.
Proof.
  unfold fits. intros H. apply andb_true_iff in H. destruct H as [H0 H1].
  apply Z.leb_le in H0. apply Z.ltb_lt in H1.
  apply (@reads_unsigned 4 v). change (2 ^ (8 * Z.of_nat 4)) with (2 ^ 32). lia.
Qed.

Lemma reads_u64 (v : Z) : fits 64 v = true -> reads _u64 (le_split 8 v) v.
Proof.
  unfold fits. intros H. apply andb_true_iff in H. destruct H as [H0 H1].
  apply Z.leb_le in H0. apply Z.ltb_lt in H1.
  apply (@reads_unsigned 8 v). change (2 ^ (8 * Z.of_nat 8)) with (2 ^ 64). lia.
Qed.

Lemma reads_i32 (v : Z) : - 2 ^ 31 <= v < 2 ^ 31 -> reads _i32 (le_split 4 v) v.
Proof.
  intros Hv. apply reads_fixed; [apply le_split_len|].
  unfold unpack_i32, unpack_unsigned.
  rewrite length_le_split, Nat.eqb_refl, le_combine_split.
  change (2 ^ (Z.of_nat 4 * 8)) with (2 ^ 32). unfold ok. cbn [Py.bind]. f_equal.
  destruct (Z.ltb_spec (v mod 2 ^ 32) (2 ^ 31)) as [Hlt | Hge].
  - destruct (Z.le_gt_cases 0 v).
    + apply Z.mod_small. lia.
    + exfalso. rewrite <- (Z.mod_add v 1 (2 ^ 32)), Z.mod_small in Hlt by lia. lia.
  - destruct (Z.le_gt_cases 0 v).
    + rewrite Z.mod_small in Hge by lia. lia.
    + rewrite <- (Z.mod_add v 1 (2 ^ 32)), Z.mod_small by lia. lia.
Qed.

Lemma of_Z_small (n : Z) : 0 <= n < 256 -> byte.unsigned (byte.of_Z n) = n.
Proof.
  intros Hn. rewrite byte.unsigned_of_Z. unfold byte.wrap. apply Z.mod_small.
  change (2 ^ 8) with 256. lia.
Qed.

(** The parser reads back every varint the serializer writes. *)
Lemma reads_varint (n : Z) : fits 64 n = true -> reads _varint (varint n) n.
Proof.
  unfold fits. intros H. apply andb_true_iff in H. destruct H as [H0 H1].
  apply Z.leb_le in H0. apply Z.ltb_lt in H1.
  assert (Hrest : forall (k : nat) (tag : byte) pre post,
             0 <= n < 2 ^ (8 * Z.of_nat k) ->
             (b <~ _read (Z.of_nat k) ;; liftM (unpack_unsigned k b))
               (at_ (pre ++ (tag :: le_split k n) ++ post) (len pre + 1))
             = inr (n, at_ (pre ++ (tag :: le_split k n) ++ post)
                           (len pre + len (tag :: le_split k n)))).
  { intros k tag pre post Hk.
    pose proof (@reads_unsigned k n Hk (pre ++ [tag]) post) as R.
    rewrite len_app, <- !app_assoc in R. cbn [app] in R.
    change (len [tag]) with 1 in R. cbn [app].
    rewrite R, len_cons. f_equal. f_equal. f_equal. lia. }
  intros pre post. rewrite varint_unfold. cbn [at_ _data _pos]. unfold varint.
  destruct (Z.ltb_spec n 0xfd) as [Hs | Hs].
  { cbn [app]. rewrite index_middle. cbv zeta.
    rewrite of_Z_small by lia.
    destruct (Z.ltb_spec n 0xfd); [| lia]. reflexivity. }
  destruct (Z.leb_spec n 0xffff) as [H16 | H16].
  { cbn [app]. rewrite index_middle. cbv zeta.
    change (byte.unsigned Byte.xfd) with 0xfd. cbn [Z.ltb Z.eqb Z.compare Pos.compare Pos.compare_cont Pos.eqb].
    apply (Hrest 2%nat Byte.xfd). change (2 ^ (8 * Z.of_nat 2)) with (2 ^ 16). lia. }
  destruct (Z.leb_spec n 0xffffffff) as [H32 | H32].
  { cbn [app]. rewrite index_middle. cbv zeta.
    change (byte.unsigned Byte.xfe) with 0xfe. cbn [Z.ltb Z.eqb Z.compare Pos.compare Pos.compare_cont Pos.eqb].
    apply (Hrest 4%nat Byte.xfe). change (2 ^ (8 * Z.of_nat 4)) with (2 ^ 32). lia. }
  cbn [app]. rewrite index_middle. cbv zeta.
  change (byte.unsigned Byte.xff) with 0xff. cbn [Z.ltb Z.eqb Z.compare Pos.compare Pos.compare_cont Pos.eqb].
  apply (Hrest 8%nat Byte.xff). change (2 ^ (8 * Z.of_nat 8)) with (2 ^ 64). lia.
Qed.

Lemma reads_read (c : bytes) : reads (_read (len c)) c c.
Proof.
  intros pre post. unfold _read. cbn [at_ _data _pos].
  rewrite slice_middle. reflexivity.
Qed.

Lemma reads_loop {A : Type} (body : M A) (encs : list bytes) (items : list A) :
  Forall2 (reads body) encs items ->
  forall acc, reads (loop body (List.length items) acc) (List.concat encs) (acc ++ items).
Proof.
  induction 1 as [| enc a encs items Ha _ IH]; intros acc.
  - cbn [List.length loop List.concat]. rewrite app_nil_r. apply reads_ret.
  - cbn [List.length loop List.concat].
    apply (@reads_bind _ _ body (fun a => loop body (List.length items) (acc ++ [a]))
             enc (List.concat encs) a (acc ++ a :: items) Ha).
    replace (acc ++ a :: items) with ((acc ++ [a]) ++ items)
      by (rewrite <- app_assoc; reflexivity).
    apply IH.
Qed.

Lemma is_txid_inv (s : string) :
  is_txid s = true ->
  exists h, fromhex s = inr h /\ len h = 32 /\ hex h = s.
Proof.
  unfold is_txid. destruct (fromhex s) as [e | h]; [discriminate|].
  intros H. apply andb_true_iff in H. destruct H as [Hl Hs].
  apply Nat.eqb_eq in Hl. apply String.eqb_eq in Hs.
  exists h. unfold len. rewrite Hl. auto.
Qed.

Lemma reads_parse_input (i : TxInput) (enc : bytes) :
  input_in_range i = true -> serialize_input i = inr enc -> reads parse_input enc i.
Proof.
  unfold input_in_range, serialize_input. intros Hr Hs.
  repeat (apply andb_true_iff in Hr; destruct Hr as [Hr ?]).
  destruct (is_txid_inv _ Hr) as (h & Hh & Hl & Hhex).
  rewrite Hh in Hs. cbv [Py.bind ok] in Hs.
  assert (E : enc = h ++ le_split 4 (prev_index i) ++ varint (len (scriptSig i))
                      ++ scriptSig i ++ le_split 4 (sequence i)) by congruence.
  subst enc. clear Hs.
  destruct i as [ph idx sig sq]. cbn [prev_hash prev_index scriptSig sequence] in *.
  unfold parse_input.
  apply reads_bind with (a := h); [rewrite <- Hl; apply reads_read|]. cbv beta zeta.
  apply reads_bind with (a := idx); [apply reads_u32; assumption|]. cbv beta.
  apply reads_bind with (a := len sig); [apply reads_varint; assumption|]. cbv beta.
  apply reads_bind with (a := sig); [apply reads_read|]. cbv beta.
  rewrite <- Hhex.
  apply (@reads_map _ _ _u32
           (fun s => {| prev_hash := hex h; prev_index := idx;
                        scriptSig := sig; sequence := s |})).
  apply reads_u32. assumption.
Qed.

Lemma reads_parse_output (o : TxOutput) :
  output_in_range o = true -> reads parse_output (serialize_output o) o.
Proof.
  unfold output_in_range, serialize_output. intros Hr.
  apply andb_true_iff in Hr. destruct Hr as [Hv Hl].
  destruct o as [v script]. cbn [value scriptPubKey] in *.
  unfold parse_output.
  apply reads_bind with (a := v); [apply reads_u64; assumption|]. cbv beta.
  apply reads_bind with (a := len script); [apply reads_varint; assumption|]. cbv beta.
  apply (@reads_map _ _ (_read (len script))
           (fun s => {| value := v; scriptPubKey := s |})).
  apply reads_read.
Qed.

Lemma reads_inputs (ins : list TxInput) :
  forallb input_in_range ins = true ->
  exists encs, mapM serialize_input ins = inr encs /\ Forall2 (reads parse_input) encs ins.
Proof.
  induction ins as [| i ins IH]; intros Hr.
  - exists []. split; [reflexivity | constructor].
  - cbn [forallb] in Hr. apply andb_true_iff in Hr. destruct Hr as [Hi Hr].
    destruct (IH Hr) as (encs & He & Hf).
    assert (Hs : exists enc, serialize_input i = inr enc).
    { unfold serialize_input. unfold input_in_range in Hi.
      repeat (apply andb_true_iff in Hi; destruct Hi as [Hi ?]).
      destruct (is_txid_inv _ Hi) as (h & Hh & _). rewrite Hh. cbn [Py.bind]. eauto. }
    destruct Hs as [enc Hs].
    exists (enc :: encs). split.
    + cbn [mapM]. rewrite Hs, He. reflexivity.
    + constructor; [apply reads_parse_input; assumption | exact Hf].
Qed.

Lemma reads_outputs (outs : list TxOutput) :
  forallb output_in_range outs = true ->
  Forall2 (reads parse_output) (map serialize_output outs) outs.
Proof.
  induction outs as [| o outs IH]; intros Hr; cbn [map]; [constructor|].
  cbn [forallb] in Hr. apply andb_true_iff in Hr. destruct Hr as [Ho Hr].
  constructor; [apply reads_parse_output, Ho | apply IH, Hr].
Qed.

(** The serializer is defined on every record in range, and the parser
    reads the record back from what it wrote, to the last byte. *)
Lemma parse_serialized (tx : Tx) :
  tx_in_range tx = true ->
  exists bs, serialize tx = inr bs
             /\ parse_method (at_ bs 0) = inr (tx, at_ bs (len bs)).
Proof.
  unfold tx_in_range. intros Hr.
  repeat (apply andb_true_iff in Hr; destruct Hr as [Hr ?]).
  apply Z.leb_le in Hr.
  match goal with H : (version tx <? _) = true |- _ => apply Z.ltb_lt in H end.
  destruct tx as [v ins outs lt]. cbn [version inputs outputs locktime] in *.
  destruct (reads_inputs ins ltac:(assumption)) as (encs & He & Hf).
  unfold serialize. cbn [version inputs outputs locktime]. rewrite He. cbn [Py.bind].
  eexists. split; [reflexivity|].
  match goal with |- parse_method (at_ ?bs 0) = _ =>
    assert (R : reads parse_method bs {| version := v; inputs := ins;
                                         outputs := outs; locktime := lt |})
  end.
  { unfold parse_method.
    apply reads_bind with (a := v); [apply reads_i32; lia|]. cbv beta.
    apply reads_bind with (a := len ins); [apply reads_varint; assumption|]. cbv beta.
    apply reads_bind with (a := ins).
    { unfold len. rewrite Nat2Z.id. apply (@reads_loop _ parse_input encs ins Hf []). }
    cbv beta.
    apply reads_bind with (a := len outs); [apply reads_varint; assumption|]. cbv beta.
    apply reads_bind with (a := outs).
    { unfold len. rewrite Nat2Z.id. apply (@reads_loop _ parse_output (map serialize_output outs) outs (reads_outputs outs ltac:(assumption)) []). }
    cbv beta.
    apply (@reads_map _ _ _u32
             (fun l => {| version := v; inputs := ins; outputs := outs; locktime := l |})).
    apply reads_u32. assumption. }
  specialize (R [] []). rewrite app_nil_r in R. cbn [app] in R.
  change (len (@nil byte)) with 0 in R. exact R.
Qed.

End RoundTripFacts.

(** ** Checksummed addresses and script classification: the claims *)

Section AddressClaims.
Import CashAddr CashAddrSpec Script.

(** C7.  On every sequence of 5-bit values the checksum polymod of the
    code is the linear-feedback computation of the specification (initial
    state 1, the five generators folded in as the top five bits of the
    40-bit state dictate, a final exclusive or with 1), and it stays below
    2^40.  The address encoder never fails; what it returns is the prefix,
    a colon, and the payload digits followed by the eight 5-bit windows of
    that checksum, most significant first, each through the 32-character
    alphabet; the eight windows are the base-32 digits of the checksum. *)
Theorem cashaddr_checksum_follows_spec
  (values : list Z) (hash160 : bytes) (script_type : string) :
  Forall five_bit values ->
  (_cashaddr_polymod values = checksum_polymod values
   /\ 0 <= _cashaddr_polymod values < 2 ^ 40)
  /\ exists payload address,
       _convert_bits ((if String.eqb script_type "P2PKH" then 0x00 else 0x08)
                        :: map byte.unsigned hash160) 8 5 true = inr payload
       /\ Forall five_bit payload
       /\ hash160_to_cashaddr hash160 script_type = inr address
       /\ checksummed_address "bitcoincash" payload = inr address
       /\ base32_value
            (checksum_digits
               (_cashaddr_polymod
                  (_cashaddr_hrp_expand "bitcoincash" ++ payload ++ repeat 0 8)))
          = _cashaddr_polymod
              (_cashaddr_hrp_expand "bitcoincash" ++ payload ++ repeat 0 8).
Proof.
  intros Hv. split.
  - split; [apply polymod_is_checksum_polymod | apply polymod_fits, Hv].
  - destruct (hash160_to_cashaddr_spec hash160 script_type)
      as (payload & address & Hp & H5 & Ha & Hs).
    exists payload, address. repeat split; try assumption.
    apply checksum_digits_value, polymod_fits.
    apply Forall_app. split; [apply hrp_expand_five_bit|].
    apply Forall_app. split; [exact H5 | apply repeat_zero_five_bit].
Qed.

End AddressClaims.

(** The encoder on the test vector of the CashAddr specification. *)
Example cashaddr_fixture :
  CashAddr.hash160_to_cashaddr hash160_fixture "P2PKH"
    = inr "bitcoincash:qpm2qsznhks23z7629mms6s4cwef74vcwvy22gdx6a"%string
  /\ CashAddr.hash160_to_cashaddr hash160_fixture "P2SH"
    = inr "bitcoincash:ppm2qsznhks23z7629mms6s4cwef74vcwvn0h829pq"%string.
Proof. split; vm_compute; reflexivity. Qed.

Lemma cashaddr_checksum_witness :
  (CashAddr._cashaddr_polymod [0; 31; 7; 12]
     = CashAddrSpec.checksum_polymod [0; 31; 7; 12]
   /\ 0 <= CashAddr._cashaddr_polymod [0; 31; 7; 12] < 2 ^ 40)
  /\ exists payload address,
       CashAddr._convert_bits
         ((if String.eqb "P2PKH" "P2PKH" then 0x00 else 0x08)
            :: map byte.unsigned hash160_fixture) 8 5 true = inr payload
       /\ Forall CashAddrSpec.five_bit payload
       /\ CashAddr.hash160_to_cashaddr hash160_fixture "P2PKH" = inr address
       /\ CashAddrSpec.checksummed_address "bitcoincash" payload = inr address
       /\ CashAddrSpec.base32_value
            (CashAddrSpec.checksum_digits
               (CashAddr._cashaddr_polymod
                  (CashAddr._cashaddr_hrp_expand "bitcoincash" ++ payload ++ repeat 0 8)))
          = CashAddr._cashaddr_polymod
              (CashAddr._cashaddr_hrp_expand "bitcoincash" ++ payload ++ repeat 0 8).
Proof.
  apply (cashaddr_checksum_follows_spec [0; 31; 7; 12] hash160_fixture "P2PKH").
  repeat constructor; unfold CashAddrSpec.five_bit; lia.
Defined.

Section ScriptClaims.
Import Script.

(** C6.  The classifier follows the rules in priority order, the first
    rule that matches giving the type.  Every 25-byte script
    [76 a9 14 <20 bytes> 88 ac] is classified P2PKH, its payload and both
    its addresses being those of exactly the 20 embedded bytes, and the
    one-byte script [6a] is classified OP_RETURN with an empty payload. *)
Theorem script_classification_first_match
  (sha256 ripemd160 : bytes -> bytes) (script h : bytes) :
  List.length h = 20%nat ->
  (exists a x,
      parse_script_pubkey sha256 ripemd160 script
      = inr (ClassifierSpec.classify script, a, x))
  /\ (exists a,
         addresses sha256 h "P2PKH" = inr a
         /\ parse_script_pubkey sha256 ripemd160
              ([Byte.x76; Byte.xa9; Byte.x14] ++ h ++ [Byte.x88; Byte.xac])
            = inr ("P2PKH"%string, Some a, hex h))
  /\ parse_script_pubkey sha256 ripemd160 [Byte.x6a]
     = inr ("OP_RETURN"%string, None, EmptyString).
Proof.
  intros Hh. split; [apply classifier_first_match|]. split; [| reflexivity].
  destruct (addresses_total sha256 h "P2PKH") as [a Ha]. exists a. split; [exact Ha|].
  set (pre := [Byte.x76; Byte.xa9; Byte.x14]).
  set (post := [Byte.x88; Byte.xac]).
  assert (Hlen : len (pre ++ h ++ post) = 25).
  { rewrite !len_app. unfold len. rewrite Hh. reflexivity. }
  assert (Hto : slice_to (pre ++ h ++ post) 3 = pre).
  { rewrite slice_to_firstn by lia. reflexivity. }
  assert (Hfrom : slice_from (pre ++ h ++ post) 23 = post).
  { rewrite slice_from_skipn by lia. rewrite app_assoc.
    rewrite skipn_app, skipn_all2 by (rewrite length_app, Hh; simpl; lia).
    rewrite length_app, Hh. reflexivity. }
  assert (Hmid : slice (pre ++ h ++ post) 3 23 = h).
  { replace 23 with (len pre + len h) by (unfold len; rewrite Hh; reflexivity).
    apply (slice_middle pre h post). }
  unfold parse_script_pubkey.
  change (pre ++ h ++ post) with (Byte.x76 :: Byte.xa9 :: Byte.x14 :: h ++ post) at 1.
  cbv beta iota zeta.
  rewrite Hlen, Hto, Hfrom, Hmid, Ha.
  reflexivity.
Qed.

End ScriptClaims.

Lemma script_classification_witness :
  (exists a x,
      Script.parse_script_pubkey (fun b => b) (fun b => b) [Byte.x6a; Byte.x01]
      = inr (ClassifierSpec.classify [Byte.x6a; Byte.x01], a, x))
  /\ (exists a,
         Script.addresses (fun b => b) hash160_fixture "P2PKH" = inr a
         /\ Script.parse_script_pubkey (fun b => b) (fun b => b)
              ([Byte.x76; Byte.xa9; Byte.x14] ++ hash160_fixture ++ [Byte.x88; Byte.xac])
            = inr ("P2PKH"%string, Some a, hex hash160_fixture))
  /\ Script.parse_script_pubkey (fun b => b) (fun b => b) [Byte.x6a]
     = inr ("OP_RETURN"%string, None, EmptyString).
Proof.
  apply (script_classification_first_match (fun b => b) (fun b => b)
           [Byte.x6a; Byte.x01] hash160_fixture).
  reflexivity.
Defined.

(** ** Stratum helpers: the claims *)

Section StratumClaims.
Import Stratum.

(** C9.  With coinbase fragments and an extra-nonce that are hexadecimal
    strings of bytes, the buffer the transaction parser is built on is
    coinbase part 1, the extra-nonce, [extranonce2_size] zero bytes and
    coinbase part 2, in this order, and decoding the assembled coinbase is
    parsing that buffer. *)
Theorem coinbase_bytes_are_concatenation
  (cb1 extranonce1 cb2 : string) (extranonce2_size : Z) (b1 e1 b2 : bytes) :
  fromhex cb1 = inr b1 -> fromhex extranonce1 = inr e1 -> fromhex cb2 = inr b2 ->
  let zeros := repeat Byte.x00 (Z.to_nat extranonce2_size) in
  CoinbaseTxParser.__init__ (coinbase_hex cb1 extranonce1 extranonce2_size cb2)
  = inr {| CoinbaseTxParser._data := b1 ++ e1 ++ zeros ++ b2;
           CoinbaseTxParser._pos := 0 |}
  /\ decode_coinbase cb1 extranonce1 extranonce2_size cb2
     = CoinbaseTxParser.parse (b1 ++ e1 ++ zeros ++ b2)
  /\ (0 <= extranonce2_size -> len zeros = extranonce2_size).
Proof.
  intros H1 He H2 zeros.
  assert (Hhex : fromhex (coinbase_hex cb1 extranonce1 extranonce2_size cb2)
                 = inr (b1 ++ e1 ++ zeros ++ b2)).
  { unfold coinbase_hex, str_repeat.
    apply fromhex_app; [exact H1|].
    apply fromhex_app; [exact He|].
    apply fromhex_app; [apply fromhex_zeros | exact H2]. }
  split; [| split].
  - unfold CoinbaseTxParser.__init__. rewrite Hhex. reflexivity.
  - unfold decode_coinbase, CoinbaseTxParser.__init__, CoinbaseTxParser.parse.
    rewrite Hhex. reflexivity.
  - intros Hn. unfold zeros, len. rewrite repeat_length. lia.
Qed.

(** C4, as the code has it.  A string of 64 characters comes back with its
    eight 8-character groups in reverse order, each group unchanged (so
    the wire-order hash [00010203 04050607 ... 1c1d1e1f] gives
    [1c1d1e1f 18191a1b ... 00010203]); a string of any other length comes
    back unchanged. *)
Theorem prevhash_reverses_word_order (s : string) :
  stratum_prevhash_to_blockchain s
  = (if Nat.eqb (String.length s) 64 then PrevHashSpec.reverse_words s else s)
  /\ stratum_prevhash_to_blockchain wire_fixture
     = "1c1d1e1f18191a1b14151617101112130c0d0e0f08090a0b0405060700010203"%string.
Proof.
  split; [| vm_compute; reflexivity].
  destruct (Nat.eqb_spec (String.length s) 64) as [H64 | Hne].
  - do 64 (destruct s as [| ? s]; [discriminate H64|]).
    destruct s; [| discriminate H64].
    vm_compute. reflexivity.
  - unfold stratum_prevhash_to_blockchain, str_len.
    destruct (Z.eqb_spec (Z.of_nat (String.length s)) 64); [lia | reflexivity].
Qed.

End StratumClaims.

(** The wire-order fixture does not come back fully byte-reversed. *)
Lemma prevhash_not_byte_reversed :
  PrevHashSpec.reverse_octets wire_fixture
  = "1f1e1d1c1b1a191817161514131211100f0e0d0c0b0a09080706050403020100"%string
  /\ Stratum.stratum_prevhash_to_blockchain wire_fixture
     <> PrevHashSpec.reverse_octets wire_fixture.
Proof. split; [vm_compute; reflexivity | vm_compute; discriminate]. Qed.

Lemma coinbase_bytes_witness :
  let zeros := repeat Byte.x00 (Z.to_nat 4) in
  CoinbaseTxParser.__init__ (Stratum.coinbase_hex "0100" "ab" 4 "ff")
  = inr {| CoinbaseTxParser._data :=
             [Byte.x01; Byte.x00] ++ [Byte.xab] ++ zeros ++ [Byte.xff];
           CoinbaseTxParser._pos := 0 |}
  /\ Stratum.decode_coinbase "0100" "ab" 4 "ff"
     = CoinbaseTxParser.parse ([Byte.x01; Byte.x00] ++ [Byte.xab] ++ zeros ++ [Byte.xff])
  /\ (0 <= 4 -> len zeros = 4).
Proof.
  apply (coinbase_bytes_are_concatenation "0100" "ab" "ff" 4
           [Byte.x01; Byte.x00] [Byte.xab] [Byte.xff]); reflexivity.
Defined.

(** C3, where the code parts from it.  With an exponent byte below 3 the
    shift count [8 * (exp - 3)] is negative and the decoder raises
    [ValueError] instead of returning: on [00000000], whose target is 0, and
    on [02008000], whose coefficient is 0x8000. *)
Theorem nbits_low_exponent_raises :
  Stratum.nbits_to_difficulty "00000000" = inl ValueError
  /\ Stratum.nbits_to_difficulty "02008000" = inl ValueError
  /\ Stratum.nbits_to_difficulty "03000000" = inr Stratum.NotApplicable
  /\ Stratum.nbits_to_difficulty "1d00ffff" = inr (Stratum.Quotient Stratum._DIFF1_TARGET).
Proof. repeat split; vm_compute; reflexivity. Qed.
(** ** The waiting phase: the claim *)

Section SessionClaims.
Import Stratum SessionSpec SessionTrace.

(** C5, as the code has it, for every script of receive batches.  The
    loop takes the messages one receive batch at a time and stops after
    the first batch, among the first 15, that holds a job notification or
    an authorize rejection: it handles the messages of the batches up to
    that one, in order, and reads nothing after.  When one of the messages
    handled is a difficulty announcement without a first parameter, the
    loop raises the exception of that indexing, [IndexError] or
    [TypeError].  Otherwise it ends: Failed (rejected) when the deciding
    batch holds a rejection and no job notification; with the last job of
    the deciding batch accepted, and handed on with the pool difficulty
    last announced among the messages handled (null when there was none),
    when that batch holds a job notification, before or after a rejection
    of the same batch; timed out when there is no deciding batch. *)
Theorem wait_for_job_by_batch (script : list (list frame)) :
  await_notify script
  = (st <- handle_all poll_init (seen 15 script) ;; ok (after_poll st))
  /\ match await_notify script with
     | inl e =>
         (e = IndexError \/ e = TypeError)
         /\ Exists (fun r => is_set_difficulty r = true /\ announced r = inl e)
                   (seen 15 script)
     | inr s =>
         Forall (fun r => is_set_difficulty r = true -> exists d, announced r = inr d)
                (seen 15 script)
         /\ match first_decisive 15 script with
            | None => s = Failed_timeout
            | Some batch =>
                decisive batch = true
                /\ match last_notify batch with
                   | Some job =>
                       exists diff,
                         s = JobReceived job diff
                         /\ match find is_set_difficulty (rev (seen 15 script)) with
                            | Some r => announced r = inr diff
                            | None => diff = JNull
                            end
                   | None => existsb is_rejection batch = true /\ s = Failed_rejected
                   end
            end
     end.
Proof.
  assert (Hseen : await_notify script
                  = (st <- handle_all poll_init (seen 15 script) ;; ok (after_poll st))).
  { unfold await_notify. rewrite poll_seen by reflexivity. reflexivity. }
  split; [exact Hseen|]. rewrite Hseen.
  destruct (handle_all poll_init (seen 15 script)) as [e | st] eqn:E;
    unfold ok; cbn [Py.bind].
  - split.
    + apply (handle_all_raises _ _ _ E).
    + apply (handle_all_raises_at _ _ _ E).
  - split.
    + apply (handle_all_ok_iff (seen 15 script) poll_init). eauto.
    + assert (Hp : poll 15 script poll_init = inr st)
        by (rewrite poll_seen by reflexivity; exact E).
      apply (poll_by_batch 15 script poll_init) in Hp; [| reflexivity | reflexivity].
      unfold after_poll.
      destruct (first_decisive 15 script) as [batch |] eqn:Ed.
      * destruct Hp as [Hn Ha]. apply first_decisive_is_decisive in Ed.
        split; [exact Ed|]. rewrite Hn, Ha.
        unfold decisive in Ed. rewrite <- last_notify_some in Ed.
        destruct (last_notify batch) as [job |]; cbn [is_some negb orb andb] in *.
        -- rewrite andb_false_r. exists (pool_diff st). split; [reflexivity|].
           apply (handle_all_difficulty _ _ _ E).
        -- rewrite Ed. auto.
      * destruct Hp as [Hn Ha]. rewrite Hn, Ha. reflexivity.
Qed.

End SessionClaims.

(** The theorem at a batch that holds a job and, after it, a difficulty
    announcement with an empty parameter list: the loop raises. *)
Lemma wait_for_job_witness :
  Stratum.await_notify [[notify_frame; bad_difficulty_frame]] = inl IndexError
  /\ (IndexError = IndexError \/ IndexError = TypeError)
  /\ Exists (fun r => SessionTrace.is_set_difficulty r = true
                      /\ SessionTrace.announced r = inl IndexError)
            (SessionTrace.seen 15 [[notify_frame; bad_difficulty_frame]]).
Proof.
  split; [reflexivity|].
  exact (proj2 (wait_for_job_by_batch [[notify_frame; bad_difficulty_frame]])).
Defined.

(** A malformed difficulty announcement ends the wait with an exception
    wherever it stands among the messages handled, and has no effect in
    a batch the loop never reads. *)
Example malformed_difficulty_among_handled :
  Stratum.await_notify [[bad_difficulty_frame; reject_frame]] = inl IndexError
  /\ Stratum.await_notify [[bad_difficulty_frame]] = inl IndexError
  /\ Stratum.await_notify [[notify_frame]; [bad_difficulty_frame]]
     = inr (Stratum.JobReceived notify_frame Stratum.JNull).
Proof. repeat split; reflexivity. Qed.

(** A rejection that arrives before the job, in the same batch, does not
    fail the session; a job that arrives after a rejection, in a later
    batch, is never read. *)
Lemma rejection_then_job_depends_on_batching :
  Stratum.await_notify [[reject_frame; notify_frame]]
  = inr (Stratum.JobReceived notify_frame Stratum.JNull)
  /\ Stratum.await_notify [[reject_frame]; [notify_frame]]
     = inr Stratum.Failed_rejected.
Proof. split; reflexivity. Qed.

(** ** Coinbase field decoders: the claims *)

Section CoinbaseClaims.
Import Coinbase CoinbaseSpec.

Variable ucd_printable : Z -> bool.
Variable ucd_space : Z -> bool.

(** C8, as the code has it.  With a first byte [h] between 1 and 8 and at
    least [h] bytes after it, the height is the little-endian value of
    those [h] bytes; otherwise it is absent.  The script [03 22 0c 0a]
    followed by tag bytes has height 0x0a0c22; its raw tag is the tag
    bytes, and its tag text is their decoding (UTF-8, Latin-1 when they
    are not UTF-8) with the non-printable characters removed and the
    blanks at both ends trimmed: it is the UTF-8 decoding itself when
    that is printable and has no blank at either end. *)
Theorem coinbase_height_and_tag (b : byte) (rest tag : bytes) :
  parse_block_height [] = inr None
  /\ parse_block_height (b :: rest)
     = inr (if (1 <=? byte.unsigned b) && (byte.unsigned b <=? 8)
               && (byte.unsigned b <=? len rest)
            then Some (int_from_bytes_little
                         (firstn (Z.to_nat (byte.unsigned b)) rest))
            else None)
  /\ parse_block_height (height_fixture ++ tag) = inr (Some 0x0a0c22)
  /\ parse_coinbase_tag ucd_printable ucd_space (height_fixture ++ tag)
     = inr (clean ucd_printable ucd_space (decoded tag), tag)
  /\ (forall t,
         decode_utf8 tag = inr t ->
         forallb (isprintable ucd_printable) t = true ->
         strip ucd_space t = t ->
         parse_coinbase_tag ucd_printable ucd_space (height_fixture ++ tag)
         = inr (t, tag)).
Proof.
  assert (Htag : parse_coinbase_tag ucd_printable ucd_space (height_fixture ++ tag)
                 = inr (clean ucd_printable ucd_space (decoded tag), tag)).
  { unfold height_fixture. cbn [app]. rewrite parse_coinbase_tag_cases. reflexivity. }
  split; [reflexivity|]. split; [apply parse_block_height_cases|].
  split; [| split].
  - unfold height_fixture. cbn [app]. rewrite parse_block_height_cases.
    rewrite !len_cons. pose proof (len_nonneg tag).
    change (byte.unsigned Byte.x03) with 3.
    destruct (Z.leb_spec 3 (1 + (1 + (1 + len tag)))); [| lia].
    reflexivity.
  - exact Htag.
  - intros t Ht Hp Hs. rewrite Htag. unfold decoded. rewrite Ht.
    rewrite clean_printable by assumption. reflexivity.
Qed.

(** C10.  Neither extractor raises, whatever the bytes: the height is
    absent or a non-negative integer, the tag is a pair of a text and raw
    bytes, and a script of fewer than two bytes has no height and an empty
    tag. *)
Theorem coinbase_extractors_total (script : bytes) :
  (exists h, parse_block_height script = inr h
             /\ match h with Some n => 0 <= n | None => True end)
  /\ (exists t raw, parse_coinbase_tag ucd_printable ucd_space script = inr (t, raw))
  /\ ((List.length script < 2)%nat ->
      parse_block_height script = inr None
      /\ parse_coinbase_tag ucd_printable ucd_space script = inr ([], [])).
Proof.
  split; [| split].
  - destruct script as [| b rest]; [exists None; split; [reflexivity | exact I]|].
    rewrite parse_block_height_cases. eexists. split; [reflexivity|].
    destruct (_ && _); [| exact I].
    unfold int_from_bytes_little. apply le_combine_bound.
  - destruct script as [| b [| b1 rest]]; [do 2 eexists; reflexivity ..|].
    rewrite parse_coinbase_tag_cases. do 2 eexists. reflexivity.
  - intros Hshort.
    destruct script as [| b [| b1 rest]]; [split; reflexivity | | cbn in Hshort; lia].
    split; [| reflexivity].
    rewrite parse_block_height_cases. change (len []) with 0.
    destruct (Z.leb_spec 1 (byte.unsigned b)); cbn [andb]; [| reflexivity].
    destruct (Z.leb_spec (byte.unsigned b) 0); [lia|].
    rewrite andb_false_r. reflexivity.
Qed.

End CoinbaseClaims.

(** The tag text is not always the UTF-8 decoding of the tag bytes: a tag
    of one space decodes to one space and is reported empty. *)
Lemma tag_text_is_not_plain_utf8 :
  ~ (forall (ucd_printable ucd_space : Z -> bool) (tag : bytes) (t : Coinbase.text),
        Coinbase.decode_utf8 tag = inr t ->
        Coinbase.parse_coinbase_tag ucd_printable ucd_space (height_fixture ++ tag)
        = inr (t, tag)).
Proof.
  intros H.
  specialize (H (fun _ => false) (fun _ => false) [Byte.x20] [32] eq_refl).
  vm_compute in H. discriminate H.
Qed.

(** ** The transaction parser: the claims *)

Section ParserClaims.
Import CoinbaseTxParser ParserInvariants TxSerializer.

(** C1.  Every transaction record whose fields fit their widths has a
    serialization, the well-formed byte sequence of that transaction;
    the parser decodes it to that record, stopping on its last byte, and
    re-serializing what the parser returned gives the same bytes again.
    Counts and script lengths go through the varint, whichever of its four
    forms they need. *)
Theorem parse_serialize_round_trip (tx : Tx) :
  tx_in_range tx = true ->
  exists bs,
    serialize tx = inr bs
    /\ parse bs = inr tx
    /\ consumed bs = inr (len bs)
    /\ (r <- parse bs ;; serialize r) = inr bs.
Proof.
  intros Hr. destruct (parse_serialized tx Hr) as (bs & Hs & Hp).
  exists bs. unfold parse, consumed. fold (at_ bs 0). rewrite Hp.
  unfold ok. cbn [Py.bind fst snd at_ _pos]. rewrite Hs. repeat split; reflexivity.
Qed.

(** C2.  The parser raises nothing but [struct.error] and [IndexError],
    the two exceptions of a read past the end.  When it returns a record,
    its cursor, which never moves back, ends inside the buffer, so no read
    went past the end; and the same buffer cut anywhere before that cursor
    does not parse: it raises one of the two exceptions. *)
Theorem parse_fails_when_truncated (data : bytes) :
  (forall e, parse data = inl e -> e = StructError \/ e = IndexError)
  /\ (forall tx, parse data = inr tx ->
        exists n,
          consumed data = inr n /\ 0 <= n <= len data
          /\ forall k : nat, Z.of_nat k < n ->
               exists e, parse (firstn k data) = inl e
                         /\ (e = StructError \/ e = IndexError)).
Proof.
  split; [intros e; apply parse_raises|].
  intros tx H. apply parse_ok_inv in H. destruct H as (self' & H & Hc).
  exists (_pos self'). split; [exact Hc|].
  split; [apply (@parse_within_buffer data tx self' H)|].
  intros k Hk. destruct (@parse_truncated data tx self' k H Hk) as [e He].
  exists e. split; [exact He | apply (@parse_raises (firstn k data) e He)].
Qed.

End ParserClaims.

Lemma parse_serialize_round_trip_witness :
  exists bs,
    TxSerializer.serialize tx_fixture = inr bs
    /\ CoinbaseTxParser.parse bs = inr tx_fixture
    /\ CoinbaseTxParser.consumed bs = inr (len bs)
    /\ (r <- CoinbaseTxParser.parse bs ;; TxSerializer.serialize r) = inr bs.
Proof.
  apply (parse_serialize_round_trip tx_fixture). vm_compute. reflexivity.
Defined.

(** The four forms of the varint, at the boundary values. *)
Example varint_boundaries :
  map (fun n => len (TxSerializer.varint n))
      [0; 252; 253; 65535; 65536; 2 ^ 32 - 1; 2 ^ 32; 2 ^ 64 - 1]
  = [1; 1; 3; 3; 5; 5; 9; 9].
Proof. vm_compute. reflexivity. Qed.

(** ** More on the CashAddr checksum: addresses verify *)

Section ChecksumValidity.
Import CashAddr CashAddrSpec ChecksumAlgebra.

Lemma testbit_sel (b : bool) (g n : Z) : Z.testbit (sel b g) n = b && Z.testbit g n.
Proof. destruct b; cbn [sel andb]; [reflexivity | apply Z.bits_0]. Qed.

Lemma cond_lxor_sel (t k i c g : Z) :
  k = 2 ^ i -> 0 <= i ->
  (if Z.land t k =? 0 then c else Z.lxor c g) = Z.lxor c (sel (Z.testbit t i) g).
Proof.
  intros Hk Hi. rewrite (land_bit_test t i k Hk Hi).
  destruct (Z.testbit t i); cbn [negb sel]; [reflexivity | now rewrite Z.lxor_0_r].
Qed.

(** The loop body as one exclusive or. *)
Lemma polymod_step_sel (c d : Z) :
  polymod_step c d
  = Z.lxor (Z.lxor (Z.lxor (Z.lxor (Z.lxor
      (Z.lxor (Z.shiftl (Z.land c (Z.ones 35)) 5) d)
      (sel (Z.testbit (Z.shiftr c 35) 0) 0x98f2bc8e61))
      (sel (Z.testbit (Z.shiftr c 35) 1) 0x79b76d99e2))
      (sel (Z.testbit (Z.shiftr c 35) 2) 0xf33e5fb3c4))
      (sel (Z.testbit (Z.shiftr c 35) 3) 0xae2eabe2a8))
      (sel (Z.testbit (Z.shiftr c 35) 4) 0x1e4f43e470).
Proof.
  unfold polymod_step. cbv zeta.
  rewrite (cond_lxor_sel _ 0x01 0 _ _ eq_refl), (cond_lxor_sel _ 0x02 1 _ _ eq_refl),
    (cond_lxor_sel _ 0x04 2 _ _ eq_refl), (cond_lxor_sel _ 0x08 3 _ _ eq_refl),
    (cond_lxor_sel _ 0x10 4 _ _ eq_refl) by lia.
  reflexivity.
Qed.

(** The loop body is linear over exclusive or. *)
Lemma polymod_step_linear (c c' d d' : Z) :
  polymod_step (Z.lxor c c') (Z.lxor d d')
  = Z.lxor (polymod_step c d) (polymod_step c' d').
Proof.
  rewrite !polymod_step_sel.
  apply Z.bits_inj'. intros n Hn.
  rewrite !Z.lxor_spec, !testbit_sel.
  rewrite !Z.shiftr_spec by lia. rewrite !Z.lxor_spec.
  rewrite !Z.shiftl_spec by lia. rewrite !Z.land_spec, !Z.lxor_spec.
  btauto.
Qed.

Lemma polymod_step_zero : polymod_step 0 0 = 0.
Proof. reflexivity. Qed.

Lemma run_app (c : Z) (v w : list Z) : run c (v ++ w) = run (run c v) w.
Proof. unfold run. apply fold_left_app. Qed.

(** Digits fed into a state are the exclusive or of zeros fed into that
    state and of the digits fed into the null state. *)
Lemma run_linear (ds : list Z) :
  forall a b,
    run (Z.lxor a b) ds
    = Z.lxor (run a (repeat 0 (List.length ds))) (run b ds).
Proof.
  induction ds as [| d ds IH]; intros a b; [reflexivity|].
  cbn [List.length repeat]. unfold run in *. cbn [fold_left].
  rewrite <- IH, <- polymod_step_linear, Z.lxor_0_l. reflexivity.
Qed.

(** From a short state, and with a 5-bit digit, the loop body appends the
    digit in base 32. *)
Lemma polymod_step_small (c d : Z) :
  0 <= c < 2 ^ 35 -> 0 <= d < 32 -> polymod_step c d = c * 32 + d.
Proof.
  intros Hc Hd. rewrite polymod_step_is_lfsr_step. unfold lfsr_step.
  rewrite Z.div_small, Z.mod_small by lia.
  unfold generators. cbn [fold_generators]. rewrite !Z.bits_0.
  change (2 ^ 5) with 32.
  symmetry. apply Z.add_nocarry_lxor.
  apply Z.bits_inj'. intros n Hn. rewrite Z.land_spec, Z.bits_0.
  destruct (Z.lt_ge_cases n 5) as [Hlt | Hge].
  - replace (c * 32) with (c * 2 ^ 5) by reflexivity.
    rewrite Z.mul_pow2_bits_low by lia. reflexivity.
  - assert (Hd' : Z.testbit d n = false).
    { destruct (Z.eq_dec d 0) as [-> | Hne]; [apply Z.bits_0|].
      apply Z.bits_above_log2; [lia|].
      apply Z.lt_le_trans with 5; [| exact Hge].
      apply Z.log2_lt_pow2; [lia | change (2 ^ 5) with 32; lia]. }
    rewrite Hd'. apply andb_false_r.
Qed.

Lemma run_from_small (ds : list Z) :
  forall c, Forall five_bit ds -> (List.length ds <= 8)%nat ->
    0 <= c < 32 ^ (8 - Z.of_nat (List.length ds)) ->
    run c ds = fold_left (fun acc d => acc * 32 + d) ds c.
Proof.
  induction ds as [| d ds IH]; intros c Hds Hlen Hc; [reflexivity|].
  inversion Hds as [| ? ? Hd Hds']; subst.
  cbn [List.length] in *. unfold run in *. cbn [fold_left].
  assert (Hp : 32 ^ (8 - Z.of_nat (S (List.length ds))) * 32
               = 32 ^ (8 - Z.of_nat (List.length ds))).
  { replace (8 - Z.of_nat (List.length ds))
      with (Z.succ (8 - Z.of_nat (S (List.length ds)))) by lia.
    rewrite Z.pow_succ_r by lia. ring. }
  assert (Hle : 32 ^ (8 - Z.of_nat (S (List.length ds))) <= 2 ^ 35).
  { change (2 ^ 35) with (32 ^ 7). apply Z.pow_le_mono_r; lia. }
  unfold five_bit in Hd.
  rewrite polymod_step_small by lia.
  apply IH; [exact Hds' | lia | nia].
Qed.

Lemma run_null (ds : list Z) :
  Forall five_bit ds -> List.length ds = 8%nat -> run 0 ds = base32_value ds.
Proof.
  intros Hds Hlen. unfold base32_value. apply run_from_small; [exact Hds | lia|].
  rewrite Hlen. cbn. lia.
Qed.

(** Appending the eight checksum digits computed over eight zeros makes
    the polymod vanish. *)
Lemma checksum_verifies (v : list Z) :
  Forall five_bit v ->
  _cashaddr_polymod (v ++ checksum_digits (_cashaddr_polymod (v ++ repeat 0 8))) = 0.
Proof.
  intros Hv.
  set (r := _cashaddr_polymod (v ++ repeat 0 8)).
  assert (Hr : 0 <= r < 2 ^ 40).
  { apply polymod_fits, Forall_app. split; [exact Hv | apply repeat_zero_five_bit]. }
  assert (Hz : run (run 1 v) (repeat 0 8) = Z.lxor r 1).
  { unfold r, _cashaddr_polymod. fold (run 1 (v ++ repeat 0 8)).
    rewrite run_app, Z.lxor_assoc, Z.lxor_nilpotent, Z.lxor_0_r. reflexivity. }
  unfold _cashaddr_polymod. fold (run 1 (v ++ checksum_digits r)).
  rewrite run_app.
  rewrite <- (Z.lxor_0_r (run 1 v)), run_linear.
  change (List.length (checksum_digits r)) with 8%nat.
  rewrite Hz, run_null by (apply checksum_digits_five_bit || reflexivity).
  rewrite checksum_digits_value by exact Hr.
  apply Z.bits_inj'. intros n Hn. rewrite !Z.lxor_spec, Z.bits_0. btauto.
Qed.

(** *** A wrong digit is detected *)

Lemma land_lxor_distr (a b c : Z) :
  Z.land (Z.lxor a b) c = Z.lxor (Z.land a c) (Z.land b c).
Proof.
  apply Z.bits_inj'. intros n Hn.
  rewrite !Z.lxor_spec, !Z.land_spec, !Z.lxor_spec. btauto.
Qed.

Lemma land_shiftl_5_31 (a : Z) : Z.land (Z.shiftl a 5) 31 = 0.
Proof.
  apply Z.bits_inj'. intros n Hn. rewrite Z.land_spec, Z.bits_0.
  destruct (Z.lt_ge_cases n 5) as [L | G].
  - rewrite Z.shiftl_spec_low by lia. reflexivity.
  - change 31 with (Z.ones 5). rewrite Z.ones_spec_high by lia. apply andb_false_r.
Qed.

Lemma top_bits_zero (t : Z) :
  0 <= t < 32 ->
  Z.testbit t 0 = false -> Z.testbit t 1 = false -> Z.testbit t 2 = false ->
  Z.testbit t 3 = false -> Z.testbit t 4 = false -> t = 0.
Proof.
  intros Ht B0 B1 B2 B3 B4.
  assert (E : t = 0 \/ t = 1 \/ t = 2 \/ t = 3 \/ t = 4 \/ t = 5 \/ t = 6 \/ t = 7
              \/ t = 8 \/ t = 9 \/ t = 10 \/ t = 11 \/ t = 12 \/ t = 13 \/ t = 14
              \/ t = 15 \/ t = 16 \/ t = 17 \/ t = 18 \/ t = 19 \/ t = 20 \/ t = 21
              \/ t = 22 \/ t = 23 \/ t = 24 \/ t = 25 \/ t = 26 \/ t = 27 \/ t = 28
              \/ t = 29 \/ t = 30 \/ t = 31) by lia.
  repeat (destruct E as [-> | E];
          [first [reflexivity | discriminate B0 | discriminate B1 | discriminate B2
                 | discriminate B3 | discriminate B4]|]).
  subst t. discriminate B0.
Qed.

(** With a zero digit the loop body sends no state but 0 to 0. *)
Lemma polymod_step_kernel (x : Z) :
  0 <= x < 2 ^ 40 -> polymod_step x 0 = 0 -> x = 0.
Proof.
  intros Hx H. rewrite polymod_step_sel in H.
  assert (Ht : 0 <= Z.shiftr x 35 < 32).
  { rewrite Z.shiftr_div_pow2 by lia. split; [apply Z.div_pos; lia|].
    apply Z.div_lt_upper_bound; lia. }
  pose proof (f_equal (fun z => Z.land z 31) H) as H31. cbv beta in H31.
  rewrite !land_lxor_distr, land_shiftl_5_31 in H31.
  destruct (Z.testbit (Z.shiftr x 35) 0) eqn:B0;
    destruct (Z.testbit (Z.shiftr x 35) 1) eqn:B1;
    destruct (Z.testbit (Z.shiftr x 35) 2) eqn:B2;
    destruct (Z.testbit (Z.shiftr x 35) 3) eqn:B3;
    destruct (Z.testbit (Z.shiftr x 35) 4) eqn:B4;
    try (vm_compute in H31; discriminate H31).
  cbn [sel] in H. rewrite !Z.lxor_0_r in H.
  apply Z.shiftl_eq_0_iff in H; [| lia].
  rewrite Z.land_ones in H by lia.
  pose proof (top_bits_zero (Z.shiftr x 35) Ht B0 B1 B2 B3 B4) as E.
  rewrite Z.shiftr_div_pow2 in E by lia.
  pose proof (Z.div_mod x (2 ^ 35) ltac:(lia)). lia.
Qed.

Lemma run_zeros_nonzero (k : nat) :
  forall x, 0 <= x < 2 ^ 40 -> x <> 0 -> run x (repeat 0 k) <> 0.
Proof.
  induction k as [| k IH]; intros x Hx Hne; [exact Hne|].
  cbn [repeat]. unfold run in *. cbn [fold_left]. apply IH.
  - rewrite polymod_step_is_lfsr_step. apply lfsr_step_fits. lia.
  - intros E. apply Hne. apply (polymod_step_kernel x Hx E).
Qed.

(** Two digit strings that differ in one digit leave the loop in
    different states. *)
Lemma run_single_difference (pre post : list Z) (d1 d2 c : Z) :
  five_bit d1 -> five_bit d2 -> d1 <> d2 ->
  run c (pre ++ d1 :: post) <> run c (pre ++ d2 :: post).
Proof.
  unfold five_bit. intros H1 H2 Hne E.
  rewrite !run_app in E. set (s := run c pre) in *.
  change (run s (d1 :: post)) with (run (polymod_step s d1) post) in E.
  change (run s (d2 :: post)) with (run (polymod_step s d2) post) in E.
  assert (Hd : polymod_step s d1
               = Z.lxor (Z.lxor d1 d2) (polymod_step s d2)).
  { assert (E0 : polymod_step 0 (Z.lxor d1 d2) = Z.lxor d1 d2).
    { rewrite polymod_step_small; [lia | lia |].
      change 32 with (2 ^ 5). apply lxor_fits; lia. }
    rewrite <- E0 at 1. rewrite <- polymod_step_linear, Z.lxor_0_l.
    rewrite Z.lxor_assoc, Z.lxor_nilpotent, Z.lxor_0_r. reflexivity. }
  rewrite Hd, run_linear in E.
  apply (run_zeros_nonzero (List.length post) (Z.lxor d1 d2)).
  - pose proof (lxor_fits 5 d1 d2 ltac:(lia) H1 H2). lia.
  - intros Z0. apply Z.lxor_eq in Z0. contradiction.
  - apply (f_equal (fun z => Z.lxor z (run (polymod_step s d2) post))) in E.
    cbv beta in E. rewrite Z.lxor_assoc, Z.lxor_nilpotent, Z.lxor_0_r in E. exact E.
Qed.

End ChecksumValidity.

(** ** Re-packing bits keeps the number *)

Section RepackFacts.
Import CashAddr CashAddrSpec RepackSpec.

Lemma land_shifted_small (a f v : Z) :
  0 <= f -> 0 <= v < 2 ^ f -> Z.land (a * 2 ^ f) v = 0.
Proof.
  intros Hf Hv. apply Z.bits_inj'. intros n Hn. rewrite Z.land_spec, Z.bits_0.
  destruct (Z.lt_ge_cases n f) as [Hlt | Hge].
  - rewrite Z.mul_pow2_bits_low by lia. reflexivity.
  - assert (Hv' : Z.testbit v n = false).
    { destruct (Z.eq_dec v 0) as [-> | Hne]; [apply Z.bits_0|].
      apply Z.bits_above_log2; [lia|].
      apply Z.lt_le_trans with f; [| exact Hge].
      apply Z.log2_lt_pow2; lia. }
    rewrite Hv'. apply andb_false_r.
Qed.

(** [(acc << f) | v] appends the digit [v]. *)
Lemma lor_shifted_small (a f v : Z) :
  0 <= f -> 0 <= v < 2 ^ f -> Z.lor (Z.shiftl a f) v = a * 2 ^ f + v.
Proof.
  intros Hf Hv. rewrite Z.shiftl_mul_pow2 by lia.
  pose proof (@land_shifted_small a f v Hf Hv) as H0.
  rewrite <- (Z.lxor_lor _ _ H0). symmetry. apply Z.add_nocarry_lxor, H0.
Qed.

Lemma value_from_snoc (w acc : Z) (l : list Z) (d : Z) :
  value_from w acc (l ++ [d]) = value_from w acc l * 2 ^ w + d.
Proof. unfold value_from. rewrite fold_left_app. reflexivity. Qed.

Lemma pow2_split (a b : Z) : 0 <= a -> 0 <= b -> 2 ^ (a + b) = 2 ^ a * 2 ^ b.
Proof. intros. apply Z.pow_add_r; assumption. Qed.

Lemma pow2_pos (a : Z) : 0 <= a -> 0 < 2 ^ a.
Proof. intros. apply Z.pow_pos_nonneg; lia. Qed.

Lemma div_pow2_split (x a b : Z) :
  0 <= a -> 0 <= b -> x / 2 ^ (a + b) = x / 2 ^ a / 2 ^ b.
Proof.
  intros Ha Hb. rewrite pow2_split by assumption.
  symmetry. apply Z.div_div.
  - pose proof (pow2_pos a Ha). lia.
  - apply pow2_pos, Hb.
Qed.

(** The inner loop: the digits produced so far denote the accumulator
    without its pending bits. *)
Lemma convert_while_value (t : Z) (fuel : nat) :
  0 < t ->
  forall acc bits ret bits' ret',
    0 <= acc -> 0 <= bits ->
    convert_while fuel acc bits t (Z.ones t) ret = inr (bits', ret') ->
    value t ret = acc / 2 ^ bits ->
    value t ret' = acc / 2 ^ bits'
    /\ 0 <= bits' < t
    /\ len ret' * t + bits' = len ret * t + bits.
Proof.
  intros Ht. induction fuel as [| fuel IH]; intros acc bits ret bits' ret' Ha Hb H Hv.
  - cbn [convert_while] in H. destruct (Z.geb_spec bits t); [discriminate|].
    injection H as <- <-. auto with zarith.
  - cbn [convert_while] in H. destruct (Z.geb_spec bits t) as [Hge | Hlt].
    + unfold rshift in H. destruct (Z.ltb_spec (bits - t) 0); [lia|].
      cbn [Py.bind] in H. unfold ok in H. cbn [Py.bind] in H.
      apply IH in H; [| lia | lia |].
      * destruct H as (Hv' & Hb' & Hl). split; [exact Hv'|]. split; [exact Hb'|].
        rewrite len_app in Hl. change (len [_]) with 1 in Hl. lia.
      * unfold value in *. fold (value_from t 0 (ret ++ [Z.land (Z.shiftr acc (bits - t)) (Z.ones t)])).
        rewrite value_from_snoc. unfold value_from. rewrite Hv.
        rewrite Z.land_ones, Z.shiftr_div_pow2 by lia.
        replace bits with ((bits - t) + t) at 1 by lia.
        rewrite div_pow2_split by lia.
        pose proof (@pow2_pos t ltac:(lia)).
        rewrite (Z.div_mod (acc / 2 ^ (bits - t)) (2 ^ t)) at 3 by lia. ring.
    + injection H as <- <-. auto with zarith.
Qed.

(** The outer loop. *)
Lemma convert_for_value (f t : Z) (data : list Z) :
  0 < f -> 0 < t -> digits_fit f data ->
  forall acc bits ret acc' bits' ret',
    0 <= acc -> 0 <= bits < t ->
    convert_for data f t (Z.ones t) acc bits ret = inr (acc', bits', ret') ->
    value t ret = acc / 2 ^ bits ->
    acc' = value_from f acc data
    /\ 0 <= acc'
    /\ value t ret' = acc' / 2 ^ bits'
    /\ 0 <= bits' < t
    /\ len ret' * t + bits' = len ret * t + bits + f * len data.
Proof.
  intros Hf Ht Hd. induction Hd as [| v data Hv _ IH];
    intros acc bits ret acc' bits' ret' Ha Hb H Hval.
  - cbn [convert_for] in H. injection H as <- <- <-. cbn [value_from fold_left].
    change (len (@nil Z)) with 0.
    split; [reflexivity|]. split; [exact Ha|]. split; [exact Hval|]. split; lia.
  - cbn [convert_for] in H. unfold lshift in H.
    destruct (Z.ltb_spec f 0); [lia|]. cbn [Py.bind] in H. unfold ok in H.
    cbn [Py.bind] in H. rewrite lor_shifted_small in H by lia.
    apply bind_ok in H. destruct H as ([bits1 ret1] & Hw & H). cbn [fst snd] in H.
    assert (Hacc1 : 0 <= acc * 2 ^ f + v).
    { pose proof (@pow2_pos f ltac:(lia)). nia. }
    apply convert_while_value in Hw; [| lia | exact Hacc1 | lia |].
    + destruct Hw as (Hv1 & Hb1 & Hl1).
      apply IH in H; [| exact Hacc1 | exact Hb1 | exact Hv1].
      destruct H as (Ha' & Hn' & Hv' & Hb' & Hl').
      split; [exact Ha'|]. split; [exact Hn'|]. split; [exact Hv'|]. split; [exact Hb'|].
      rewrite len_cons. lia.
    + rewrite Hval. rewrite (Z.add_comm bits f), div_pow2_split by lia.
      f_equal. pose proof (@pow2_pos f ltac:(lia)).
      rewrite Z.div_add_l by lia.
      rewrite (Z.div_small v) by lia. lia.
Qed.

(** [_convert_bits] with padding: the output has as many digits as the
    bits of the input need, each digit fits, and the output denotes the
    input number followed by the zero bits of the padding. *)
Lemma convert_bits_value (f t : Z) (data out : list Z) :
  0 < f -> 0 < t -> digits_fit f data ->
  _convert_bits data f t true = inr out ->
  digits_fit t out
  /\ len out = (f * len data + t - 1) / t
  /\ value t out = value f data * 2 ^ (len out * t - f * len data).
Proof.
  intros Hf Ht Hd H.
  destruct (@convert_bits_ok f t data ltac:(lia) Ht) as (out' & Hok & Hfit).
  rewrite Hok in H. injection H as ->. split; [exact Hfit|].
  unfold _convert_bits, lshift in Hok.
  destruct (Z.ltb_spec t 0); [lia|]. cbn [Py.bind] in Hok. unfold ok in Hok.
  cbn [Py.bind] in Hok.
  replace (Z.shiftl 1 t - 1) with (Z.ones t) in Hok
    by (rewrite Z.ones_equiv, Z.shiftl_1_l; lia).
  apply bind_ok in Hok. destruct Hok as ([[acc bits] ret] & Hfor & Hpad).
  apply convert_for_value in Hfor; [| lia | lia | exact Hd | lia | lia | reflexivity].
  destruct Hfor as (Hacc & Hn & Hv & Hb & Hl).
  change (len (@nil Z)) with 0 in Hl.
  change (value_from f 0 data) with (value f data) in Hacc.
  pose proof (len_nonneg data) as Hld. pose proof (len_nonneg ret) as Hlr.
  destruct (Z.eqb_spec bits 0) as [-> | Hnz]; cbn [andb negb] in Hpad.
  - injection Hpad as <-. rewrite Z.pow_0_r, Z.div_1_r in Hv.
    assert (Hlen : len ret = (f * len data + t - 1) / t).
    { apply Z.div_unique_pos with (t - 1); [lia | nia]. }
    split; [exact Hlen|].
    replace (len ret * t - f * len data) with 0 by lia.
    rewrite Z.pow_0_r. lia.
  - destruct (Z.ltb_spec (t - bits) 0); [lia|]. cbn [Py.bind] in Hpad.
    injection Hpad as <-. rewrite len_app. change (len [_]) with 1.
    assert (Hlen : len ret + 1 = (f * len data + t - 1) / t).
    { apply Z.div_unique_pos with (bits - 1); [lia | nia]. }
    split; [exact Hlen|].
    replace ((len ret + 1) * t - f * len data) with (t - bits) by nia.
    unfold value at 1. fold (value_from t 0 (ret ++ [Z.land (Z.shiftl acc (t - bits)) (Z.ones t)])).
    rewrite value_from_snoc. change (value_from t 0 ret) with (value t ret).
    rewrite Hv, <- Hacc.
    rewrite Z.land_ones, Z.shiftl_mul_pow2 by lia.
    pose proof (@pow2_pos bits ltac:(lia)) as Hpb.
    pose proof (@pow2_pos (t - bits) ltac:(lia)) as Hpp.
    assert (Hpt : 2 ^ t = 2 ^ bits * 2 ^ (t - bits))
      by (rewrite <- pow2_split by lia; f_equal; lia).
    pose proof (Z.div_mod acc (2 ^ bits) ltac:(lia)) as Hdm.
    pose proof (Z.mod_pos_bound acc (2 ^ bits) Hpb) as Hmb.
    assert (Hmod : (acc * 2 ^ (t - bits)) mod 2 ^ t = (acc mod 2 ^ bits) * 2 ^ (t - bits)).
    { symmetry. apply Z.mod_unique_pos with (acc / 2 ^ bits); [nia|].
      rewrite Hpt. rewrite Hdm at 1. ring. }
    rewrite Hmod, Hpt. rewrite Hdm at 3. ring.
Qed.

End RepackFacts.

(** ** Properties of the CashAddr encoder *)

Section CashAddrProperties.
Import CashAddr CashAddrSpec RepackSpec.

Lemma value_from_bounds (w : Z) (l : list Z) :
  0 < w -> digits_fit w l ->
  forall acc, value_from w acc l
              = acc * (2 ^ w) ^ len l + value w l
              /\ 0 <= value w l < (2 ^ w) ^ len l.
Proof.
  intros Hw Hl. pose proof (pow2_pos w ltac:(lia)) as Hp.
  induction Hl as [| d l Hd _ IH]; intros acc.
  - unfold value, value_from. cbn [fold_left]. change (len (@nil Z)) with 0.
    rewrite Z.pow_0_r. lia.
  - unfold value, value_from in *. cbn [fold_left].
    rewrite len_cons. pose proof (len_nonneg l) as Hn.
    replace (1 + len l) with (Z.succ (len l)) by lia.
    rewrite Z.pow_succ_r by lia.
    destruct (IH (acc * 2 ^ w + d)) as [E1 B]. destruct (IH (0 * 2 ^ w + d)) as [E2 _].
    rewrite E1, E2. split; [ring|].
    assert (0 < (2 ^ w) ^ len l) by (apply Z.pow_pos_nonneg; lia). nia.
Qed.

Lemma value_cons (w d : Z) (l : list Z) :
  0 < w -> digits_fit w l ->
  value w (d :: l) = d * (2 ^ w) ^ len l + value w l.
Proof.
  intros Hw Hl. unfold value at 1. cbn [fold_left].
  change (fold_left (fun acc d0 => acc * 2 ^ w + d0) l (0 * 2 ^ w + d))
    with (value_from w (0 * 2 ^ w + d) l).
  destruct (value_from_bounds w l Hw Hl (0 * 2 ^ w + d)) as [E _]. rewrite E. ring.
Qed.

Lemma mapM_length {A B : Type} (f : A -> result B) (l : list A) (r : list B) :
  mapM f l = inr r -> List.length r = List.length l.
Proof.
  revert r. induction l as [| a l IH]; intros r H.
  - injection H as <-. reflexivity.
  - cbn [mapM] in H. apply bind_ok in H. destruct H as (b & _ & H).
    apply bind_ok in H. destruct H as (r' & Hr & H). injection H as <-.
    cbn [List.length]. f_equal. apply IH, Hr.
Qed.

Lemma length_of_list_ascii (l : list ascii) :
  String.length (string_of_list_ascii l) = List.length l.
Proof. induction l as [| c l IH]; cbn; [reflexivity | now rewrite IH]. Qed.

Lemma bytes_fit (b : bytes) : digits_fit 8 (map byte.unsigned b).
Proof.
  apply Forall_map, Forall_forall. intros x _. apply byte_unsigned_range.
Qed.

(** The first digit of the payload is the version byte without its low
    three bits. *)
Lemma payload_head (hash160 : bytes) (version : Z) (payload : list Z) :
  List.length hash160 = 20%nat -> version = 0 \/ version = 8 ->
  _convert_bits (version :: map byte.unsigned hash160) 8 5 true = inr payload ->
  exists rest, payload = version / 8 :: rest /\ List.length rest = 33%nat.
Proof.
  intros Hlen Hver H.
  assert (Hdata : digits_fit 8 (version :: map byte.unsigned hash160)).
  { constructor; [destruct Hver; subst; lia | apply bytes_fit]. }
  destruct (convert_bits_value 8 5 (version :: map byte.unsigned hash160) payload
              ltac:(lia) ltac:(lia) Hdata H) as (Hfit & Hl & Hv).
  assert (Hl20 : len (map byte.unsigned hash160) = 20)
    by (unfold len; rewrite length_map, Hlen; reflexivity).
  rewrite len_cons, Hl20 in Hl, Hv.
  change ((8 * (1 + 20) + 5 - 1) / 5) with 34 in Hl.
  rewrite Hl in Hv. change (34 * 5 - 8 * (1 + 20)) with 2 in Hv.
  destruct payload as [| d0 rest]; [discriminate Hl|].
  inversion Hfit as [| ? ? Hd0 Hrest]; subst.
  rewrite len_cons in Hl. exists rest. split; [| unfold len in Hl; lia].
  f_equal.
  rewrite (value_cons 5 d0 rest ltac:(lia) Hrest) in Hv.
  rewrite (value_cons 8 version (map byte.unsigned hash160) ltac:(lia) (bytes_fit hash160)) in Hv.
  destruct (value_from_bounds 5 rest ltac:(lia) Hrest 0) as [_ Br].
  destruct (value_from_bounds 8 (map byte.unsigned hash160) ltac:(lia) (bytes_fit hash160) 0) as [_ Bh].
  rewrite Hl20 in Hv, Bh.
  replace (len rest) with 33 in Hv, Br by lia.
  change ((2 ^ 5) ^ 33) with (2 ^ 165) in Hv, Br.
  change ((2 ^ 8) ^ 20) with (2 ^ 160) in Hv, Bh.
  change (2 ^ 2) with 4 in Hv. change (2 ^ 5) with 32 in Hd0.
  change (2 ^ 165) with (32 * 2 ^ 160) in Hv, Br.
  assert (0 < 2 ^ 160) by (apply pow2_pos; lia).
  generalize dependent (2 ^ 160). intros P Hv Br Bh HP.
  destruct Hver as [-> | ->].
  - change (0 / 8) with 0. nia.
  - change (8 / 8) with 1. nia.
Qed.

End CashAddrProperties.

(** ** What the parser returns *)

Section ParserReturns.
Import CoinbaseTxParser ParserInvariants ParserPost TxSerializer.

Lemma returns_ret {A : Type} (a : A) (Q : A -> Prop) : Q a -> returns (retM a) Q.
Proof. intros HQ d p a' self' _ H _. injection H as <- _. exact HQ. Qed.

Lemma returns_bind {A B : Type} (m : M A) (k : A -> M B)
  (P Q1 : A -> Prop) (Q2 : B -> Prop) :
  well_behaved m ->
  (forall self a self', m self = inr (a, self') -> P a) ->
  returns m Q1 ->
  (forall a, P a -> well_behaved (k a)) ->
  (forall a, P a -> Q1 a -> returns (k a) Q2) ->
  returns (bindM m k) Q2.
Proof.
  intros Hm HP Hr Hwb Hk d p b self'' Hp H Hin.
  apply bindM_ok in H. destruct H as (a & s1 & H1 & H2).
  pose proof (HP _ _ _ H1) as Pa.
  destruct (Hm d p a s1 Hp H1) as (Hd & Hle & _).
  rewrite (parser_eta s1), Hd in H2.
  destruct (Hwb a Pa d (_pos s1) b self'' ltac:(lia) H2) as (_ & Hle' & _).
  apply (Hk a Pa (Hr d p a s1 Hp H1 ltac:(lia)) d (_pos s1) b self'' ltac:(lia) H2 Hin).
Qed.

(** The simple case: nothing is needed of the first result. *)
Lemma returns_bind' {A B : Type} (m : M A) (k : A -> M B)
  (Q1 : A -> Prop) (Q2 : B -> Prop) :
  well_behaved m -> returns m Q1 ->
  (forall a, well_behaved (k a)) ->
  (forall a, Q1 a -> returns (k a) Q2) ->
  returns (bindM m k) Q2.
Proof.
  intros Hm Hr Hwb Hk.
  apply (@returns_bind _ _ m k (fun _ => True) Q1 Q2); auto.
Qed.

Lemma fits_iff (bits n : Z) : fits bits n = true <-> 0 <= n < 2 ^ bits.
Proof.
  unfold fits. rewrite andb_true_iff, Z.leb_le, Z.ltb_lt. reflexivity.
Qed.

(** A fixed-width unsigned integer fits its width. *)
Lemma returns_unsigned (n : nat) :
  returns (b <~ _read (Z.of_nat n) ;; liftM (unpack_unsigned n b))
          (fun v => 0 <= v < 2 ^ (8 * Z.of_nat n)).
Proof.
  intros d p v self' Hp H _.
  apply bindM_ok in H. destruct H as (c & s1 & _ & H).
  unfold liftM, unpack_unsigned in H.
  destruct (Nat.eqb_spec (List.length c) n) as [El | ?]; [| discriminate].
  injection H as <- _. rewrite <- El. apply le_combine_bound.
Qed.

Lemma returns_u32 : returns _u32 (fun v => fits 32 v = true).
Proof.
  intros d p v self' Hp H Hin. apply fits_iff.
  apply (returns_unsigned 4 d p v self' Hp H Hin).
Qed.

Lemma returns_u64 : returns _u64 (fun v => fits 64 v = true).
Proof.
  intros d p v self' Hp H Hin. apply fits_iff.
  apply (returns_unsigned 8 d p v self' Hp H Hin).
Qed.

Lemma returns_i32 : returns _i32 (fun v => - 2 ^ 31 <= v < 2 ^ 31).
Proof.
  intros d p v self' Hp H _.
  apply bindM_ok in H. destruct H as (c & s1 & _ & H).
  unfold liftM, unpack_i32, unpack_unsigned in H.
  destruct (Nat.eqb_spec (List.length c) 4) as [El | ?]; [| discriminate].
  unfold ok in H. cbn [Py.bind] in H.
  assert (E : v = if le_combine c <? 2 ^ 31 then le_combine c else le_combine c - 2 ^ 32)
    by congruence.
  pose proof (le_combine_bound c) as B. rewrite El in B.
  change (2 ^ (8 * Z.of_nat 4)) with (2 ^ 32) in B. rewrite E.
  destruct (Z.ltb_spec (le_combine c) (2 ^ 31)); lia.
Qed.

(** A variable-length integer fits 64 bits. *)
Lemma varint_fits (self : parser) (n : Z) (self' : parser) :
  _varint self = inr (n, self') -> fits 64 n = true.
Proof.
  rewrite varint_unfold.
  destruct (index (_data self) (_pos self)) as [e | b]; [discriminate|]. cbv zeta.
  assert (Hfixed : forall (k : nat) s,
             (k <= 8)%nat ->
             (b0 <~ _read (Z.of_nat k) ;; liftM (unpack_unsigned k b0)) s
             = inr (n, self') -> fits 64 n = true).
  { intros k s Hk H. apply bindM_ok in H. destruct H as (c & s1 & _ & H).
    unfold liftM, unpack_unsigned in H.
    destruct (Nat.eqb_spec (List.length c) k) as [El | ?]; [| discriminate].
    injection H as <- _. apply fits_iff.
    pose proof (le_combine_bound c) as B. rewrite El in B.
    assert (2 ^ (8 * Z.of_nat k) <= 2 ^ 64) by (apply Z.pow_le_mono_r; lia). lia. }
  pose proof (byte_unsigned_range b).
  destruct (Z.ltb_spec (byte.unsigned b) 0xfd).
  { intros H'. injection H' as <- _. apply fits_iff. lia. }
  destruct (byte.unsigned b =? 0xfd); [apply (Hfixed 2%nat); lia|].
  destruct (byte.unsigned b =? 0xfe); [apply (Hfixed 4%nat) | apply (Hfixed 8%nat)]; lia.
Qed.

(** Bytes read inside the buffer are as many as asked for. *)
Lemma returns_read (n : Z) : 0 <= n -> returns (_read n) (fun c => len c = n).
Proof.
  intros Hn d p c self' Hp H Hin. unfold _read in H. cbn [at_ _data _pos] in H.
  injection H as <- <-. cbn [_pos] in Hin.
  unfold len at 1. rewrite length_slice by lia. lia.
Qed.

Lemma is_txid_hex (h : bytes) : len h = 32 -> is_txid (hex h) = true.
Proof.
  intros Hl. unfold is_txid. rewrite fromhex_hex, String.eqb_refl.
  unfold len in Hl. replace (List.length h) with 32%nat by lia. reflexivity.
Qed.

Lemma returns_parse_input : returns parse_input (fun i => input_in_range i = true).
Proof.
  unfold parse_input.
  apply returns_bind' with (Q1 := fun h => len h = 32);
    [apply well_behaved_read; lia | apply returns_read; lia | |].
  { intros h. cbv zeta.
    apply well_behaved_bind'; [apply well_behaved_u32|]. intros prev_index.
    apply well_behaved_var_read. intros script.
    apply well_behaved_bind'; [apply well_behaved_u32|]. intros sequence.
    apply well_behaved_ret. }
  intros h Hh. cbv zeta.
  apply returns_bind' with (Q1 := fun v => fits 32 v = true);
    [apply well_behaved_u32 | apply returns_u32 | |].
  { intros prev_index. apply well_behaved_var_read. intros script.
    apply well_behaved_bind'; [apply well_behaved_u32|]. intros sequence.
    apply well_behaved_ret. }
  intros idx Hidx.
  apply (@returns_bind _ _ _varint _ (fun n => fits 64 n = true) (fun _ => True));
    [apply well_behaved_varint | intros self a self'; apply varint_fits
    | intros d p a self' _ _ _; exact I | |].
  { intros n Hn. apply fits_iff in Hn.
    apply well_behaved_bind'; [apply well_behaved_read; lia|]. intros script.
    apply well_behaved_bind'; [apply well_behaved_u32|]. intros sequence.
    apply well_behaved_ret. }
  intros n Hn _. pose proof Hn as Hn'. apply fits_iff in Hn'.
  apply returns_bind' with (Q1 := fun c => len c = n);
    [apply well_behaved_read; lia | apply returns_read; lia | |].
  { intros script. apply well_behaved_bind'; [apply well_behaved_u32|].
    intros sequence. apply well_behaved_ret. }
  intros script Hs.
  apply returns_bind' with (Q1 := fun v => fits 32 v = true);
    [apply well_behaved_u32 | apply returns_u32 | intros; apply well_behaved_ret |].
  intros sq Hsq. apply returns_ret.
  unfold input_in_range. cbn [prev_hash prev_index scriptSig sequence].
  rewrite is_txid_hex, Hidx, Hs, Hn, Hsq by exact Hh. reflexivity.
Qed.

Lemma returns_parse_output : returns parse_output (fun o => output_in_range o = true).
Proof.
  unfold parse_output.
  apply returns_bind' with (Q1 := fun v => fits 64 v = true);
    [apply well_behaved_u64 | apply returns_u64 | |].
  { intros value. apply well_behaved_var_read. intros script. apply well_behaved_ret. }
  intros v Hv.
  apply (@returns_bind _ _ _varint _ (fun n => fits 64 n = true) (fun _ => True));
    [apply well_behaved_varint | intros self a self'; apply varint_fits
    | intros d p a self' _ _ _; exact I | |].
  { intros n Hn. apply fits_iff in Hn.
    apply well_behaved_bind'; [apply well_behaved_read; lia|]. intros script.
    apply well_behaved_ret. }
  intros n Hn _. pose proof Hn as Hn'. apply fits_iff in Hn'.
  apply returns_bind' with (Q1 := fun c => len c = n);
    [apply well_behaved_read; lia | apply returns_read; lia
    | intros; apply well_behaved_ret |].
  intros script Hs. apply returns_ret.
  unfold output_in_range. cbn [value scriptPubKey]. rewrite Hv, Hs, Hn. reflexivity.
Qed.

(** The loop returns its accumulator followed by one checked item per
    iteration. *)
Lemma returns_loop {A : Type} (body : M A) (Q : A -> Prop) :
  well_behaved body -> returns body Q ->
  forall count acc,
    Forall Q acc ->
    returns (loop body count acc)
            (fun l => Forall Q l /\ List.length l = (List.length acc + count)%nat).
Proof.
  intros Hwb Hb. induction count as [| count IH]; intros acc Hacc; cbn [loop].
  - apply returns_ret. split; [exact Hacc | lia].
  - apply returns_bind' with (Q1 := Q);
      [exact Hwb | exact Hb | intros a; apply well_behaved_loop, Hwb |].
    intros a Ha d p l self' Hp H Hin.
    destruct (IH (acc ++ [a]) ltac:(apply Forall_app; split; [exact Hacc | constructor; [exact Ha | constructor]])
                 d p l self' Hp H Hin) as [Hl Hn].
    split; [exact Hl|]. rewrite Hn, length_app. cbn [List.length]. lia.
Qed.

Lemma forallb_of_Forall {A : Type} (f : A -> bool) (l : list A) :
  Forall (fun a => f a = true) l -> forallb f l = true.
Proof. intros H. apply forallb_forall. apply Forall_forall, H. Qed.

Lemma returns_parse_method : returns parse_method (fun tx => tx_in_range tx = true).
Proof.
  unfold parse_method.
  apply returns_bind' with (Q1 := fun v => - 2 ^ 31 <= v < 2 ^ 31);
    [apply well_behaved_i32 | apply returns_i32 | |].
  { intros version.
    apply well_behaved_bind'; [apply well_behaved_varint|]. intros in_count.
    apply well_behaved_bind'; [apply well_behaved_loop, well_behaved_parse_input|].
    intros inputs.
    apply well_behaved_bind'; [apply well_behaved_varint|]. intros out_count.
    apply well_behaved_bind'; [apply well_behaved_loop, well_behaved_parse_output|].
    intros outputs.
    apply well_behaved_bind'; [apply well_behaved_u32|]. intros locktime.
    apply well_behaved_ret. }
  intros v Hv.
  apply (@returns_bind _ _ _varint _ (fun n => fits 64 n = true) (fun _ => True));
    [apply well_behaved_varint | intros self a self'; apply varint_fits
    | intros d p a self' _ _ _; exact I | |].
  { intros in_count _.
    apply well_behaved_bind'; [apply well_behaved_loop, well_behaved_parse_input|].
    intros inputs.
    apply well_behaved_bind'; [apply well_behaved_varint|]. intros out_count.
    apply well_behaved_bind'; [apply well_behaved_loop, well_behaved_parse_output|].
    intros outputs.
    apply well_behaved_bind'; [apply well_behaved_u32|]. intros locktime.
    apply well_behaved_ret. }
  intros in_count Hic _. pose proof Hic as Hic'. apply fits_iff in Hic'.
  apply returns_bind'
    with (Q1 := fun l => Forall (fun i => input_in_range i = true) l
                         /\ List.length l = (List.length (@nil TxInput) + Z.to_nat in_count)%nat);
    [apply well_behaved_loop, well_behaved_parse_input
    | apply returns_loop; [apply well_behaved_parse_input | apply returns_parse_input | constructor]
    | |].
  { intros inputs.
    apply well_behaved_bind'; [apply well_behaved_varint|]. intros out_count.
    apply well_behaved_bind'; [apply well_behaved_loop, well_behaved_parse_output|].
    intros outputs.
    apply well_behaved_bind'; [apply well_behaved_u32|]. intros locktime.
    apply well_behaved_ret. }
  intros ins [Hins Hlins].
  apply (@returns_bind _ _ _varint _ (fun n => fits 64 n = true) (fun _ => True));
    [apply well_behaved_varint | intros self a self'; apply varint_fits
    | intros d p a self' _ _ _; exact I | |].
  { intros out_count _.
    apply well_behaved_bind'; [apply well_behaved_loop, well_behaved_parse_output|].
    intros outputs.
    apply well_behaved_bind'; [apply well_behaved_u32|]. intros locktime.
    apply well_behaved_ret. }
  intros out_count Hoc _. pose proof Hoc as Hoc'. apply fits_iff in Hoc'.
  apply returns_bind'
    with (Q1 := fun l => Forall (fun o => output_in_range o = true) l
                         /\ List.length l = (List.length (@nil TxOutput) + Z.to_nat out_count)%nat);
    [apply well_behaved_loop, well_behaved_parse_output
    | apply returns_loop; [apply well_behaved_parse_output | apply returns_parse_output | constructor]
    | |].
  { intros outputs.
    apply well_behaved_bind'; [apply well_behaved_u32|]. intros locktime.
    apply well_behaved_ret. }
  intros outs [Houts Hlouts].
  apply returns_bind' with (Q1 := fun v => fits 32 v = true);
    [apply well_behaved_u32 | apply returns_u32 | intros; apply well_behaved_ret |].
  intros lt Hlt. apply returns_ret.
  unfold tx_in_range. cbn [version inputs outputs locktime].
  cbn [List.length Nat.add] in Hlins, Hlouts.
  assert (Hli : len ins = in_count) by (unfold len; lia).
  assert (Hlo : len outs = out_count) by (unfold len; lia).
  rewrite Hli, Hlo, Hic, Hoc, Hlt, !forallb_of_Forall by assumption.
  destruct (Z.leb_spec (- 2 ^ 31) v); [| lia].
  destruct (Z.ltb_spec v (2 ^ 31)); [| lia]. reflexivity.
Qed.

(** Every record [parse] returns is in range. *)
Lemma parse_in_range (data : bytes) (tx : Tx) :
  parse data = inr tx -> tx_in_range tx = true.
Proof.
  intros H. apply parse_ok_inv in H. destruct H as (self' & H & _).
  apply (returns_parse_method data 0 tx self' ltac:(lia) H).
  apply (@parse_within_buffer data tx self' H).
Qed.

End ParserReturns.

(** ** What the parser reads for what it returns *)

Section ParserCosts.
Import CoinbaseTxParser ParserInvariants ParserPost.

Lemma fixed_pos (n : Z) (unpack : bytes -> result Z) (d : bytes) (p v : Z)
  (self' : parser) :
  (b <~ _read n ;; liftM (unpack b)) (at_ d p) = inr (v, self') ->
  self' = at_ d (p + n).
Proof.
  intros H. apply bindM_ok in H. destruct H as (c & s1 & H1 & H2).
  unfold _read in H1. cbn [at_ _data _pos] in H1. injection H1 as _ <-.
  unfold liftM in H2. destruct (unpack c); [discriminate|].
  injection H2 as _ <-. reflexivity.
Qed.

Lemma varint_pos (d : bytes) (p n : Z) (self' : parser) :
  _varint (at_ d p) = inr (n, self') ->
  _data self' = d /\ p + 1 <= _pos self' /\ 0 <= n.
Proof.
  intros H. pose proof (varint_nonneg _ _ _ H) as Hn.
  rewrite varint_unfold in H. cbn [at_ _data _pos] in H.
  destruct (index d p) as [e | b]; [discriminate|]. cbv zeta in H.
  destruct (byte.unsigned b <? 0xfd).
  { injection H as _ <-. cbn. repeat split; [lia | exact Hn]. }
  destruct (byte.unsigned b =? 0xfd);
    [| destruct (byte.unsigned b =? 0xfe)];
    apply fixed_pos in H; subst self'; cbn; repeat split; try lia; exact Hn.
Qed.

Lemma total_app {A : Type} (size : A -> Z) (l1 l2 : list A) :
  total size (l1 ++ l2) = total size l1 + total size l2.
Proof.
  unfold total. induction l1 as [| a l1 IH]; cbn [app fold_right]; [lia|].
  rewrite IH. lia.
Qed.

Lemma costs_loop {A : Type} (body : M A) (size : A -> Z) :
  well_behaved body -> costs body size ->
  forall count acc,
    costs (loop body count acc) (fun l => total size l - total size acc).
Proof.
  intros Hwb Hb. induction count as [| count IH]; intros acc d p l self' Hp H Hin.
  - cbn [loop] in H. injection H as <- <-. cbn [at_ _pos]. lia.
  - cbn [loop] in H. apply bindM_ok in H. destruct H as (a & s1 & H1 & H2).
    destruct (Hwb d p a s1 Hp H1) as (Hd & Hle & _).
    rewrite (parser_eta s1), Hd in H2.
    destruct (well_behaved_loop body Hwb count (acc ++ [a]) d (_pos s1) l self'
                ltac:(lia) H2) as (_ & Hle' & _).
    pose proof (Hb d p a s1 Hp H1 ltac:(lia)) as C1.
    pose proof (IH (acc ++ [a]) d (_pos s1) l self' ltac:(lia) H2 Hin) as C2.
    cbv beta in C2. rewrite total_app in C2. unfold total at 3 in C2.
    cbn [fold_right] in C2. lia.
Qed.

Lemma costs_parse_input : costs parse_input input_size.
Proof.
  intros d p i self' Hp H Hin. unfold parse_input in H.
  apply bindM_ok in H. destruct H as (h & s1 & H1 & H).
  unfold _read in H1. cbn [at_ _data _pos] in H1. injection H1 as _ <-.
  fold (at_ d (p + 32)) in H.
  apply bindM_ok in H. destruct H as (idx & s2 & H2 & H).
  apply fixed_pos in H2. subst s2.
  apply bindM_ok in H. destruct H as (n & s3 & H3 & H).
  apply varint_pos in H3. destruct H3 as (D3 & L3 & Hn).
  rewrite (parser_eta s3), D3 in H.
  apply bindM_ok in H. destruct H as (script & s4 & H4 & H).
  unfold _read in H4. cbn [at_ _data _pos] in H4. injection H4 as Hs <-.
  fold (at_ d (_pos s3 + n)) in H.
  apply bindM_ok in H. destruct H as (sq & s5 & H5 & H).
  apply fixed_pos in H5. subst s5.
  unfold retM, ok in H. injection H as <- <-. cbn [at_ _pos] in Hin |- *.
  unfold input_size. cbn [scriptSig]. rewrite <- Hs.
  unfold len at 1. rewrite length_slice by lia. lia.
Qed.

Lemma costs_parse_output : costs parse_output output_size.
Proof.
  intros d p o self' Hp H Hin. unfold parse_output in H.
  apply bindM_ok in H. destruct H as (v & s1 & H1 & H).
  apply fixed_pos in H1. subst s1.
  apply bindM_ok in H. destruct H as (n & s2 & H2 & H).
  apply varint_pos in H2. destruct H2 as (D2 & L2 & Hn).
  rewrite (parser_eta s2), D2 in H.
  apply bindM_ok in H. destruct H as (script & s3 & H3 & H).
  unfold _read in H3. cbn [at_ _data _pos] in H3. injection H3 as Hs <-.
  unfold retM, ok in H. injection H as <- <-. cbn [at_ _pos] in Hin |- *.
  unfold output_size. cbn [scriptPubKey]. rewrite <- Hs.
  unfold len at 1. rewrite length_slice by lia. lia.
Qed.

Lemma costs_parse_method : costs parse_method tx_size.
Proof.
  intros d p tx self' Hp H Hin. unfold parse_method in H.
  apply bindM_ok in H. destruct H as (v & s1 & H1 & H).
  apply fixed_pos in H1. subst s1.
  apply bindM_ok in H. destruct H as (ic & s2 & H2 & H).
  apply varint_pos in H2. destruct H2 as (D2 & L2 & _).
  rewrite (parser_eta s2), D2 in H.
  apply bindM_ok in H. destruct H as (ins & s3 & H3 & H).
  destruct (well_behaved_loop parse_input well_behaved_parse_input _ _ d (_pos s2) ins s3
              ltac:(lia) H3) as (D3 & L3 & _).
  rewrite (parser_eta s3), D3 in H.
  apply bindM_ok in H. destruct H as (oc & s4 & H4 & H).
  apply varint_pos in H4. destruct H4 as (D4 & L4 & _).
  rewrite (parser_eta s4), D4 in H.
  apply bindM_ok in H. destruct H as (outs & s5 & H5 & H).
  destruct (well_behaved_loop parse_output well_behaved_parse_output _ _ d (_pos s4) outs s5
              ltac:(lia) H5) as (D5 & L5 & _).
  rewrite (parser_eta s5), D5 in H.
  apply bindM_ok in H. destruct H as (lt & s6 & H6 & H).
  apply fixed_pos in H6. subst s6.
  unfold retM, ok in H. injection H as <- <-. cbn [at_ _pos] in Hin |- *.
  pose proof (costs_loop parse_input input_size well_behaved_parse_input costs_parse_input
                _ _ d (_pos s2) ins s3 ltac:(lia) H3 ltac:(lia)) as C3.
  pose proof (costs_loop parse_output output_size well_behaved_parse_output costs_parse_output
                _ _ d (_pos s4) outs s5 ltac:(lia) H5 ltac:(lia)) as C5.
  cbv beta in C3, C5. unfold total at 2 in C3. unfold total at 2 in C5.
  cbn [fold_right] in C3, C5.
  unfold tx_size. cbn [inputs outputs]. lia.
Qed.

End ParserCosts.

(** ** Coinbase field decoders: supporting facts *)

Section CoinbaseSupport.
Import Coinbase CoinbaseSpec.

Variable ucd_printable : Z -> bool.
Variable ucd_space : Z -> bool.

Lemma lstrip_suffix (l : text) : exists a, l = a ++ lstrip ucd_space l.
Proof.
  induction l as [| c l IH]; [exists []; reflexivity|].
  cbn [lstrip]. destruct (isspace ucd_space c).
  - destruct IH as (a & IH). exists (c :: a). cbn. f_equal. exact IH.
  - exists []. reflexivity.
Qed.

Lemma lstrip_head (l : text) (c : Z) (r : text) :
  lstrip ucd_space l = c :: r -> isspace ucd_space c = false.
Proof.
  induction l as [| x l IH]; [discriminate|].
  cbn [lstrip]. destruct (isspace ucd_space x) eqn:E; [exact IH|].
  intros H. injection H as <- _. exact E.
Qed.

(** [strip] keeps a contiguous part of the text. *)
Lemma strip_middle (l : text) : exists a b, l = a ++ strip ucd_space l ++ b.
Proof.
  unfold strip. destruct (lstrip_suffix l) as (a & Ha).
  destruct (lstrip_suffix (rev (lstrip ucd_space l))) as (b & Hb).
  exists a, (rev b). rewrite <- rev_app_distr, <- Hb, rev_involutive. exact Ha.
Qed.

Lemma strip_first (l : text) (c : Z) (r : text) :
  strip ucd_space l = c :: r -> isspace ucd_space c = false.
Proof.
  unfold strip. intros H.
  destruct (lstrip_suffix (rev (lstrip ucd_space l))) as (b & Hb).
  apply (f_equal (@rev Z)) in Hb. rewrite rev_involutive, rev_app_distr, H in Hb.
  apply (lstrip_head l c (r ++ rev b)). exact Hb.
Qed.

Lemma strip_last (l : text) (c : Z) (f : text) :
  strip ucd_space l = f ++ [c] -> isspace ucd_space c = false.
Proof.
  unfold strip. intros H.
  apply (f_equal (@rev Z)) in H. rewrite rev_involutive, rev_app_distr in H.
  apply (lstrip_head (rev (lstrip ucd_space l)) c (rev f)). exact H.
Qed.

Lemma decode_utf8_length_bounded (n : nat) :
  forall b t, (List.length b <= n)%nat -> decode_utf8 b = inr t ->
    (List.length t <= List.length b)%nat.
Proof.
  induction n as [| n IH]; intros b t Hn H.
  - destruct b; [injection H as <-; cbn; lia | cbn in Hn; lia].
  - destruct b as [| b0 r0]; [injection H as <-; cbn; lia|].
    cbn [decode_utf8 List.length] in *.
    repeat match type of H with
           | (if ?c then _ else _) = inr _ => destruct c
           | match ?l with [] => _ | _ :: _ => _ end = inr _ =>
               destruct l; cbn [List.length] in Hn |- *
           | Py.bind (decode_utf8 ?r) _ = inr _ =>
               let E := fresh "E" in
               destruct (decode_utf8 r) eqn:E;
               [discriminate H | apply IH in E; [| cbn [List.length]; lia];
                                 cbn [Py.bind] in H]
           end;
      try discriminate H;
      try (injection H as <-; cbn [List.length] in *; lia).
Qed.

Lemma decoded_length (raw : bytes) :
  (List.length (decoded raw) <= List.length raw)%nat.
Proof.
  unfold decoded. destruct (decode_utf8 raw) as [e | t] eqn:E.
  - unfold decode_latin1. rewrite length_map. lia.
  - apply (decode_utf8_length_bounded (List.length raw)); [lia | exact E].
Qed.

Lemma clean_spec (t : text) :
  Forall (fun c => isprintable ucd_printable c = true \/ c = 32)
         (clean ucd_printable ucd_space t)
  /\ (List.length (clean ucd_printable ucd_space t) <= List.length t)%nat.
Proof.
  unfold clean.
  set (kept := filter (fun c => isprintable ucd_printable c || (c =? 32)) t).
  destruct (strip_middle kept) as (a & b & Hk).
  assert (Hin : forall c, In c (strip ucd_space kept) -> In c kept).
  { intros c Hc. rewrite Hk. apply in_or_app. right. apply in_or_app. left. exact Hc. }
  split.
  - apply Forall_forall. intros c Hc. apply Hin in Hc.
    unfold kept in Hc. apply filter_In in Hc. destruct Hc as [_ Hc].
    apply orb_true_iff in Hc. destruct Hc as [Hc | Hc]; [left; exact Hc|].
    right. apply Z.eqb_eq. exact Hc.
  - pose proof (filter_length_le (fun c => isprintable ucd_printable c || (c =? 32)) t) as Hf.
    fold kept in Hf.
    apply (f_equal (@List.length Z)) in Hk. rewrite !length_app in Hk. lia.
Qed.

End CoinbaseSupport.

(** ** The script classifier: supporting facts *)

Section ScriptSupport.
Import Script.

Lemma slice_part {A : Type} (l : list A) (lo hi : Z) :
  exists pre post, l = pre ++ slice l lo hi ++ post.
Proof.
  unfold slice.
  set (a := Z.to_nat (adjust (len l) lo)).
  set (n := Z.to_nat (adjust (len l) hi - adjust (len l) lo)).
  exists (firstn a l), (skipn n (skipn a l)).
  rewrite (firstn_skipn n (skipn a l)), firstn_skipn. reflexivity.
Qed.

Lemma slice_from_part {A : Type} (l : list A) (lo : Z) :
  exists pre post, l = pre ++ slice_from l lo ++ post.
Proof.
  unfold slice_from. set (a := Z.to_nat (adjust (len l) lo)).
  exists (firstn a l), []. rewrite app_nil_r, firstn_skipn. reflexivity.
Qed.

Lemma whole_part {A : Type} (l : list A) : exists pre post, l = pre ++ l ++ post.
Proof. exists [], []. rewrite app_nil_r. reflexivity. Qed.

Lemma bytes_eqb_eq (a b : bytes) : bytes_eqb a b = true <-> a = b.
Proof.
  unfold bytes_eqb. destruct (list_eq_dec Byte.byte_eq_dec a b); split; congruence.
Qed.

Lemma bytes_eqb_refl (a : bytes) : bytes_eqb a a = true.
Proof. apply bytes_eqb_eq. reflexivity. Qed.

Lemma slice_from_whole {A : Type} (pre post : list A) :
  slice_from (pre ++ post) (len pre) = post.
Proof.
  rewrite slice_from_skipn by apply len_nonneg.
  unfold len. rewrite Nat2Z.id, skipn_app, skipn_all, Nat.sub_diag. reflexivity.
Qed.

Lemma slice_to_whole {A : Type} (pre post : list A) :
  slice_to (pre ++ post) (len pre) = pre.
Proof.
  rewrite slice_to_firstn by apply len_nonneg.
  unfold len. rewrite Nat2Z.id, firstn_app, firstn_all, Nat.sub_diag.
  cbn [firstn]. apply app_nil_r.
Qed.

End ScriptSupport.

(** ** [_stratum_recv]: supporting facts *)

Section RecvSupport.
Import Recv.
Context {J : Type}.
Variable loads : bytes -> loaded J.

Lemma split_newline_none (buf : bytes) :
  split_newline buf = None ->
  forall cur results, scan loads cur buf results = inr (cur ++ buf, results).
Proof.
  induction buf as [| b r IH]; intros H cur results.
  - rewrite app_nil_r. reflexivity.
  - cbn [split_newline] in H. cbn [scan].
    destruct (is_newline b); [discriminate H|].
    destruct (split_newline r) as [[l rest] |]; [discriminate H|].
    rewrite (IH eq_refl), <- app_assoc. reflexivity.
Qed.

Lemma split_newline_some (buf : bytes) :
  forall line rest, split_newline buf = Some (line, rest) ->
    (List.length rest < List.length buf)%nat
    /\ forall cur results,
         scan loads cur buf results
         = (results' <- deliver loads (cur ++ line) results ;; scan loads [] rest results').
Proof.
  induction buf as [| b r IH]; intros line rest H; [discriminate H|].
  cbn [split_newline] in H. cbn [scan List.length].
  destruct (is_newline b).
  - injection H as <- <-. split; [lia|]. intros cur results.
    rewrite app_nil_r. reflexivity.
  - destruct (split_newline r) as [[l rest'] |]; [| discriminate H].
    injection H as <- <-. destruct (IH l rest' eq_refl) as [Hl Hs].
    split; [lia|]. intros cur results.
    rewrite Hs, <- app_assoc. reflexivity.
Qed.

(** The budget of the inner loop is never exhausted. *)
Lemma drain_scan (fuel : nat) :
  forall buf results, (List.length buf <= fuel)%nat ->
    drain loads fuel buf results = scan loads [] buf results.
Proof.
  induction fuel as [| fuel IH]; intros buf results Hf.
  - destruct buf; [reflexivity | cbn in Hf; lia].
  - cbn [drain]. destruct (split_newline buf) as [[line rest] |] eqn:E.
    + destruct (split_newline_some buf line rest E) as [Hl Hs].
      rewrite Hs. cbn [app].
      destruct (deliver loads line results) as [e | r']; [reflexivity|].
      cbn [Py.bind]. apply IH. lia.
    + rewrite (split_newline_none buf E). reflexivity.
Qed.

Lemma drain_scan_0 (buf : bytes) (results : list J) :
  split_newline buf = None -> drain loads 0 buf results = scan loads [] buf results.
Proof.
  intros E. destruct buf; [reflexivity|]. cbn [drain]. rewrite E.
  rewrite (split_newline_none _ E). reflexivity.
Qed.

Lemma scan_app (a b : bytes) :
  forall cur results,
    scan loads cur (a ++ b) results
    = (st <- scan loads cur a results ;; scan loads (fst st) b (snd st)).
Proof.
  induction a as [| x a IH]; intros cur results; [reflexivity|].
  cbn [app scan]. destruct (is_newline x).
  - destruct (deliver loads cur results) as [e | r']; [reflexivity|].
    cbn [Py.bind]. apply IH.
  - apply IH.
Qed.

Lemma split_newline_app_none (a b : bytes) :
  split_newline a = None -> split_newline b = None -> split_newline (a ++ b) = None.
Proof.
  induction a as [| x a IH]; intros Ha Hb; [exact Hb|].
  cbn [app split_newline] in *. destruct (is_newline x); [discriminate Ha|].
  destruct (split_newline a) as [[l r] |]; [discriminate Ha|].
  rewrite (IH eq_refl Hb). reflexivity.
Qed.

Lemma split_newline_single (b : byte) :
  is_newline b = false -> split_newline [b] = None.
Proof. intros H. cbn [split_newline]. rewrite H. reflexivity. Qed.

(** What [scan] leaves in the buffer holds no newline. *)
Lemma scan_leftover (buf : bytes) :
  forall cur results left results',
    split_newline cur = None ->
    scan loads cur buf results = inr (left, results') ->
    split_newline left = None.
Proof.
  induction buf as [| b r IH]; intros cur results left results' Hc H.
  - cbn in H. injection H as <- _. exact Hc.
  - cbn [scan] in H. destruct (is_newline b) eqn:Eb.
    + apply bind_ok in H. destruct H as (r' & _ & H).
      apply (IH [] r' left results' eq_refl H).
    + apply (IH (cur ++ [b]) results left results'); [| exact H].
      apply split_newline_app_none; [exact Hc | apply split_newline_single, Eb].
Qed.

Lemma scan_from_leftover (left buf : bytes) (results : list J) :
  split_newline left = None ->
  scan loads [] (left ++ buf) results = scan loads left buf results.
Proof.
  intros H. rewrite scan_app, (split_newline_none left H). reflexivity.
Qed.

(** The outer loop is the scan of everything that arrived. *)
Lemma recv_loop_scan (script : list event) :
  forall buf results,
    split_newline buf = None ->
    recv_loop loads script buf results
    = (st <- scan loads buf (delivered script) results ;; ok (snd st)).
Proof.
  induction script as [| ev script IH]; intros buf results Hb; [reflexivity|].
  destruct ev as [[| c0 c'] | |]; try reflexivity.
  cbn [recv_loop delivered]. rewrite drain_scan by lia.
  rewrite (scan_from_leftover buf (c0 :: c') results Hb).
  rewrite (scan_app (c0 :: c') (delivered script)).
  destruct (scan loads buf (c0 :: c') results) as [e | [left r']] eqn:E; [reflexivity|].
  cbn [Py.bind fst snd]. apply IH.
  apply (scan_leftover (c0 :: c') buf results left r' Hb E).
Qed.

Lemma scan_line (line rest : bytes) (cur : bytes) (results : list J) :
  Forall (fun b => is_newline b = false) line ->
  scan loads cur (line ++ [Byte.x0a] ++ rest) results
  = (results' <- deliver loads (cur ++ line) results ;; scan loads [] rest results').
Proof.
  intros H. revert cur. induction H as [| b line Hb _ IH]; intros cur.
  - cbn [app scan]. change (is_newline Byte.x0a) with true. cbv iota.
    rewrite app_nil_r. reflexivity.
  - cbn [app scan]. rewrite Hb. rewrite IH, <- app_assoc. reflexivity.
Qed.

Lemma no_newline_split (l : bytes) :
  Forall (fun b => is_newline b = false) l -> split_newline l = None.
Proof.
  induction 1 as [| b l Hb _ IH]; [reflexivity|].
  cbn [split_newline]. rewrite Hb, IH. reflexivity.
Qed.

(** The scan of whole lines and an unfinished one. *)
Lemma scan_lines (lines : list bytes) (partial : bytes) :
  Forall (Forall (fun b => is_newline b = false)) lines ->
  Forall (fun b => is_newline b = false) partial ->
  (forall l e, In l lines -> loads (bstrip l) <> Fails e) ->
  forall results,
    scan loads [] (wire lines ++ partial) results
    = inr (partial, results ++ messages loads lines).
Proof.
  intros Hl Hp. induction Hl as [| l lines Hline _ IH]; intros Hf results.
  - cbn [wire flat_map app messages]. rewrite app_nil_r.
    apply (split_newline_none partial (no_newline_split partial Hp)).
  - cbn [wire flat_map messages]. fold (wire lines). fold (messages loads lines).
    rewrite <- !app_assoc. rewrite (scan_line l (wire lines ++ partial) [] results Hline).
    cbn [app]. unfold deliver, ok.
    destruct (bstrip l) as [| s0 s'] eqn:Es.
    + cbn [Py.bind app]. apply IH. intros l' e Hin. apply Hf. right. exact Hin.
    + pose proof (Hf l) as Hfl. rewrite Es in Hfl.
      destruct (loads (s0 :: s')) as [j | | e] eqn:El.
      * cbn [Py.bind]. rewrite IH by (intros l' e Hin; apply Hf; right; exact Hin).
        rewrite <- app_assoc. reflexivity.
      * cbn [Py.bind app]. apply IH. intros l' e Hin. apply Hf. right. exact Hin.
      * exfalso. apply (Hfl e); [left; reflexivity | reflexivity].
Qed.

End RecvSupport.

Lemma wire_snoc (lines : list bytes) (line : bytes) :
  Recv.wire (lines ++ [line]) = Recv.wire lines ++ line ++ [Byte.x0a].
Proof.
  unfold Recv.wire. rewrite flat_map_app. cbn [flat_map].
  rewrite app_nil_r. reflexivity.
Qed.

(** ** The subscribe phase: supporting facts *)

Section SubscribeSupport.
Import Stratum Subscribe.

Lemma subscribe_loop_spec (responses : list frame) :
  forall st st',
    subscribe_loop responses st = inr (Some st') ->
    forallb (fun r => negb (is_failure r)) responses = true
    /\ match find is_success (rev responses) with
       | Some r => item (get_result r) 1 = inr (extranonce1 st')
                   /\ item (get_result r) 2 = inr (extranonce2_size st')
       | None => st' = st
       end.
Proof.
  induction responses as [| r responses IH]; intros st st' H.
  - cbn in H. injection H as <-. split; reflexivity.
  - cbn [subscribe_loop] in H. cbn [forallb rev]. rewrite find_app. cbn [find].
    unfold is_failure, is_success.
    destruct (is_one (get_id r)); cbn [andb negb].
    2:{ apply IH in H. destruct H as [Hf Hs]. split; [exact Hf|].
        destruct (find _ (rev responses)); exact Hs. }
    destruct (truthy (get_result r)); cbn [andb negb].
    + apply bind_ok in H. destruct H as (e1 & H1 & H).
      apply bind_ok in H. destruct H as (e2 & H2 & H).
      apply IH in H. destruct H as [Hf Hs]. split; [exact Hf|].
      destruct (find _ (rev responses)); [exact Hs|].
      subst st'. split; assumption.
    + destruct (truthy (get_error r)); [discriminate H|]. cbn [negb andb].
      apply IH in H. destruct H as [Hf Hs]. split; [exact Hf|].
      destruct (find _ (rev responses)); exact Hs.
Qed.

End SubscribeSupport.

(** ** The address encoders lose nothing: supporting facts *)

Section InjectSupport.
Import CashAddr CashAddrSpec RepackSpec Alphabet.

(** Digit strings of one length that denote the same number are equal. *)
Lemma value_inj (w : Z) (a : list Z) :
  0 < w -> forall b,
    digits_fit w a -> digits_fit w b -> List.length a = List.length b ->
    value w a = value w b -> a = b.
Proof.
  intros Hw. induction a as [| x a IH]; intros b Ha Hb Hl Hv.
  - destruct b; [reflexivity | discriminate Hl].
  - destruct b as [| y b]; [discriminate Hl|].
    inversion Ha as [| ? ? Hx Ha']; subst. inversion Hb as [| ? ? Hy Hb']; subst.
    cbn [List.length] in Hl. injection Hl as Hl.
    rewrite (value_cons w x a Hw Ha'), (value_cons w y b Hw Hb') in Hv.
    destruct (value_from_bounds w a Hw Ha' 0) as [_ Ba].
    destruct (value_from_bounds w b Hw Hb' 0) as [_ Bb].
    assert (El : len a = len b) by (unfold len; lia).
    rewrite El in Hv, Ba.
    assert (HP : 0 < (2 ^ w) ^ len b)
      by (apply Z.pow_pos_nonneg; [apply pow2_pos; lia | apply len_nonneg]).
    generalize dependent ((2 ^ w) ^ len b). intros P Hv Ba Bb HP.
    assert (x = y) by nia. subst y.
    f_equal. apply IH; [exact Ha' | exact Hb' | exact Hl | lia].
Qed.

Lemma position_in_charset (d : Z) (c : ascii) :
  five_bit d -> str_index _CASHADDR_CHARSET d = inr c ->
  position c _CASHADDR_CHARSET = d.
Proof.
  unfold five_bit. intros Hd H.
  assert (E : d = 0 \/ d = 1 \/ d = 2 \/ d = 3 \/ d = 4 \/ d = 5 \/ d = 6 \/ d = 7
              \/ d = 8 \/ d = 9 \/ d = 10 \/ d = 11 \/ d = 12 \/ d = 13 \/ d = 14
              \/ d = 15 \/ d = 16 \/ d = 17 \/ d = 18 \/ d = 19 \/ d = 20 \/ d = 21
              \/ d = 22 \/ d = 23 \/ d = 24 \/ d = 25 \/ d = 26 \/ d = 27 \/ d = 28
              \/ d = 29 \/ d = 30 \/ d = 31) by lia.
  repeat (destruct E as [-> | E];
          [vm_compute in H; injection H as <-; vm_compute; reflexivity|]).
  subst d. vm_compute in H. injection H as <-. vm_compute. reflexivity.
Qed.

Lemma charset_digits_inj (l1 : list Z) :
  forall l2 chars,
    Forall five_bit l1 -> Forall five_bit l2 ->
    mapM (str_index _CASHADDR_CHARSET) l1 = inr chars ->
    mapM (str_index _CASHADDR_CHARSET) l2 = inr chars ->
    l1 = l2.
Proof.
  induction l1 as [| d1 l1 IH]; intros l2 chars H1 H2 E1 E2.
  - cbn in E1. injection E1 as <-. destruct l2 as [| d2 l2]; [reflexivity|].
    cbn [mapM] in E2. apply bind_ok in E2. destruct E2 as (c & _ & E2).
    apply bind_ok in E2. destruct E2 as (r & _ & E2). discriminate E2.
  - cbn [mapM] in E1. apply bind_ok in E1. destruct E1 as (c1 & Hc1 & E1).
    apply bind_ok in E1. destruct E1 as (r1 & Hr1 & E1). injection E1 as <-.
    destruct l2 as [| d2 l2]; [discriminate E2|].
    cbn [mapM] in E2. apply bind_ok in E2. destruct E2 as (c2 & Hc2 & E2).
    apply bind_ok in E2. destruct E2 as (r2 & Hr2 & E2). injection E2 as -> ->.
    inversion H1 as [| ? ? Hd1 H1']; subst. inversion H2 as [| ? ? Hd2 H2']; subst.
    f_equal.
    + rewrite <- (position_in_charset d1 c1 Hd1 Hc1).
      apply (position_in_charset d2 c1 Hd2 Hc2).
    + apply (IH l2 r1 H1' H2' Hr1 Hr2).
Qed.

Lemma string_of_list_ascii_inj (a b : list ascii) :
  string_of_list_ascii a = string_of_list_ascii b -> a = b.
Proof.
  intros H. apply (f_equal list_ascii_of_string) in H.
  rewrite !list_ascii_of_string_of_list_ascii in H. exact H.
Qed.

Lemma app_inj_length {A : Type} (a b x y : list A) :
  List.length a = List.length b -> a ++ x = b ++ y -> a = b /\ x = y.
Proof.
  revert b. induction a as [| u a IH]; intros b Hl H.
  - destruct b; [split; [reflexivity | exact H] | discriminate Hl].
  - destruct b as [| v b]; [discriminate Hl|].
    cbn [List.length] in Hl. injection Hl as Hl.
    cbn [app] in H. injection H as -> H.
    destruct (IH b Hl H) as [-> ->]. split; reflexivity.
Qed.

Lemma map_unsigned_inj (a b : bytes) :
  map byte.unsigned a = map byte.unsigned b -> a = b.
Proof.
  revert b. induction a as [| x a IH]; intros b H.
  - destruct b; [reflexivity | discriminate H].
  - destruct b as [| y b]; [discriminate H|].
    cbn [map] in H. injection H as Hx H.
    apply byte.unsigned_inj in Hx. subst y. f_equal. apply IH, H.
Qed.

(** The payload digits determine the re-packed bytes. *)
Lemma convert_bits_inj (d1 d2 p : list Z) :
  digits_fit 8 d1 -> digits_fit 8 d2 -> List.length d1 = List.length d2 ->
  _convert_bits d1 8 5 true = inr p -> _convert_bits d2 8 5 true = inr p ->
  d1 = d2.
Proof.
  intros F1 F2 Hl E1 E2.
  destruct (convert_bits_value 8 5 d1 p ltac:(lia) ltac:(lia) F1 E1) as (_ & L1 & V1).
  destruct (convert_bits_value 8 5 d2 p ltac:(lia) ltac:(lia) F2 E2) as (_ & _ & V2).
  assert (El : len d1 = len d2) by (unfold len; lia).
  rewrite <- El in V2. rewrite V1 in V2.
  assert (Hk : 0 <= len p * 5 - 8 * len d1).
  { rewrite L1. pose proof (Z.div_mod (8 * len d1 + 5 - 1) 5 ltac:(lia)).
    pose proof (Z.mod_pos_bound (8 * len d1 + 5 - 1) 5 ltac:(lia)). lia. }
  pose proof (pow2_pos _ Hk) as Hp.
  apply (value_inj 8 d1 ltac:(lia) d2 F1 F2 Hl). nia.
Qed.

End InjectSupport.

Section Base58Support.
Import Legacy RepackSpec Alphabet.

Lemma position_in_alphabet (d : Z) (c : ascii) :
  0 <= d < 58 -> str_index _BASE58_ALPHABET d = inr c ->
  position c _BASE58_ALPHABET = d.
Proof.
  intros Hd H. rewrite <- (Z2Nat.id d) in * by lia.
  assert (Hk : (Z.to_nat d < 58)%nat) by lia.
  generalize dependent (Z.to_nat d). clear d. intros k _ H Hk.
  do 58 (destruct k as [| k];
         [vm_compute in H; injection H as <-; vm_compute; reflexivity|]).
  lia.
Qed.

Lemma alphabet_total (d : Z) :
  0 <= d < 58 -> exists c, str_index _BASE58_ALPHABET d = inr c.
Proof. intros Hd. apply str_index_in_range. exact Hd. Qed.

Lemma value58_app (s1 s2 : string) :
  forall acc, value58 acc (s1 ++ s2) = value58 (value58 acc s1) s2.
Proof.
  induction s1 as [| c s1 IH]; intros acc; [reflexivity|].
  cbn [String.append value58]. apply IH.
Qed.

Lemma append_assoc (a b c : string) : ((a ++ b) ++ c = a ++ (b ++ c))%string.
Proof. induction a as [| x a IH]; cbn; [reflexivity | now rewrite IH]. Qed.

(** The loop writes the number in base 58. *)
Lemma base58_while_value (fuel : nat) :
  forall n s r, 0 <= n ->
    base58_while fuel n s = inr r ->
    exists ds, r = (ds ++ s)%string /\ value58 0 ds = n.
Proof.
  induction fuel as [| fuel IH]; intros n s r Hn H.
  - cbn [base58_while] in H. destruct (Z.gtb_spec n 0); [discriminate H|].
    injection H as <-. exists EmptyString. split; [reflexivity | cbn; lia].
  - cbn [base58_while] in H. destruct (Z.gtb_spec n 0) as [Hpos | Hz].
    + apply bind_ok in H. destruct H as (c & Hc & H).
      apply IH in H; [| apply Z.div_pos; lia].
      destruct H as (ds & -> & Hv).
      exists (ds ++ String c EmptyString)%string. split.
      * rewrite append_assoc. reflexivity.
      * rewrite value58_app, Hv. cbn [value58].
        rewrite (position_in_alphabet (n mod 58) c); [| apply Z.mod_pos_bound; lia | exact Hc].
        pose proof (Z.div_mod n 58 ltac:(lia)). lia.
    + injection H as <-. exists EmptyString. split; [reflexivity | cbn; lia].
Qed.

Lemma ones_shift (k : nat) (s : string) :
  (ones k ++ String "1" s = String "1" (ones k ++ s))%string.
Proof. induction k as [| k IH]; cbn; [reflexivity | now rewrite IH]. Qed.

Lemma leading_ones_spec (data : bytes) :
  forall s, leading_ones data s = (ones (leading_zeros data) ++ s)%string.
Proof.
  induction data as [| b data IH]; intros s; [reflexivity|].
  cbn [leading_ones leading_zeros]. destruct (byte.unsigned b =? 0); [| reflexivity].
  rewrite IH. cbn [ones String.append]. apply ones_shift.
Qed.

Lemma value58_ones (k : nat) : value58 0 (ones k) = 0.
Proof. induction k as [| k IH]; [reflexivity | exact IH]. Qed.

Lemma length_append (a b : string) :
  String.length (a ++ b) = (String.length a + String.length b)%nat.
Proof. induction a as [| x a IH]; cbn; [reflexivity | now rewrite IH]. Qed.

Lemma length_ones (k : nat) : String.length (ones k) = k.
Proof. induction k as [| k IH]; cbn; [reflexivity | now rewrite IH]. Qed.

(** [int.from_bytes(b, 'big')] reads the bytes as base-256 digits. *)
Lemma big_endian_value (b : bytes) :
  int_from_bytes_big b = value 8 (map byte.unsigned b).
Proof.
  unfold int_from_bytes_big. induction b as [| x b IH] using rev_ind; [reflexivity|].
  rewrite rev_app_distr, map_app. cbn [rev app map le_combine].
  unfold value. rewrite fold_left_app. cbn [fold_left].
  fold (value 8 (map byte.unsigned b)). rewrite <- IH.
  change (le_combine (x :: rev b))
    with (Z.lor (byte.unsigned x) (Z.shiftl (le_combine (rev b)) 8)).
  rewrite Z.lor_comm. apply lor_shifted_small; [lia | apply byte_unsigned_range].
Qed.

Lemma leading_zeros_split (data : bytes) :
  exists d, data = repeat Byte.x00 (leading_zeros data) ++ d
            /\ match d with [] => True | b :: _ => 0 < byte.unsigned b end.
Proof.
  induction data as [| b data IH].
  - exists []. split; [reflexivity | exact I].
  - cbn [leading_zeros]. destruct (Z.eqb_spec (byte.unsigned b) 0) as [E | E].
    + destruct IH as (d & Hd & Hh). exists d. split; [| exact Hh].
      cbn [repeat app]. f_equal; [| exact Hd].
      apply byte.unsigned_inj. rewrite E. reflexivity.
    + exists (b :: data). split; [reflexivity|].
      pose proof (byte_unsigned_range b). lia.
Qed.

Lemma value_leading_zeros (k : nat) (d : list Z) (w : Z) :
  value w (repeat 0 k ++ d) = value w d.
Proof.
  unfold value. induction k as [| k IH]; [reflexivity|].
  cbn [repeat app fold_left]. replace (0 * 2 ^ w + 0) with 0 by lia. exact IH.
Qed.

Lemma value_lower_bound (w x : Z) (l : list Z) :
  0 < w -> digits_fit w l -> 0 < x -> (2 ^ w) ^ len l <= value w (x :: l).
Proof.
  intros Hw Hl Hx. rewrite (value_cons w x l Hw Hl).
  destruct (value_from_bounds w l Hw Hl 0) as [_ B].
  assert (0 < (2 ^ w) ^ len l)
    by (apply Z.pow_pos_nonneg; [apply pow2_pos; lia | apply len_nonneg]).
  nia.
Qed.

(** Digit strings without a leading zero that denote one number are
    equal. *)
Lemma value_inj_no_leading_zero (w : Z) (a b : list Z) :
  0 < w -> digits_fit w a -> digits_fit w b ->
  match a with [] => True | x :: _ => 0 < x end ->
  match b with [] => True | x :: _ => 0 < x end ->
  value w a = value w b -> a = b.
Proof.
  intros Hw Fa Fb Ha Hb Hv.
  assert (Hshort : forall a b, digits_fit w a -> digits_fit w b ->
             match b with [] => True | x :: _ => 0 < x end ->
             (List.length a < List.length b)%nat -> value w a < value w b).
  { clear a b Fa Fb Ha Hb Hv. intros a b Fa Fb Hb Hl.
    destruct b as [| y b]; [cbn in Hl; lia|].
    inversion Fb as [| ? ? _ Fb']; subst.
    destruct (value_from_bounds w a Hw Fa 0) as [_ Ba].
    pose proof (value_lower_bound w y b Hw Fb' Hb) as Bb.
    assert ((2 ^ w) ^ len a <= (2 ^ w) ^ len b).
    { apply Z.pow_le_mono_r; [apply pow2_pos; lia|].
      unfold len. cbn [List.length] in Hl. lia. }
    lia. }
  destruct (Nat.lt_trichotomy (List.length a) (List.length b)) as [L | [L | L]].
  - pose proof (Hshort a b Fa Fb Hb L). lia.
  - apply (value_inj w a Hw b Fa Fb L Hv).
  - pose proof (Hshort b a Fb Fa Ha L). lia.
Qed.

(** The Base58 string of a byte string determines the byte string. *)
Lemma base58_data_inj (fuel1 fuel2 : nat) (d1 d2 : bytes) (r1 r2 : string) :
  base58_while fuel1 (int_from_bytes_big d1) EmptyString = inr r1 ->
  base58_while fuel2 (int_from_bytes_big d2) EmptyString = inr r2 ->
  leading_ones d1 r1 = leading_ones d2 r2 ->
  d1 = d2.
Proof.
  intros H1 H2 E.
  assert (N1 : 0 <= int_from_bytes_big d1) by (unfold int_from_bytes_big; apply le_combine_bound).
  assert (N2 : 0 <= int_from_bytes_big d2) by (unfold int_from_bytes_big; apply le_combine_bound).
  destruct (base58_while_value fuel1 _ _ _ N1 H1) as (s1 & -> & V1).
  destruct (base58_while_value fuel2 _ _ _ N2 H2) as (s2 & -> & V2).
  rewrite !append_empty_r in E. rewrite !leading_ones_spec in E.
  assert (Ev : int_from_bytes_big d1 = int_from_bytes_big d2).
  { rewrite <- V1, <- V2.
    pose proof (f_equal (value58 0) E) as Hv.
    rewrite !value58_app, !value58_ones in Hv. exact Hv. }
  assert (Es : s1 = s2).
  { clear E. revert V1 V2. rewrite Ev. intros V1 V2.
    rewrite Ev in H1.
    assert (forall f1 f2 n s a b, base58_while f1 n s = inr a ->
                                   base58_while f2 n s = inr b -> a = b) as Hdet.
    { clear. induction f1 as [| f1 IH]; intros f2 n s a b Ha Hb.
      - cbn [base58_while] in Ha. destruct (Z.gtb_spec n 0); [discriminate Ha|].
        injection Ha as <-. destruct f2; cbn [base58_while] in Hb;
          destruct (Z.gtb_spec n 0); try lia; injection Hb as <-; reflexivity.
      - cbn [base58_while] in Ha. destruct (Z.gtb_spec n 0).
        + destruct f2; cbn [base58_while] in Hb;
            destruct (Z.gtb_spec n 0); try lia; [discriminate Hb|].
          apply bind_ok in Ha. destruct Ha as (c & Hc & Ha).
          rewrite Hc in Hb. cbn [Py.bind] in Hb. apply (IH _ _ _ _ _ Ha Hb).
        + injection Ha as <-. destruct f2; cbn [base58_while] in Hb;
            destruct (Z.gtb_spec n 0); try lia; injection Hb as <-; reflexivity. }
    pose proof (Hdet _ _ _ _ _ _ H1 H2) as Hr.
    rewrite !append_empty_r in Hr. exact Hr. }
  subst s2.
  assert (Ez : leading_zeros d1 = leading_zeros d2).
  { apply (f_equal String.length) in E. rewrite !length_append, !length_ones in E. lia. }
  destruct (leading_zeros_split d1) as (t1 & T1 & G1).
  destruct (leading_zeros_split d2) as (t2 & T2 & G2).
  rewrite T1, T2, Ez. f_equal.
  apply map_unsigned_inj.
  rewrite !big_endian_value in Ev. rewrite T1, T2 in Ev.
  rewrite !map_app, !map_repeat in Ev.
  change (byte.unsigned Byte.x00) with 0 in Ev. rewrite !value_leading_zeros in Ev.
  apply (value_inj_no_leading_zero 8); try lia; try apply bytes_fit; try exact Ev.
  - destruct t1; [exact I | exact G1].
  - destruct t2; [exact I | exact G2].
Qed.

End Base58Support.

Section Base58Shape.
Import Legacy RepackSpec Alphabet.

Variable sha256 : bytes -> bytes.

(** [_base58check_encode] never raises: its result is the Base58 digits
    of the checked bytes behind one [1] for each leading zero byte. *)
Lemma base58check_encode_unfold (payload : bytes) :
  let data := payload ++ slice_to (sha256 (sha256 payload)) 4 in
  exists fuel r,
    base58_while fuel (int_from_bytes_big data) EmptyString = inr r
    /\ _base58check_encode sha256 payload = inr (leading_ones data r).
Proof.
  intros data. unfold _base58check_encode. fold data.
  set (n := int_from_bytes_big data).
  assert (Hn : 0 <= n) by (unfold n, int_from_bytes_big; apply le_combine_bound).
  destruct (@base58_while_ok (Z.to_nat (Z.log2 n + 1)) n EmptyString) as [s Hs].
  { split; [exact Hn|]. pose proof (Z.log2_nonneg n).
    rewrite Z2Nat.id by lia.
    destruct (Z.eq_dec n 0) as [-> | Hne]; [simpl; lia|].
    apply Z.log2_spec. lia. }
  exists (Z.to_nat (Z.log2 n + 1)), s. split; [exact Hs|].
  rewrite Hs. reflexivity.
Qed.

(** The first character written for a number of [k + 1] base-58 digits is
    that of its leading digit. *)
Lemma base58_while_head (k : nat) :
  forall fuel n s r,
    58 ^ Z.of_nat k <= n < 58 ^ (Z.of_nat k + 1) ->
    base58_while fuel n s = inr r ->
    exists c rest,
      r = String c (rest ++ s)
      /\ str_index _BASE58_ALPHABET (n / 58 ^ Z.of_nat k) = inr c
      /\ String.length rest = k.
Proof.
  induction k as [| k IH]; intros fuel n s r Hn H.
  - change (58 ^ Z.of_nat 0) with 1 in *. change (58 ^ (Z.of_nat 0 + 1)) with 58 in Hn.
    rewrite Z.div_1_r.
    destruct fuel as [| fuel]; cbn [base58_while] in H;
      destruct (Z.gtb_spec n 0); try lia; [discriminate H|].
    apply bind_ok in H. destruct H as (c & Hc & H).
    rewrite Z.mod_small in Hc by lia. rewrite Z.div_small in H by lia.
    assert (E : r = String c s).
    { destruct fuel; cbn [base58_while] in H; injection H as <-; reflexivity. }
    exists c, EmptyString. split; [exact E|]. split; [exact Hc | reflexivity].
  - assert (P : 0 < 58 ^ Z.of_nat k) by (apply Z.pow_pos_nonneg; lia).
    rewrite Nat2Z.inj_succ in *.
    replace (Z.succ (Z.of_nat k) + 1) with (Z.succ (Z.succ (Z.of_nat k))) in Hn by lia.
    rewrite !Z.pow_succ_r in Hn by lia. rewrite Z.pow_succ_r by lia.
    destruct fuel as [| fuel]; cbn [base58_while] in H;
      destruct (Z.gtb_spec n 0); try lia; [discriminate H|].
    apply bind_ok in H. destruct H as (c0 & Hc0 & H).
    apply IH in H.
    2:{ replace (Z.of_nat k + 1) with (Z.succ (Z.of_nat k)) by lia.
        rewrite Z.pow_succ_r by lia. split.
        - apply Z.div_le_lower_bound; lia.
        - apply Z.div_lt_upper_bound; lia. }
    destruct H as (c & rest & -> & Hc & Hl).
    exists c, (rest ++ String c0 EmptyString)%string. split; [| split].
    + rewrite append_assoc. reflexivity.
    + rewrite <- Z.div_div by lia. exact Hc.
    + rewrite length_append, Hl. cbn. lia.
Qed.

End Base58Shape.

(** ** CashAddr: what the encoder guarantees *)

Section CashAddrExtras.
Import CashAddr CashAddrSpec RepackSpec.

(** X1.  Every address [hash160_to_cashaddr] returns carries a valid
    checksum: the digits after the colon, preceded by the expanded
    prefix, make [_cashaddr_polymod] vanish, which is the test a CashAddr
    decoder applies. *)
Theorem cashaddr_address_verifies (hash160 : bytes) (script_type : string) :
  exists digits chars,
    hash160_to_cashaddr hash160 script_type
    = inr ("bitcoincash:" ++ string_of_list_ascii chars)%string
    /\ mapM (str_index _CASHADDR_CHARSET) digits = inr chars
    /\ Forall five_bit digits
    /\ _cashaddr_polymod (_cashaddr_hrp_expand "bitcoincash" ++ digits) = 0.
Proof.
  destruct (hash160_to_cashaddr_spec hash160 script_type)
    as (payload & address & _ & H5 & Ha & Hs).
  unfold checksummed_address in Hs.
  apply bind_ok in Hs. destruct Hs as (chars & Hc & Hs). injection Hs as <-.
  eexists. exists chars. split; [exact Ha|]. split; [exact Hc|]. split.
  - apply Forall_app. split; [exact H5 | apply checksum_digits_five_bit].
  - rewrite <- polymod_is_checksum_polymod, !app_assoc.
    apply checksum_verifies, Forall_app. split; [apply hrp_expand_five_bit | exact H5].
Qed.

(** X2.  Re-packing with padding never fails on digits that fit their
    width; the output has as many digits as the input bits need, every
    digit fits the new width, and read as one number, most significant
    digit first, the output is the input followed by the zero bits of the
    padding. *)
Theorem repack_keeps_value (data : list Z) (from_bits to_bits : Z) :
  0 < from_bits -> 0 < to_bits -> digits_fit from_bits data ->
  exists out,
    _convert_bits data from_bits to_bits true = inr out
    /\ digits_fit to_bits out
    /\ len out = (from_bits * len data + to_bits - 1) / to_bits
    /\ value to_bits out
       = value from_bits data * 2 ^ (len out * to_bits - from_bits * len data).
Proof.
  intros Hf Ht Hd.
  destruct (@convert_bits_ok from_bits to_bits data ltac:(lia) Ht) as (out & Hok & _).
  exists out. split; [exact Hok|].
  apply (convert_bits_value from_bits to_bits data out Hf Ht Hd Hok).
Qed.

(** X3.  The address of a 20-byte hash is the prefix, a colon and 42
    characters, the first of them [q] for the type P2PKH and [p] for any
    other type. *)
Theorem cashaddr_address_shape (hash160 : bytes) (script_type : string) :
  List.length hash160 = 20%nat ->
  exists rest,
    hash160_to_cashaddr hash160 script_type
    = inr ("bitcoincash:"
           ++ String (if String.eqb script_type "P2PKH" then "q" else "p")%char rest)%string
    /\ String.length rest = 41%nat.
Proof.
  intros Hlen.
  destruct (hash160_to_cashaddr_spec hash160 script_type)
    as (payload & address & Hp & H5 & Ha & Hs).
  assert (Hver : (if String.eqb script_type "P2PKH" then 0x00 else 0x08) = 0
                 \/ (if String.eqb script_type "P2PKH" then 0x00 else 0x08) = 8)
    by (destruct (String.eqb script_type "P2PKH"); auto).
  destruct (payload_head hash160 _ payload Hlen Hver Hp) as (rest & -> & Hrest).
  unfold checksummed_address in Hs.
  apply bind_ok in Hs. destruct Hs as (chars & Hc & Hs). injection Hs as <-.
  pose proof (mapM_length _ _ _ Hc) as Hl.
  rewrite length_app in Hl. cbn [List.length] in Hl. rewrite Hrest in Hl.
  change (List.length (checksum_digits _)) with 8%nat in Hl.
  cbn [app mapM] in Hc. apply bind_ok in Hc. destruct Hc as (c0 & Hc0 & Hc).
  apply bind_ok in Hc. destruct Hc as (chars' & _ & Hc). injection Hc as <-.
  cbn [List.length] in Hl.
  assert (Hq : c0 = (if String.eqb script_type "P2PKH" then "q" else "p")%char).
  { destruct (String.eqb script_type "P2PKH"); vm_compute in Hc0; congruence. }
  exists (string_of_list_ascii chars'). split.
  - rewrite Ha, <- Hq. reflexivity.
  - rewrite length_of_list_ascii. lia.
Qed.

End CashAddrExtras.

Lemma repack_keeps_value_witness :
  exists out,
    CashAddr._convert_bits [255; 1] 8 5 true = inr out
    /\ digits_fit 5 out
    /\ len out = (8 * len [255; 1] + 5 - 1) / 5
    /\ RepackSpec.value 5 out
       = RepackSpec.value 8 [255; 1] * 2 ^ (len out * 5 - 8 * len [255; 1]).
Proof.
  apply (repack_keeps_value [255; 1] 8 5); [lia | lia |].
  repeat constructor; lia.
Defined.

Lemma cashaddr_address_shape_witness :
  exists rest,
    CashAddr.hash160_to_cashaddr hash160_fixture "P2PKH"
    = inr ("bitcoincash:"
           ++ String (if String.eqb "P2PKH" "P2PKH" then "q" else "p")%char rest)%string
    /\ String.length rest = 41%nat.
Proof. apply (cashaddr_address_shape hash160_fixture "P2PKH"). reflexivity. Defined.

Section ChecksumExtras.
Import CashAddr CashAddrSpec ChecksumAlgebra.

(** X23.  [_cashaddr_polymod] tells apart any two digit strings that
    differ in exactly one 5-bit digit, whatever their length: an address
    that verifies no longer verifies once one of its characters is
    replaced. *)
Theorem checksum_detects_one_wrong_digit (pre post : list Z) (d d' : Z) :
  five_bit d -> five_bit d' -> d <> d' ->
  _cashaddr_polymod (pre ++ d :: post) <> _cashaddr_polymod (pre ++ d' :: post)
  /\ (_cashaddr_polymod (pre ++ d :: post) = 0 ->
      _cashaddr_polymod (pre ++ d' :: post) <> 0).
Proof.
  intros Hd Hd' Hne.
  assert (Hdiff : _cashaddr_polymod (pre ++ d :: post)
                  <> _cashaddr_polymod (pre ++ d' :: post)).
  { unfold _cashaddr_polymod. intros E.
    apply (run_single_difference pre post d d' 1 Hd Hd' Hne).
    apply (f_equal (fun z => Z.lxor z 1)) in E. cbv beta in E.
    rewrite !Z.lxor_assoc, Z.lxor_nilpotent, !Z.lxor_0_r in E. exact E. }
  split; [exact Hdiff|]. intros H0 H0'. apply Hdiff. rewrite H0, H0'. reflexivity.
Qed.

End ChecksumExtras.

Lemma checksum_detects_one_wrong_digit_witness :
  CashAddr._cashaddr_polymod ([2; 9] ++ 4 :: [0; 31])
  <> CashAddr._cashaddr_polymod ([2; 9] ++ 5 :: [0; 31])
  /\ (CashAddr._cashaddr_polymod ([2; 9] ++ 4 :: [0; 31]) = 0 ->
      CashAddr._cashaddr_polymod ([2; 9] ++ 5 :: [0; 31]) <> 0).
Proof.
  apply (checksum_detects_one_wrong_digit [2; 9] [0; 31] 4 5).
  - unfold CashAddrSpec.five_bit. lia.
  - unfold CashAddrSpec.five_bit. lia.
  - discriminate.
Defined.

(** ** The transaction parser: what else it guarantees *)

Section ParserExtras.
Import CoinbaseTxParser ParserInvariants ParserPost TxSerializer.

(** X4.  [parse] stops at the locktime: bytes that follow a transaction
    change neither the record returned nor the number of bytes consumed. *)
Theorem parse_stops_at_locktime (data more : bytes) (tx : Tx) :
  parse data = inr tx ->
  parse (data ++ more) = inr tx /\ consumed (data ++ more) = consumed data.
Proof.
  intros H. apply parse_ok_inv in H. destruct H as (self' & H & Hc).
  pose proof (@parse_within_buffer data tx self' H) as Hb.
  destruct (well_behaved_parse_method data 0 tx self' ltac:(lia) H) as (_ & _ & Hext).
  specialize (Hext ltac:(lia) more).
  rewrite Hc. unfold parse, consumed. fold (at_ (data ++ more) 0).
  rewrite Hext. split; reflexivity.
Qed.

(** X5.  Every record [parse] returns has its fields in range: a 32-bit
    signed version, a 32-bit locktime, for each input a previous hash that
    is the lower-case hexadecimal form of 32 bytes and a 32-bit index and
    sequence, for each output a 64-bit value. *)
Theorem parsed_fields_are_in_range (data : bytes) (tx : Tx) :
  parse data = inr tx ->
  - 2 ^ 31 <= version tx < 2 ^ 31
  /\ 0 <= locktime tx < 2 ^ 32
  /\ Forall (fun i => (exists h, List.length h = 32%nat /\ prev_hash i = hex h)
                      /\ 0 <= prev_index i < 2 ^ 32
                      /\ 0 <= sequence i < 2 ^ 32) (inputs tx)
  /\ Forall (fun o => 0 <= value o < 2 ^ 64) (outputs tx).
Proof.
  intros H. pose proof (parse_in_range data tx H) as Hr.
  unfold tx_in_range in Hr.
  repeat (apply andb_true_iff in Hr; destruct Hr as [Hr ?]).
  assert (Hfit : forall b n, fits b n = true -> 0 <= n < 2 ^ b).
  { intros b n Hf. unfold fits in Hf. apply andb_true_iff in Hf. lia. }
  split; [lia|]. split; [apply Hfit; assumption|]. split.
  - apply Forall_forall. intros i Hi.
    match goal with
    | Hall : forallb input_in_range _ = true |- _ =>
        rewrite forallb_forall in Hall; specialize (Hall i Hi);
        unfold input_in_range in Hall;
        repeat (apply andb_true_iff in Hall; destruct Hall as [Hall ?])
    end.
    split; [| split; apply Hfit; assumption].
    unfold is_txid in *.
    match goal with
    | Ht : match fromhex (prev_hash i) with inr _ => _ | inl _ => _ end = true |- _ =>
        destruct (fromhex (prev_hash i)) as [e | h]; [discriminate Ht|];
        apply andb_true_iff in Ht; destruct Ht as [Hl He];
        apply Nat.eqb_eq in Hl; apply String.eqb_eq in He
    end.
    exists h. split; [assumption | symmetry; assumption].
  - apply Forall_forall. intros o Ho.
    match goal with
    | Hall : forallb output_in_range _ = true |- _ =>
        rewrite forallb_forall in Hall; specialize (Hall o Ho);
        unfold output_in_range in Hall;
        apply andb_true_iff in Hall; destruct Hall as [Hv _]
    end.
    apply Hfit. exact Hv.
Qed.

(** X6.  [_varint] does not ask for the shortest form: after the marker
    byte [fd], [fe] or [ff] it returns the 16, 32 or 64 bits that follow,
    however small their value. *)
Theorem varint_accepts_long_forms (v : Z) :
  (0 <= v < 2 ^ 16 -> reads _varint (Byte.xfd :: le_split 2 v) v)
  /\ (0 <= v < 2 ^ 32 -> reads _varint (Byte.xfe :: le_split 4 v) v)
  /\ (0 <= v < 2 ^ 64 -> reads _varint (Byte.xff :: le_split 8 v) v).
Proof.
  assert (Hrest : forall (k : nat) (tag : byte) pre post,
             0 <= v < 2 ^ (8 * Z.of_nat k) ->
             (b <~ _read (Z.of_nat k) ;; liftM (unpack_unsigned k b))
               (at_ (pre ++ (tag :: le_split k v) ++ post) (len pre + 1))
             = inr (v, at_ (pre ++ (tag :: le_split k v) ++ post)
                           (len pre + len (tag :: le_split k v)))).
  { intros k tag pre post Hk.
    pose proof (@reads_unsigned k v Hk (pre ++ [tag]) post) as R.
    rewrite len_app, <- !app_assoc in R. cbn [app] in R.
    change (len [tag]) with 1 in R. cbn [app].
    rewrite R, len_cons. f_equal. f_equal. f_equal. lia. }
  split; [| split]; intros Hv pre post; rewrite varint_unfold;
    cbn [at_ _data _pos app]; rewrite index_middle; cbv zeta.
  - change (byte.unsigned Byte.xfd) with 0xfd.
    cbn [Z.ltb Z.eqb Z.compare Pos.compare Pos.compare_cont Pos.eqb].
    apply (Hrest 2%nat Byte.xfd). exact Hv.
  - change (byte.unsigned Byte.xfe) with 0xfe.
    cbn [Z.ltb Z.eqb Z.compare Pos.compare Pos.compare_cont Pos.eqb].
    apply (Hrest 4%nat Byte.xfe). exact Hv.
  - change (byte.unsigned Byte.xff) with 0xff.
    cbn [Z.ltb Z.eqb Z.compare Pos.compare Pos.compare_cont Pos.eqb].
    apply (Hrest 8%nat Byte.xff). exact Hv.
Qed.

(** X24.  A record is never bigger than what was read for it: when
    [parse] returns, the cursor has moved by at least 10 bytes, 41 bytes
    and its script for each input, 9 bytes and its script for each output,
    and it is inside the buffer.  So the numbers of inputs and outputs and
    the script lengths of a record are bounded by the length of the
    buffer, whatever counts and lengths the bytes declare. *)
Theorem parse_accounts_for_its_bytes (data : bytes) (tx : Tx) :
  parse data = inr tx ->
  exists n,
    consumed data = inr n
    /\ tx_size tx <= n <= len data
    /\ 10 + 41 * len (inputs tx) + 9 * len (outputs tx) <= tx_size tx.
Proof.
  intros H. apply parse_ok_inv in H. destruct H as (self' & H & Hc).
  pose proof (@parse_within_buffer data tx self' H) as Hb.
  exists (_pos self'). split; [exact Hc|]. split.
  - split; [| lia].
    pose proof (costs_parse_method data 0 tx self' ltac:(lia) H ltac:(lia)). lia.
  - assert (Hlow : forall (A : Type) (size : A -> Z) (c : Z) (l : list A),
               (forall a, c <= size a) -> c * len l <= total size l).
    { intros A size c l Hs. unfold total.
      induction l as [| a l IH]; cbn [fold_right]; [unfold len; cbn; lia|].
      rewrite len_cons. pose proof (Hs a). lia. }
    pose proof (Hlow _ input_size 41 (inputs tx)
                  ltac:(intros i; unfold input_size; pose proof (len_nonneg (scriptSig i)); lia)).
    pose proof (Hlow _ output_size 9 (outputs tx)
                  ltac:(intros o; unfold output_size; pose proof (len_nonneg (scriptPubKey o)); lia)).
    unfold tx_size. lia.
Qed.

End ParserExtras.

Lemma parse_stops_at_locktime_witness :
  CoinbaseTxParser.parse (firstn 12 loose_tx_bytes ++ [Byte.xde; Byte.xad]) = inr empty_tx
  /\ CoinbaseTxParser.consumed (firstn 12 loose_tx_bytes ++ [Byte.xde; Byte.xad])
     = CoinbaseTxParser.consumed (firstn 12 loose_tx_bytes).
Proof.
  apply (parse_stops_at_locktime (firstn 12 loose_tx_bytes) [Byte.xde; Byte.xad] empty_tx).
  vm_compute. reflexivity.
Defined.

Lemma parsed_fields_are_in_range_witness :
  - 2 ^ 31 <= CoinbaseTxParser.version tx_fixture < 2 ^ 31
  /\ 0 <= CoinbaseTxParser.locktime tx_fixture < 2 ^ 32
  /\ Forall (fun i => (exists h, List.length h = 32%nat
                                 /\ CoinbaseTxParser.prev_hash i = hex h)
                      /\ 0 <= CoinbaseTxParser.prev_index i < 2 ^ 32
                      /\ 0 <= CoinbaseTxParser.sequence i < 2 ^ 32)
            (CoinbaseTxParser.inputs tx_fixture)
  /\ Forall (fun o => 0 <= CoinbaseTxParser.value o < 2 ^ 64)
            (CoinbaseTxParser.outputs tx_fixture).
Proof.
  apply (parsed_fields_are_in_range
           (match TxSerializer.serialize tx_fixture with inr bs => bs | inl _ => [] end)
           tx_fixture).
  vm_compute. reflexivity.
Defined.

Lemma varint_accepts_long_forms_witness :
  ParserInvariants.reads CoinbaseTxParser._varint (Byte.xfd :: le_split 2 5) 5
  /\ ParserInvariants.reads CoinbaseTxParser._varint (Byte.xfe :: le_split 4 5) 5
  /\ ParserInvariants.reads CoinbaseTxParser._varint (Byte.xff :: le_split 8 5) 5.
Proof.
  destruct (varint_accepts_long_forms 5) as (A & B & C).
  split; [apply A; lia | split; [apply B; lia | apply C; lia]].
Defined.

Lemma parse_accounts_for_its_bytes_witness :
  exists n,
    CoinbaseTxParser.consumed loose_tx_bytes = inr n
    /\ ParserPost.tx_size empty_tx <= n <= len loose_tx_bytes
    /\ 10 + 41 * len (CoinbaseTxParser.inputs empty_tx)
       + 9 * len (CoinbaseTxParser.outputs empty_tx) <= ParserPost.tx_size empty_tx.
Proof.
  apply (parse_accounts_for_its_bytes loose_tx_bytes empty_tx).
  vm_compute. reflexivity.
Defined.

(** ** Stratum helpers: what else they guarantee *)

Section StratumExtras.
Import Stratum.

Lemma string_of_length_64 (s : string) :
  String.length s = 64%nat ->
  exists l, List.length l = 64%nat /\ s = string_of_list_ascii l.
Proof.
  intros H. exists (list_ascii_of_string s). split.
  - rewrite <- H. clear H. induction s as [| c s IH]; [reflexivity|].
    cbn. f_equal. exact IH.
  - symmetry. apply string_of_list_ascii_of_string.
Qed.

(** X7.  [stratum_prevhash_to_blockchain] undoes itself and keeps the
    length of its argument: applied to what it returned, it gives back
    the string it was given, whatever that string holds. *)
Theorem prevhash_conversion_is_involution (s : string) :
  stratum_prevhash_to_blockchain (stratum_prevhash_to_blockchain s) = s
  /\ String.length (stratum_prevhash_to_blockchain s) = String.length s.
Proof.
  destruct (Nat.eq_dec (String.length s) 64) as [H64 | Hn].
  - destruct (string_of_length_64 s H64) as (l & Hl & ->).
    do 64 (destruct l as [| ? l]; [discriminate Hl|]).
    destruct l; [| discriminate Hl].
    split; vm_compute; reflexivity.
  - assert (E : stratum_prevhash_to_blockchain s = s).
    { unfold stratum_prevhash_to_blockchain, str_len.
      destruct (Z.eqb_spec (Z.of_nat (String.length s)) 64) as [E | E]; [lia | reflexivity]. }
    rewrite !E. split; reflexivity.
Qed.

(** X8.  On a string of hexadecimal digits of value [n],
    [nbits_to_difficulty] raises [ValueError] exactly when the exponent
    byte [n / 2^24] is below 3; otherwise it answers ['N/A'] exactly when
    the sign bit (bit 23) is set or the 23-bit mantissa is zero, and in
    every other case divides by the positive target
    [mantissa * 256^(exponent - 3)]. *)
Theorem nbits_to_difficulty_outcomes (nbits_hex : string) (n : Z) :
  int16 nbits_hex = inr n ->
  nbits_to_difficulty nbits_hex
  = (if n / 2 ^ 24 <? 3 then inl ValueError
     else if Z.testbit n 23 || (n mod 2 ^ 23 =? 0) then inr NotApplicable
     else inr (Quotient (n mod 2 ^ 23 * 256 ^ (n / 2 ^ 24 - 3))))
  /\ (3 <= n / 2 ^ 24 -> 0 < 256 ^ (n / 2 ^ 24 - 3)).
Proof.
  intros H.
  assert (Hn : 0 <= n).
  { unfold int16 in H. destruct nbits_hex as [| c r]; [discriminate|].
    pose proof (int16_digits_bound (String c r) 0 n ltac:(lia) H). lia. }
  split; [| intros; apply Z.pow_pos_nonneg; lia].
  rewrite (nbits_to_difficulty_cases nbits_hex n H).
  rewrite Z.shiftr_div_pow2 by lia.
  destruct (Z.ltb_spec (n / 2 ^ 24) 3) as [Hlow | Hhigh]; [reflexivity|].
  cbv zeta.
  change 0x007fffff with (Z.ones 23). rewrite Z.land_ones by lia.
  rewrite (land_bit_test n 23 0x00800000) by (reflexivity || lia).
  replace (2 ^ (8 * (n / 2 ^ 24 - 3))) with (256 ^ (n / 2 ^ 24 - 3))
    by (change 256 with (2 ^ 8); rewrite <- Z.pow_mul_r by lia; reflexivity).
  assert (Hp : 0 < 256 ^ (n / 2 ^ 24 - 3)) by (apply Z.pow_pos_nonneg; lia).
  pose proof (Z.mod_pos_bound n (2 ^ 23) ltac:(lia)) as Hm.
  destruct (Z.testbit n 23); cbn [negb orb].
  - destruct (Z.leb_spec (- (n mod 2 ^ 23) * 256 ^ (n / 2 ^ 24 - 3)) 0); [reflexivity | nia].
  - destruct (Z.eqb_spec (n mod 2 ^ 23) 0) as [E | E].
    + rewrite E. reflexivity.
    + destruct (Z.leb_spec (n mod 2 ^ 23 * 256 ^ (n / 2 ^ 24 - 3)) 0); [nia | reflexivity].
Qed.

End StratumExtras.

Lemma nbits_to_difficulty_outcomes_witness :
  Stratum.nbits_to_difficulty "1802f4c1"
  = (if 0x1802f4c1 / 2 ^ 24 <? 3 then inl ValueError
     else if Z.testbit 0x1802f4c1 23 || (0x1802f4c1 mod 2 ^ 23 =? 0)
          then inr Stratum.NotApplicable
          else inr (Stratum.Quotient (0x1802f4c1 mod 2 ^ 23 * 256 ^ (0x1802f4c1 / 2 ^ 24 - 3))))
  /\ (3 <= 0x1802f4c1 / 2 ^ 24 -> 0 < 256 ^ (0x1802f4c1 / 2 ^ 24 - 3)).
Proof.
  apply (nbits_to_difficulty_outcomes "1802f4c1" 0x1802f4c1).
  vm_compute. reflexivity.
Defined.

(** ** Coinbase field decoders: what else they guarantee *)

Section CoinbaseExtras.
Import Coinbase CoinbaseSpec.

Variable ucd_printable : Z -> bool.
Variable ucd_space : Z -> bool.

(** X9.  Whatever the script, the tag text [parse_coinbase_tag] returns
    holds only characters that are printable or the space, begins and ends
    with a character that is not white space, and is no longer than the
    raw bytes returned with it; the raw bytes are a tail of the script. *)
Theorem coinbase_tag_is_clean (script : bytes) :
  exists t raw skipped,
    parse_coinbase_tag ucd_printable ucd_space script = inr (t, raw)
    /\ script = skipped ++ raw
    /\ Forall (fun c => isprintable ucd_printable c = true \/ c = 32) t
    /\ (forall c rest, t = c :: rest -> isspace ucd_space c = false)
    /\ (forall c front, t = front ++ [c] -> isspace ucd_space c = false)
    /\ (List.length t <= List.length raw)%nat.
Proof.
  assert (Hshort : forall s : bytes, (List.length s < 2)%nat ->
             parse_coinbase_tag ucd_printable ucd_space s = inr ([], [])).
  { intros s Hs. unfold parse_coinbase_tag, len.
    destruct (Z.ltb_spec (Z.of_nat (List.length s)) 2); [reflexivity | lia]. }
  assert (Hnil : forall s : bytes,
             parse_coinbase_tag ucd_printable ucd_space s = inr ([], []) ->
             exists t raw skipped,
               parse_coinbase_tag ucd_printable ucd_space s = inr (t, raw)
               /\ s = skipped ++ raw
               /\ Forall (fun c => isprintable ucd_printable c = true \/ c = 32) t
               /\ (forall c rest, t = c :: rest -> isspace ucd_space c = false)
               /\ (forall c front, t = front ++ [c] -> isspace ucd_space c = false)
               /\ (List.length t <= List.length raw)%nat).
  { intros s Hs. exists [], [], s. split; [exact Hs|]. split; [symmetry; apply app_nil_r|].
    split; [constructor|]. split; [discriminate|].
    split; [intros c [| ? ?] ?; discriminate | cbn; lia]. }
  destruct script as [| b [| b1 rest]];
    [apply Hnil, Hshort; cbn; lia | apply Hnil, Hshort; cbn; lia |].
  pose proof (parse_coinbase_tag_cases ucd_printable ucd_space b b1 rest) as H.
  cbv zeta in H.
  set (k := Z.to_nat (byte.unsigned b)) in *.
  destruct (clean_spec ucd_printable ucd_space (decoded (skipn k (b1 :: rest)))) as [Hp Hl].
  exists (clean ucd_printable ucd_space (decoded (skipn k (b1 :: rest)))),
         (skipn k (b1 :: rest)), (b :: firstn k (b1 :: rest)).
  split; [exact H|]. split.
  { change ((b :: firstn k (b1 :: rest)) ++ skipn k (b1 :: rest))
      with (b :: (firstn k (b1 :: rest) ++ skipn k (b1 :: rest))).
    rewrite firstn_skipn. reflexivity. }
  split; [exact Hp|]. split; [| split].
  - intros c r E. unfold clean in E. apply strip_first in E. exact E.
  - intros c f E. unfold clean in E. apply strip_last in E. exact E.
  - pose proof (decoded_length (skipn k (b1 :: rest))). lia.
Qed.

(** X10.  When [parse_block_height] finds a height, the script is a length
    byte from 1 to 8, that many bytes holding the height in little-endian
    order, and a tail: the height fits the pushed bytes, the tail is what
    [parse_coinbase_tag] returns as raw bytes and decodes, and bytes added
    at the end of the script leave the height as it is. *)
Theorem block_height_is_first_push (script : bytes) (n : Z) :
  parse_block_height script = inr (Some n) ->
  exists k tail,
    (1 <= k <= 8)%nat
    /\ 0 <= n < 2 ^ (8 * Z.of_nat k)
    /\ script = byte.of_Z (Z.of_nat k) :: le_split k n ++ tail
    /\ parse_coinbase_tag ucd_printable ucd_space script
       = inr (clean ucd_printable ucd_space (decoded tail), tail)
    /\ forall more, parse_block_height (script ++ more) = inr (Some n).
Proof.
  intros H.
  destruct script as [| b rest]; [discriminate H|].
  pose proof (byte_unsigned_range b) as Hb.
  rewrite parse_block_height_cases in H.
  destruct (Z.leb_spec 1 (byte.unsigned b)) as [H1 |]; [| discriminate H].
  destruct (Z.leb_spec (byte.unsigned b) 8) as [H8 |]; [| discriminate H].
  destruct (Z.leb_spec (byte.unsigned b) (len rest)) as [Hr |]; [| discriminate H].
  cbn [andb] in H. injection H as Hn.
  set (k := Z.to_nat (byte.unsigned b)) in *.
  assert (Hk : Z.of_nat k = byte.unsigned b) by (unfold k; lia).
  assert (Hlen : List.length (firstn k rest) = k).
  { rewrite length_firstn. unfold len in Hr. lia. }
  exists k, (skipn k rest).
  split; [lia|]. split; [| split; [| split]].
  - subst n. pose proof (le_combine_bound (firstn k rest)) as B.
    rewrite Hlen in B. unfold int_from_bytes_little. exact B.
  - rewrite Hk, byte.of_Z_unsigned. subst n. unfold int_from_bytes_little.
    rewrite (split_le_combine' (firstn k rest) k Hlen), firstn_skipn. reflexivity.
  - destruct rest as [| b1 rest']; [unfold len in Hr; cbn in Hr; lia|].
    apply (parse_coinbase_tag_cases ucd_printable ucd_space b b1 rest').
  - intros more. change ((b :: rest) ++ more) with (b :: (rest ++ more)).
    rewrite parse_block_height_cases.
    destruct (Z.leb_spec 1 (byte.unsigned b)); [| lia].
    destruct (Z.leb_spec (byte.unsigned b) 8); [| lia].
    destruct (Z.leb_spec (byte.unsigned b) (len (rest ++ more))) as [| Hx];
      [| rewrite len_app in Hx; pose proof (len_nonneg more); lia].
    cbn [andb]. fold k. rewrite firstn_app.
    replace (k - List.length rest)%nat with 0%nat by (unfold len in Hr; lia).
    cbn [firstn]. rewrite app_nil_r, Hn. reflexivity.
Qed.

End CoinbaseExtras.

Lemma block_height_is_first_push_witness :
  exists k tail,
    (1 <= k <= 8)%nat
    /\ 0 <= 0x0a0c22 < 2 ^ (8 * Z.of_nat k)
    /\ height_fixture ++ [Byte.x2f; Byte.x41; Byte.x2f]
       = byte.of_Z (Z.of_nat k) :: le_split k 0x0a0c22 ++ tail
    /\ Coinbase.parse_coinbase_tag (fun _ => true) (fun _ => false)
         (height_fixture ++ [Byte.x2f; Byte.x41; Byte.x2f])
       = inr (Coinbase.clean (fun _ => true) (fun _ => false) (CoinbaseSpec.decoded tail), tail)
    /\ forall more,
         Coinbase.parse_block_height ((height_fixture ++ [Byte.x2f; Byte.x41; Byte.x2f]) ++ more)
         = inr (Some 0x0a0c22).
Proof.
  apply (block_height_is_first_push (fun _ => true) (fun _ => false)
           (height_fixture ++ [Byte.x2f; Byte.x41; Byte.x2f]) 0x0a0c22).
  vm_compute. reflexivity.
Defined.

(** ** The script classifier: what else it guarantees *)

Section ScriptExtras.
Import CashAddr Legacy Script.

Variable sha256 : bytes -> bytes.
Variable ripemd160 : bytes -> bytes.

(** X11.  A script [a9 14 <20 bytes> 87] is classified P2SH, with the
    addresses of the 20 bytes under the type P2SH and their hexadecimal
    form as payload.  A script [<n> <n bytes> ac] with [n] 33 or 65 is
    classified P2PK, whatever the [n] bytes are: its payload is their
    hexadecimal form and its addresses are the P2PKH addresses of the
    RIPEMD-160 of their SHA-256. *)
Theorem p2sh_and_p2pk_outputs (h pk : bytes) :
  List.length h = 20%nat ->
  List.length pk = 33%nat \/ List.length pk = 65%nat ->
  (exists a,
      addresses sha256 h "P2SH" = inr a
      /\ parse_script_pubkey sha256 ripemd160
           ([Byte.xa9; Byte.x14] ++ h ++ [Byte.x87])
         = inr ("P2SH"%string, Some a, hex h))
  /\ (exists a,
         addresses sha256 (ripemd160 (sha256 pk)) "P2PKH" = inr a
         /\ parse_script_pubkey sha256 ripemd160
              (byte.of_Z (len pk) :: pk ++ [Byte.xac])
            = inr ("P2PK"%string, Some a, hex pk)).
Proof.
  intros Hh Hpk. split.
  - destruct (addresses_total sha256 h "P2SH") as [a Ha]. exists a. split; [exact Ha|].
    set (pre := [Byte.xa9; Byte.x14]). set (post := [Byte.x87]).
    assert (Hlen : len (pre ++ h ++ post) = 23).
    { rewrite !len_app. unfold len. rewrite Hh. reflexivity. }
    assert (Hto3 : bytes_eqb (slice_to (pre ++ h ++ post) 3)
                     [Byte.x76; Byte.xa9; Byte.x14] = false).
    { rewrite slice_to_firstn by lia.
      destruct h as [| h0 h']; [discriminate Hh|].
      cbn. unfold bytes_eqb.
      destruct (list_eq_dec _ _ _) as [E |]; [discriminate E | reflexivity]. }
    assert (Hto : slice_to (pre ++ h ++ post) 2 = pre).
    { apply (slice_to_whole pre (h ++ post)). }
    assert (H22 : index (pre ++ h ++ post) 22 = inr Byte.x87).
    { rewrite app_assoc.
      replace 22 with (len (pre ++ h)) by (rewrite len_app; unfold len; rewrite Hh; reflexivity).
      apply (index_middle (pre ++ h) [] Byte.x87). }
    assert (Hmid : slice (pre ++ h ++ post) 2 22 = h).
    { replace 22 with (len pre + len h) by (unfold len; rewrite Hh; reflexivity).
      apply (slice_middle pre h post). }
    unfold parse_script_pubkey.
    change (pre ++ h ++ post) with (Byte.xa9 :: Byte.x14 :: h ++ post) at 1.
    cbv beta iota zeta.
    rewrite Hlen, Hto3, Hto, H22, Hmid. rewrite andb_false_r.
    change (23 =? 25) with false. cbn [andb].
    change (23 =? 23) with true. rewrite bytes_eqb_refl.
    cbn [andb and_then Py.bind].
    change (byte.unsigned Byte.x87 =? 135) with true. unfold ok. cbn [Py.bind].
    rewrite Ha. reflexivity.
  - destruct (addresses_total sha256 (ripemd160 (sha256 pk)) "P2PKH") as [a Ha].
    exists a. split; [exact Ha|].
    set (n := byte.of_Z (len pk)).
    assert (Hn : byte.unsigned n = len pk).
    { unfold n. rewrite byte.unsigned_of_Z. unfold byte.wrap, len.
      apply Z.mod_small. lia. }
    assert (Hlen : len (n :: pk ++ [Byte.xac]) = len pk + 2).
    { rewrite len_cons, len_app. unfold len. cbn [List.length]. lia. }
    assert (H0 : index (n :: pk ++ [Byte.xac]) 0 = inr n) by apply index_head.
    assert (Hlast : index (n :: pk ++ [Byte.xac]) (-1) = inr Byte.xac).
    { rewrite index_last by discriminate.
      change (n :: pk ++ [Byte.xac]) with ((n :: pk) ++ [Byte.xac]).
      rewrite length_app, Nat.add_sub. cbn [List.length].
      rewrite nth_error_app2 by (cbn [List.length]; lia).
      cbn [List.length]. rewrite Nat.sub_diag. reflexivity. }
    assert (Hmid : slice (n :: pk ++ [Byte.xac]) 1 (-1) = pk).
    { unfold slice. rewrite Hlen. unfold adjust.
      pose proof (len_nonneg pk).
      destruct (Z.ltb_spec 1 0); [lia|]. destruct (Z.ltb_spec (-1) 0); [| lia].
      rewrite Z.min_l, Z.max_r by lia.
      replace (Z.to_nat (-1 + (len pk + 2) - 1)) with (List.length pk) by (unfold len; lia).
      change (Z.to_nat 1) with 1%nat. cbn [skipn].
      rewrite firstn_app, firstn_all, Nat.sub_diag. cbn [firstn]. apply app_nil_r. }
    assert (Hl : len pk = 33 \/ len pk = 65) by (unfold len; lia).
    unfold parse_script_pubkey. cbv beta iota zeta.
    rewrite Hlen, H0, Hlast, Hmid.
    replace (len pk + 2 =? 25) with false by (symmetry; apply Z.eqb_neq; lia).
    replace (len pk + 2 =? 23) with false by (symmetry; apply Z.eqb_neq; lia).
    cbn [andb and_then Py.bind]. unfold ok. cbn [Py.bind].
    rewrite Hn.
    replace (len pk =? 106) with false by (symmetry; apply Z.eqb_neq; lia).
    change (byte.unsigned Byte.xac =? 172) with true.
    replace ((len pk + 2 =? 35) || (len pk + 2 =? 67)) with true.
    2:{ symmetry. apply orb_true_iff. rewrite !Z.eqb_eq. lia. }
    cbn [andb]. replace (len pk =? len pk + 2 - 2) with true
      by (symmetry; apply Z.eqb_eq; lia).
    rewrite Ha. reflexivity.
Qed.

(** X12.  Every script that begins with [6a] is classified OP_RETURN,
    without addresses; its payload is the hexadecimal form of the bytes
    after the first one, and [bytes.fromhex] gives those bytes back from
    it (the display of the payload never meets a malformed string). *)
Theorem op_return_payload (data : bytes) :
  parse_script_pubkey sha256 ripemd160 (Byte.x6a :: data)
  = inr ("OP_RETURN"%string, None, hex data)
  /\ fromhex (hex data) = inr data.
Proof.
  split; [| apply fromhex_hex].
  unfold parse_script_pubkey. cbv beta iota zeta.
  assert (H3 : bytes_eqb (slice_to (Byte.x6a :: data) 3)
                 [Byte.x76; Byte.xa9; Byte.x14] = false).
  { rewrite slice_to_firstn by lia. cbn. unfold bytes_eqb.
    destruct (list_eq_dec _ _ _) as [E |]; [discriminate E | reflexivity]. }
  assert (H2 : bytes_eqb (slice_to (Byte.x6a :: data) 2) [Byte.xa9; Byte.x14] = false).
  { rewrite slice_to_firstn by lia. cbn. unfold bytes_eqb.
    destruct (list_eq_dec _ _ _) as [E |]; [discriminate E | reflexivity]. }
  rewrite H3, H2, !andb_false_r. cbn [andb and_then Py.bind].
  rewrite index_head. unfold ok. cbn [Py.bind].
  change (byte.unsigned Byte.x6a =? 106) with true. cbv iota.
  change 1 with (len [Byte.x6a]).
  change (Byte.x6a :: data) with ([Byte.x6a] ++ data).
  rewrite slice_from_whole. reflexivity.
Qed.

(** X13.  For every script the classifier returns a type, addresses only
    for the types P2PKH, P2SH and P2PK, and as payload the hexadecimal
    form of a contiguous part of the script, which [bytes.fromhex] reads
    back. *)
Theorem script_payload_is_part_of_script (script : bytes) :
  exists ty a part pre post,
    parse_script_pubkey sha256 ripemd160 script = inr (ty, a, hex part)
    /\ script = pre ++ part ++ post
    /\ fromhex (hex part) = inr part
    /\ match a with
       | Some _ => ty = "P2PKH"%string \/ ty = "P2SH"%string \/ ty = "P2PK"%string
       | None => ty = "EMPTY"%string \/ ty = "OP_RETURN"%string \/ ty = "UNKNOWN"%string
       end.
Proof.
  destruct script as [| b0 rest] eqn:Es.
  { exists "EMPTY"%string, None, [], [], []. repeat split. left. reflexivity. }
  assert (Hne : script <> []) by (subst; discriminate).
  unfold parse_script_pubkey. cbv beta iota zeta. rewrite <- Es.
  set (s := script) in *.
  assert (H0 : index s 0 = inr b0) by (rewrite Es; apply index_head).
  assert (Hlast : exists last, index s (-1) = inr last).
  { rewrite (@index_last _ s Hne).
    destruct (@nth_error_ends _ s Hne) as (f & l & _ & Hl). rewrite Hl. eauto. }
  destruct Hlast as (last & Hlast).
  assert (Leaf : forall (ty : string) (a : option address) (part : bytes),
             (exists pre post, s = pre ++ part ++ post) ->
             match a with
             | Some _ => ty = "P2PKH"%string \/ ty = "P2SH"%string \/ ty = "P2PK"%string
             | None => ty = "EMPTY"%string \/ ty = "OP_RETURN"%string \/ ty = "UNKNOWN"%string
             end ->
             exists ty' a' part' pre post,
               @inr exn _ (ty, a, hex part) = inr (ty', a', hex part')
               /\ s = pre ++ part' ++ post
               /\ fromhex (hex part') = inr part'
               /\ match a' with
                  | Some _ => ty' = "P2PKH"%string \/ ty' = "P2SH"%string \/ ty' = "P2PK"%string
                  | None => ty' = "EMPTY"%string \/ ty' = "OP_RETURN"%string
                            \/ ty' = "UNKNOWN"%string
                  end).
  { intros ty a part (pre & post & Hp) Ha. exists ty, a, part, pre, post.
    split; [reflexivity|]. split; [exact Hp|]. split; [apply fromhex_hex | exact Ha]. }
  assert (Tail : exists ty' a' part' pre post,
             (first <- index s 0 ;;
              if byte.unsigned first =? 0x6a then
                ok ("OP_RETURN"%string, None, hex (slice_from s 1))
              else
                last <- index s (-1) ;;
                if (byte.unsigned last =? 0xac) && ((len s =? 35) || (len s =? 67)) then
                  pk_len <- index s 0 ;;
                  if byte.unsigned pk_len =? len s - 2 then
                    a <- addresses sha256 (ripemd160 (sha256 (slice s 1 (-1)))) "P2PKH" ;;
                    ok ("P2PK"%string, Some a, hex (slice s 1 (-1)))
                  else ok ("UNKNOWN"%string, None, hex s)
                else ok ("UNKNOWN"%string, None, hex s))
             = inr (ty', a', hex part')
             /\ s = pre ++ part' ++ post
             /\ fromhex (hex part') = inr part'
             /\ match a' with
                | Some _ => ty' = "P2PKH"%string \/ ty' = "P2SH"%string \/ ty' = "P2PK"%string
                | None => ty' = "EMPTY"%string \/ ty' = "OP_RETURN"%string
                          \/ ty' = "UNKNOWN"%string
                end).
  { rewrite H0. cbn [Py.bind].
    destruct (byte.unsigned b0 =? 106).
    { apply Leaf; [apply slice_from_part | right; left; reflexivity]. }
    rewrite Hlast. cbn [Py.bind].
    destruct ((byte.unsigned last =? 172) && ((len s =? 35) || (len s =? 67)));
      [| apply Leaf; [apply whole_part | right; right; reflexivity]].
    destruct (byte.unsigned b0 =? len s - 2);
      [| apply Leaf; [apply whole_part | right; right; reflexivity]].
    destruct (addresses_total sha256 (ripemd160 (sha256 (slice s 1 (-1)))) "P2PKH") as [a Ha].
    rewrite Ha. cbn [Py.bind].
    apply Leaf; [apply slice_part | right; right; reflexivity]. }
  destruct ((len s =? 25)
            && bytes_eqb (slice_to s 3) [Byte.x76; Byte.xa9; Byte.x14]
            && bytes_eqb (slice_from s 23) [Byte.x88; Byte.xac]).
  { destruct (addresses_total sha256 (slice s 3 23) "P2PKH") as [a Ha].
    rewrite Ha. cbn [Py.bind].
    apply Leaf; [apply slice_part | left; reflexivity]. }
  destruct (Z.eqb_spec (len s) 23) as [L23 | L23]; cbn [andb and_then].
  2:{ cbn [Py.bind]. exact Tail. }
  destruct (bytes_eqb (slice_to s 2) [Byte.xa9; Byte.x14]); cbn [Py.bind].
  2:{ exact Tail. }
  assert (H22 : exists b22, index s 22 = inr b22).
  { rewrite index_nth_error by lia.
    destruct (nth_error s (Z.to_nat 22)) as [b22 |] eqn:E22; [eauto|].
    apply nth_error_None in E22. unfold len in L23. lia. }
  destruct H22 as (b22 & H22). rewrite H22. cbn [Py.bind].
  destruct (byte.unsigned b22 =? 135); [| exact Tail].
  destruct (addresses_total sha256 (slice s 2 22) "P2SH") as [a Ha].
  rewrite Ha. cbn [Py.bind].
  apply Leaf; [apply slice_part | right; left; reflexivity].
Qed.

End ScriptExtras.

Lemma p2sh_and_p2pk_outputs_witness :
  (exists a,
      Script.addresses (fun b => b) hash160_fixture "P2SH" = inr a
      /\ Script.parse_script_pubkey (fun b => b) (fun b => firstn 20 b)
           ([Byte.xa9; Byte.x14] ++ hash160_fixture ++ [Byte.x87])
         = inr ("P2SH"%string, Some a, hex hash160_fixture))
  /\ (exists a,
         Script.addresses (fun b => b)
           (firstn 20 (Byte.x02 :: repeat Byte.x11 32)) "P2PKH" = inr a
         /\ Script.parse_script_pubkey (fun b => b) (fun b => firstn 20 b)
              (byte.of_Z (len (Byte.x02 :: repeat Byte.x11 32))
                 :: (Byte.x02 :: repeat Byte.x11 32) ++ [Byte.xac])
            = inr ("P2PK"%string, Some a, hex (Byte.x02 :: repeat Byte.x11 32))).
Proof.
  apply (p2sh_and_p2pk_outputs (fun b => b) (fun b => firstn 20 b)
           hash160_fixture (Byte.x02 :: repeat Byte.x11 32)).
  - reflexivity.
  - left. reflexivity.
Defined.

(** ** The waiting phase: what else it guarantees *)

Section SessionExtras.
Import Stratum SessionSpec SessionTrace.

(** X14.  The pool difficulty reported with an accepted job is the first
    parameter of the last [mining.set_difficulty] message among the
    messages the loop handled (those of the batches up to the one that
    ended the wait, whole), and null when there was none. *)
Theorem pool_difficulty_is_last_announced
  (script : list (list frame)) (job : frame) (diff : json) :
  await_notify script = inr (JobReceived job diff) ->
  match find is_set_difficulty (rev (seen 15 script)) with
  | Some r => announced r = inr diff
  | None => diff = JNull
  end.
Proof.
  unfold await_notify. intros H. apply bind_ok in H. destruct H as (st & Hp & Hs).
  rewrite poll_seen in Hp by reflexivity.
  apply handle_all_difficulty in Hp.
  assert (Hd : pool_diff st = diff).
  { unfold after_poll in Hs.
    destruct (auth_rejected st && negb (is_some (notify st))); [discriminate Hs|].
    destruct (notify st); [| discriminate Hs]. injection Hs as _ Hd. exact Hd. }
  rewrite Hd in Hp. exact Hp.
Qed.

(** X15.  The wait ends without an exception exactly when every
    [mining.set_difficulty] message among the messages handled has a first
    parameter; the exception is otherwise [IndexError] (an empty
    parameter list) or [TypeError] (parameters that cannot be indexed).
    Messages of later batches, and batches after the fifteenth, have no
    part in it. *)
Theorem wait_raises_on_malformed_difficulty_only (script : list (list frame)) :
  ((exists s, await_notify script = inr s)
   <-> Forall (fun r => is_set_difficulty r = true -> exists d, announced r = inr d)
              (seen 15 script))
  /\ (forall e, await_notify script = inl e -> e = IndexError \/ e = TypeError).
Proof.
  unfold await_notify. rewrite poll_seen by reflexivity. split.
  - rewrite <- (handle_all_ok_iff (seen 15 script) poll_init). split.
    + intros (s & H). apply bind_ok in H. destruct H as (st & H & _). eauto.
    + intros (st & H). rewrite H. cbn [Py.bind]. eauto.
  - intros e H. destruct (handle_all poll_init (seen 15 script)) as [e' | st] eqn:E.
    + cbn in H. injection H as <-. apply (handle_all_raises _ _ _ E).
    + discriminate H.
Qed.

End SessionExtras.

Lemma pool_difficulty_is_last_announced_witness :
  match find SessionTrace.is_set_difficulty
          (rev (SessionTrace.seen 15 [[difficulty_frame]; [notify_frame]; [difficulty_frame]]))
  with
  | Some r => SessionTrace.announced r = inr (Stratum.JInt 512)
  | None => Stratum.JInt 512 = Stratum.JNull
  end.
Proof.
  apply (pool_difficulty_is_last_announced
           [[difficulty_frame]; [notify_frame]; [difficulty_frame]]
           notify_frame (Stratum.JInt 512)).
  reflexivity.
Defined.

(** ** [_stratum_recv]: what it guarantees *)

Section RecvExtras.
Import Recv.
Context {J : Type}.
Variable loads : bytes -> loaded J.

(** X16.  When the bytes delivered are whole lines, each ended by a
    newline, followed by an unfinished line, [_stratum_recv] returns the
    parsed values of the lines that are not blank and are JSON, in order:
    blank lines and lines that are not JSON are skipped, the unfinished
    line is dropped, and the inner loop always ends.  (The lines are taken
    to hold nothing on which [json.loads] raises another exception.) *)
Theorem recv_returns_messages_of_lines
  (script : list event) (lines : list bytes) (partial : bytes) :
  delivered script = wire lines ++ partial ->
  Forall (Forall (fun b => is_newline b = false)) lines ->
  Forall (fun b => is_newline b = false) partial ->
  (forall l e, In l lines -> loads (bstrip l) <> Fails e) ->
  _stratum_recv loads script = inr (messages loads lines).
Proof.
  intros Hd Hl Hp Hf. unfold _stratum_recv.
  rewrite recv_loop_scan by reflexivity. rewrite Hd.
  rewrite (scan_lines loads lines partial Hl Hp Hf). reflexivity.
Qed.

(** X17.  What [_stratum_recv] returns or raises depends on the bytes
    delivered alone, not on how the calls of [sock.recv] cut them, nor on
    whether the loop ended on a timeout, a network error, a closed
    connection or silence. *)
Theorem recv_depends_on_bytes_only (script1 script2 : list event) :
  delivered script1 = delivered script2 ->
  _stratum_recv loads script1 = _stratum_recv loads script2.
Proof.
  intros H. unfold _stratum_recv.
  rewrite !recv_loop_scan by reflexivity. rewrite H. reflexivity.
Qed.

(** X18.  An exception of [json.loads] other than [JSONDecodeError], on a
    line that is not blank, leaves [_stratum_recv]: the messages read
    before it are lost with it. *)
Theorem recv_propagates_decoder_failure
  (script : list event) (lines : list bytes) (line rest : bytes) (e : exn) :
  delivered script = wire (lines ++ [line]) ++ rest ->
  Forall (Forall (fun b => is_newline b = false)) lines ->
  Forall (fun b => is_newline b = false) line ->
  (forall l e', In l lines -> loads (bstrip l) <> Fails e') ->
  bstrip line <> [] ->
  loads (bstrip line) = Fails e ->
  _stratum_recv loads script = inl e.
Proof.
  intros Hd Hl Hline Hf Hne He. unfold _stratum_recv.
  rewrite recv_loop_scan by reflexivity. rewrite Hd.
  rewrite wire_snoc, <- !app_assoc.
  rewrite scan_app.
  pose proof (scan_lines loads lines [] Hl (Forall_nil _) Hf []) as Hs.
  rewrite app_nil_r in Hs. cbn [app] in Hs. rewrite Hs. cbn [Py.bind fst snd].
  rewrite (scan_line loads line rest [] (messages loads lines) Hline).
  cbn [app]. unfold deliver.
  destruct (bstrip line) as [| s0 s'] eqn:Es; [contradiction|].
  rewrite He. reflexivity.
Qed.

End RecvExtras.

Lemma recv_returns_messages_of_lines_witness :
  Recv._stratum_recv
    (fun l => match l with b :: _ => if Byte.eqb b Byte.x7b then Recv.Parsed l else Recv.NotJson
                      | [] => Recv.NotJson end)
    [Recv.Chunk [Byte.x7b; Byte.x7d; Byte.x0d]; Recv.Chunk [Byte.x0a; Byte.x20; Byte.x0a; Byte.x42];
     Recv.Chunk [Byte.x0a; Byte.x7b]; Recv.Timeout; Recv.Chunk [Byte.x7d; Byte.x0a]]
  = inr (Recv.messages
           (fun l => match l with b :: _ => if Byte.eqb b Byte.x7b then Recv.Parsed l else Recv.NotJson
                             | [] => Recv.NotJson end)
           [[Byte.x7b; Byte.x7d; Byte.x0d]; [Byte.x20]; [Byte.x42]]).
Proof.
  apply (recv_returns_messages_of_lines
           (fun l => match l with b :: _ => if Byte.eqb b Byte.x7b then Recv.Parsed l else Recv.NotJson
                             | [] => Recv.NotJson end)
           [Recv.Chunk [Byte.x7b; Byte.x7d; Byte.x0d]; Recv.Chunk [Byte.x0a; Byte.x20; Byte.x0a; Byte.x42];
            Recv.Chunk [Byte.x0a; Byte.x7b]; Recv.Timeout; Recv.Chunk [Byte.x7d; Byte.x0a]]
           [[Byte.x7b; Byte.x7d; Byte.x0d]; [Byte.x20]; [Byte.x42]] [Byte.x7b]).
  - reflexivity.
  - repeat constructor.
  - repeat constructor.
  - intros l e Hin.
    destruct (Recv.bstrip l) as [| b ?]; [discriminate|].
    destruct (Byte.eqb b Byte.x7b); discriminate.
Defined.

Lemma recv_depends_on_bytes_only_witness :
  Recv._stratum_recv (fun l : bytes => Recv.Parsed l)
    [Recv.Chunk [Byte.x31; Byte.x0a; Byte.x32]; Recv.Chunk [Byte.x0a]; Recv.Timeout]
  = Recv._stratum_recv (fun l : bytes => Recv.Parsed l)
      [Recv.Chunk [Byte.x31]; Recv.Chunk [Byte.x0a; Byte.x32; Byte.x0a]; Recv.Chunk []].
Proof.
  apply (recv_depends_on_bytes_only (fun l : bytes => Recv.Parsed l)
           [Recv.Chunk [Byte.x31; Byte.x0a; Byte.x32]; Recv.Chunk [Byte.x0a]; Recv.Timeout]
           [Recv.Chunk [Byte.x31]; Recv.Chunk [Byte.x0a; Byte.x32; Byte.x0a]; Recv.Chunk []]).
  reflexivity.
Defined.

Lemma recv_propagates_decoder_failure_witness :
  Recv._stratum_recv
    (fun l => match l with b :: _ => if Byte.eqb b Byte.xff then Recv.Fails UnicodeDecodeError
                                     else Recv.Parsed l
                      | [] => Recv.NotJson end)
    [Recv.Chunk [Byte.x31; Byte.x0a; Byte.xff]; Recv.Chunk [Byte.x0a; Byte.x32; Byte.x0a]]
  = inl UnicodeDecodeError.
Proof.
  apply (recv_propagates_decoder_failure
           (fun l => match l with b :: _ => if Byte.eqb b Byte.xff then Recv.Fails UnicodeDecodeError
                                            else Recv.Parsed l
                             | [] => Recv.NotJson end)
           [Recv.Chunk [Byte.x31; Byte.x0a; Byte.xff]; Recv.Chunk [Byte.x0a; Byte.x32; Byte.x0a]]
           [[Byte.x31]] [Byte.xff] [Byte.x32; Byte.x0a] UnicodeDecodeError).
  - reflexivity.
  - repeat constructor.
  - repeat constructor.
  - intros l e' [<- | []]. vm_compute. discriminate.
  - vm_compute. discriminate.
  - vm_compute. reflexivity.
Defined.

(** ** The subscribe phase: what it guarantees *)

Section SubscribeExtras.
Import Stratum Subscribe.

(** X19.  When the subscribe phase succeeds, no response to the request
    carried an error without a result, and the two values kept are items
    1 and 2 of the result of the last response that carried one; item 1 is
    not null. *)
Theorem subscription_comes_from_last_success
  (responses : list frame) (e1 e2 : json) :
  subscribe responses = inr (Subscribed e1 e2) ->
  e1 <> JNull
  /\ forallb (fun r => negb (is_failure r)) responses = true
  /\ exists r,
       find is_success (rev responses) = Some r
       /\ item (get_result r) 1 = inr e1
       /\ item (get_result r) 2 = inr e2.
Proof.
  unfold subscribe. intros H. apply bind_ok in H. destruct H as (o & Hl & H).
  destruct o as [st |]; [| discriminate H].
  assert (He : extranonce1 st = e1 /\ extranonce2_size st = e2 /\ e1 <> JNull).
  { destruct (extranonce1 st) eqn:E; try discriminate H;
      injection H as <- <-; repeat split; discriminate. }
  destruct He as (He1 & He2 & Hn).
  apply subscribe_loop_spec in Hl. destruct Hl as [Hf Hs].
  split; [exact Hn|]. split; [exact Hf|].
  destruct (find is_success (rev responses)) as [r |].
  - exists r. rewrite <- He1, <- He2. destruct Hs as [H1 H2]. auto.
  - subst st. cbn in He1. congruence.
Qed.

End SubscribeExtras.

Lemma subscription_comes_from_last_success_witness :
  Stratum.JStr "f000000a" <> Stratum.JNull
  /\ forallb (fun r => negb (Subscribe.is_failure r)) [reject_frame; subscribed_frame] = true
  /\ exists r,
       find Subscribe.is_success (rev [reject_frame; subscribed_frame]) = Some r
       /\ Subscribe.item (Stratum.get_result r) 1 = inr (Stratum.JStr "f000000a")
       /\ Subscribe.item (Stratum.get_result r) 2 = inr (Stratum.JInt 4).
Proof.
  apply (subscription_comes_from_last_success [reject_frame; subscribed_frame]
           (Stratum.JStr "f000000a") (Stratum.JInt 4)).
  reflexivity.
Defined.

(** ** The address encoders lose nothing *)

Section CashAddrInjective.
Import CashAddr CashAddrSpec RepackSpec.

(** X20.  Two hashes of one length that get the same CashAddr address
    are the same hash, and their script types are both P2PKH or both
    something else: the address determines what it was made from. *)
Theorem cashaddr_is_injective (h1 h2 : bytes) (t1 t2 : string) :
  List.length h1 = List.length h2 ->
  hash160_to_cashaddr h1 t1 = hash160_to_cashaddr h2 t2 ->
  h1 = h2 /\ String.eqb t1 "P2PKH" = String.eqb t2 "P2PKH".
Proof.
  intros Hl H.
  destruct (hash160_to_cashaddr_spec h1 t1) as (p1 & a1 & C1 & F1 & A1 & S1).
  destruct (hash160_to_cashaddr_spec h2 t2) as (p2 & a2 & C2 & F2 & A2 & S2).
  rewrite A1, A2 in H. injection H as <-.
  unfold checksummed_address in S1, S2.
  apply bind_ok in S1. destruct S1 as (c1 & M1 & S1).
  apply bind_ok in S2. destruct S2 as (c2 & M2 & S2).
  rewrite <- S1 in S2. injection S2 as S2. apply string_of_list_ascii_inj in S2. subst c2.
  set (v1 := if String.eqb t1 "P2PKH" then 0 else 8) in *.
  set (v2 := if String.eqb t2 "P2PKH" then 0 else 8) in *.
  assert (D1 : digits_fit 8 (v1 :: map byte.unsigned h1)).
  { constructor; [unfold v1; destruct (String.eqb t1 "P2PKH"); lia | apply bytes_fit]. }
  assert (D2 : digits_fit 8 (v2 :: map byte.unsigned h2)).
  { constructor; [unfold v2; destruct (String.eqb t2 "P2PKH"); lia | apply bytes_fit]. }
  assert (Hd : List.length (v1 :: map byte.unsigned h1)
               = List.length (v2 :: map byte.unsigned h2)).
  { cbn [List.length]. rewrite !length_map, Hl. reflexivity. }
  destruct (convert_bits_value 8 5 _ p1 ltac:(lia) ltac:(lia) D1 C1) as (_ & L1 & _).
  destruct (convert_bits_value 8 5 _ p2 ltac:(lia) ltac:(lia) D2 C2) as (_ & L2 & _).
  assert (Lp : List.length p1 = List.length p2).
  { unfold len in L1, L2. rewrite Hd in L1. lia. }
  assert (Hdig : p1 ++ checksum_digits
                         (checksum_polymod
                            (_cashaddr_hrp_expand "bitcoincash" ++ p1 ++ repeat 0 8))
                 = p2 ++ checksum_digits
                           (checksum_polymod
                              (_cashaddr_hrp_expand "bitcoincash" ++ p2 ++ repeat 0 8))).
  { apply (charset_digits_inj _ _ c1); try assumption;
      apply Forall_app; split; try assumption; apply checksum_digits_five_bit. }
  apply app_inj_length in Hdig; [| exact Lp]. destruct Hdig as [Ep _]. subst p2.
  pose proof (convert_bits_inj _ _ p1 D1 D2 Hd C1 C2) as E.
  injection E as Ev Eh. apply map_unsigned_inj in Eh. split; [exact Eh|].
  unfold v1, v2 in Ev.
  destruct (String.eqb t1 "P2PKH"), (String.eqb t2 "P2PKH");
    first [reflexivity | discriminate Ev].
Qed.

End CashAddrInjective.

Lemma cashaddr_is_injective_witness :
  hash160_fixture = hash160_fixture /\ String.eqb "P2SH" "P2PKH" = String.eqb "P2PK" "P2PKH".
Proof.
  apply (cashaddr_is_injective hash160_fixture hash160_fixture "P2SH" "P2PK").
  - reflexivity.
  - vm_compute. reflexivity.
Defined.

Section LegacyExtras.
Import Legacy RepackSpec Alphabet.

Variable sha256 : bytes -> bytes.

(** X21.  Two hashes of one length that get the same legacy address are
    the same hash, and their script types are both P2PKH or both something
    else, whatever the digest function is: Base58Check loses neither the
    bytes nor the leading zero bytes. *)
Theorem legacy_is_injective (h1 h2 : bytes) (t1 t2 : string) :
  List.length h1 = List.length h2 ->
  hash160_to_legacy sha256 h1 t1 = hash160_to_legacy sha256 h2 t2 ->
  h1 = h2 /\ String.eqb t1 "P2PKH" = String.eqb t2 "P2PKH".
Proof.
  intros Hl H. unfold hash160_to_legacy in H.
  set (v1 := if String.eqb t1 "P2PKH" then [Byte.x00] else [Byte.x05]) in *.
  set (v2 := if String.eqb t2 "P2PKH" then [Byte.x00] else [Byte.x05]) in *.
  destruct (base58check_encode_unfold sha256 (v1 ++ h1)) as (f1 & r1 & W1 & E1).
  destruct (base58check_encode_unfold sha256 (v2 ++ h2)) as (f2 & r2 & W2 & E2).
  rewrite E1, E2 in H. injection H as H.
  pose proof (base58_data_inj f1 f2 _ _ r1 r2 W1 W2 H) as Hd.
  apply app_inj_length in Hd.
  2:{ rewrite !length_app, Hl. unfold v1, v2.
      destruct (String.eqb t1 "P2PKH"), (String.eqb t2 "P2PKH"); reflexivity. }
  destruct Hd as [Hd _].
  assert (Hv : List.length v1 = List.length v2).
  { unfold v1, v2. destruct (String.eqb t1 "P2PKH"), (String.eqb t2 "P2PKH"); reflexivity. }
  apply app_inj_length in Hd; [| exact Hv]. destruct Hd as [Ev Eh].
  split; [exact Eh|]. unfold v1, v2 in Ev.
  destruct (String.eqb t1 "P2PKH"), (String.eqb t2 "P2PKH");
    first [reflexivity | discriminate Ev].
Qed.

(** X22.  With a digest of 32 bytes, the legacy address of a 20-byte hash
    begins with [1] for the type P2PKH and with [3] for any other type,
    and in the latter case is 34 characters long. *)
Theorem legacy_address_first_character (h : bytes) (t : string) :
  (forall x, List.length (sha256 x) = 32%nat) ->
  List.length h = 20%nat ->
  exists rest,
    hash160_to_legacy sha256 h t
    = inr (String (if String.eqb t "P2PKH" then "1" else "3")%char rest)
    /\ (String.eqb t "P2PKH" = false -> String.length rest = 33%nat).
Proof.
  intros Hsha Hh. unfold hash160_to_legacy.
  destruct (String.eqb t "P2PKH").
  - destruct (base58check_encode_unfold sha256 ([Byte.x00] ++ h)) as (f & r & _ & E).
    rewrite E. cbn [app]. rewrite leading_ones_spec.
    cbn [leading_zeros]. change (byte.unsigned Byte.x00 =? 0) with true. cbv iota.
    cbn [ones String.append]. eexists. split; [reflexivity | discriminate].
  - destruct (base58check_encode_unfold sha256 ([Byte.x05] ++ h)) as (f & r & W & E).
    rewrite E. clear E.
    set (cs := slice_to (sha256 (sha256 ([Byte.x05] ++ h))) 4) in *.
    assert (Hcs : List.length cs = 4%nat).
    { unfold cs. rewrite slice_to_firstn by lia. rewrite length_firstn, Hsha. reflexivity. }
    cbn [app] in *. cbn [leading_ones].
    change (byte.unsigned Byte.x05 =? 0) with false. cbv iota.
    rewrite big_endian_value in W. cbn [map] in W.
    change (byte.unsigned Byte.x05) with 5 in W.
    assert (Fd : digits_fit 8 (map byte.unsigned (h ++ cs))) by apply bytes_fit.
    rewrite (value_cons 8 5 _ ltac:(lia) Fd) in W.
    destruct (value_from_bounds 8 _ ltac:(lia) Fd 0) as [_ B].
    assert (L : len (map byte.unsigned (h ++ cs)) = 24).
    { unfold len. rewrite length_map, length_app, Hh, Hcs. reflexivity. }
    rewrite L in W, B.
    set (v := value 8 (map byte.unsigned (h ++ cs))) in *.
    assert (A1 : 2 * 58 ^ 33 <= 5 * (2 ^ 8) ^ 24) by (apply Z.leb_le; vm_compute; reflexivity).
    assert (A2 : 6 * (2 ^ 8) ^ 24 <= 3 * 58 ^ 33) by (apply Z.leb_le; vm_compute; reflexivity).
    assert (A3 : 0 < 58 ^ 33) by (apply Z.pow_pos_nonneg; lia).
    assert (A4 : 58 ^ (33 + 1) = 58 * 58 ^ 33) by reflexivity.
    destruct (base58_while_head 33 f (5 * (2 ^ 8) ^ 24 + v) EmptyString r) as (c & rest & -> & Hc & Hr).
    { change (Z.of_nat 33) with 33. rewrite A4. lia. }
    { exact W. }
    change (Z.of_nat 33) with 33 in Hc.
    replace ((5 * (2 ^ 8) ^ 24 + v) / 58 ^ 33) with 2 in Hc.
    2:{ apply (Z.div_unique_pos _ _ 2 (5 * (2 ^ 8) ^ 24 + v - 2 * 58 ^ 33)); lia. }
    vm_compute in Hc. injection Hc as <-.
    exists (rest ++ "")%string. split; [reflexivity|].
    intros _. rewrite append_empty_r. exact Hr.
Qed.

End LegacyExtras.

Lemma legacy_is_injective_witness :
  hash160_fixture = hash160_fixture /\ String.eqb "P2SH" "P2PKH" = String.eqb "P2PK" "P2PKH".
Proof.
  apply (legacy_is_injective (fun b => b) hash160_fixture hash160_fixture "P2SH" "P2PK").
  - reflexivity.
  - vm_compute. reflexivity.
Defined.

Lemma legacy_address_first_character_witness :
  exists rest,
    Legacy.hash160_to_legacy (fun _ => repeat Byte.x2a 32) hash160_fixture "P2SH"
    = inr (String (if String.eqb "P2SH" "P2PKH" then "1" else "3")%char rest)
    /\ (String.eqb "P2SH" "P2PKH" = false -> String.length rest = 33%nat).
Proof.
  apply (legacy_address_first_character (fun _ => repeat Byte.x2a 32) hash160_fixture "P2SH").
  - intros x. reflexivity.
  - reflexivity.
Defined.
